(** * HRM scheduling system: the CP-SAT shift scheduler and its statistics

    A shallow embedding of [backend/scheduler.py] (class [ShiftScheduler]),
    of the parameter merge and the optimisation step of [backend/main.py] /
    [backend/api_server.py], and of the fairness score of
    [backend/ai_analyzer.py].

    Conventions of the embedding.
    - Loop indices ([range(n)]) are [nat]; Python integers are [Z].
    - The input is JSON of the shape that the code reads: identifiers are
      integers or strings ([Id]), names and times are strings, skills are
      lists of strings, a capacity is an integer.
    - JSON objects with fixed keys are records; a key read with
      [.get(key, default)] is an [option] field.
    - The dictionary of decision variables is a [gmap] keyed by the 4-tuple
      [(e, d, l, s)]; skill sets are [gset string].
    - The statistics dictionaries are insertion-ordered association lists
      ([dict]), as Python's [dict] is, because [list(d.values())] exposes the
      order.
    - Python floats are read as real numbers ([R]): [**0.5] is [sqrt],
      [math.log2 x] is [ln x / ln 2], [round(x, 2)] rounds half to even on the
      exact value.  Statements about floats are therefore statements about
      this real-number reading.
    - The CP-SAT solver is an oracle [CpModel -> status * valuation]; a verdict
      OPTIMAL or FEASIBLE comes with a valuation satisfying the model.  What
      the OR-Tools release decides is left open: the rendering of a status in
      the failure message is a field of the oracle, and the exception of
      [model.Add] for a bound outside 64 bits is named by what it reports.
    - The answers of the language model are data: the analyser's dictionary
      of texts is a parameter of [analyze_schedule]. *)

From Stdlib Require Import ZArith List Lia Reals Lra String Permutation Sorted.
From Stdlib Require Import DecimalString DecimalZ.
From stdpp Require Import base decidable option list gmap strings.

Local Open Scope Z_scope.

(** ** Input data (employees.json, locations.json, shifts.json) *)

(** An identifier as JSON delivers it: an integer or a string.  Python compares
    the two kinds as different dictionary keys ([1 != '1']). *)
Inductive Id :=
| IdInt (n : Z)
| IdStr (s : string).

Coercion IdInt : Z >-> Id.

#[global] Instance Id_eq_dec : EqDecision Id := ltac:(solve_decision).

#[global] Instance Id_countable : Countable Id :=
  inj_countable'
    (fun i => match i with IdInt n => inl n | IdStr s => inr s end)
    (fun x => match x with inl n => IdInt n | inr s => IdStr s end)
    (fun i => match i with IdInt _ => eq_refl | IdStr _ => eq_refl end).

Record Employee := {
  emp_id : Id;
  emp_name : string;
  emp_skills : option (list string)          (* employee.get('skills', []) *)
}.

Record Location := {
  loc_id : Id;
  loc_name : string;
  loc_required_skills : option (list string); (* location.get('required_skills', []) *)
  loc_capacity : option Z                     (* location.get('capacity', 20) *)
}.

Record Shift := {
  sh_id : Id;
  sh_name : string;
  sh_start_time : string;
  sh_end_time : string
}.

(** The scheduler object.  [date_str i] is [str(start_date + timedelta(days=i))],
    the rendering of the i-th day counted from the wall-clock date of
    construction. *)
Record ShiftScheduler := {
  employees : list Employee;
  locations : list Location;
  shifts : list Shift;
  num_days : nat;
  min_employees_per_shift : Z;
  max_shifts_per_employee_per_week : Z;
  min_shifts_per_employee_per_week : Z;
  date_str : nat -> string
}.

Definition num_employees (self : ShiftScheduler) : nat := length (employees self).
Definition num_locations (self : ShiftScheduler) : nat := length (locations self).
Definition num_shifts_per_day (self : ShiftScheduler) : nat := length (shifts self).

(** [ShiftScheduler.__init__] *)
Definition init (emps : list Employee) (locs : list Location) (shs : list Shift)
    (today : nat -> string) : ShiftScheduler :=
  {| employees := emps;
     locations := locs;
     shifts := shs;
     num_days := 14;
     min_employees_per_shift := 2;
     max_shifts_per_employee_per_week := 10;
     min_shifts_per_employee_per_week := 5;
     date_str := today |}.

(** [self.dates = [start_date + timedelta(days=i) for i in range(self.num_days)]],
    already rendered. *)
Definition dates (self : ShiftScheduler) : list string :=
  map (date_str self) (seq 0 (num_days self)).

(** [ShiftScheduler._employee_has_required_skills] *)
Definition _employee_has_required_skills (employee : Employee) (location : Location) : bool :=
  let employee_skills : gset string := list_to_set (default [] (emp_skills employee)) in
  let required_skills : gset string := list_to_set (default [] (loc_required_skills location)) in
  bool_decide (employee_skills ∩ required_skills ≠ ∅).

(** ** The CP-SAT model *)

Definition cell : Type := nat * nat * nat * nat.

Definition cell_e (c : cell) : nat := let '(e, _, _, _) := c in e.
Definition cell_d (c : cell) : nat := let '(_, d, _, _) := c in d.
Definition cell_l (c : cell) : nat := let '(_, _, l, _) := c in l.
Definition cell_s (c : cell) : nat := let '(_, _, _, s) := c in s.

(** A Boolean decision variable is identified by its cell (its name is
    [employee_{e}_day_{d}_location_{l}_shift_{s}]); the only integer variable is
    [min_shifts]. *)
Inductive var :=
| BoolVar (c : cell)
| IntVar (name : string).

Inductive constraint :=
| SumGe (terms : list var) (rhs : Z)          (* model.Add(sum(terms) >= rhs) *)
| SumLe (terms : list var) (rhs : Z)          (* model.Add(sum(terms) <= rhs) *)
| MinEquality (target : var) (exprs : list (list var)).

Record CpModel := {
  bool_vars : list var;
  int_vars : list (var * Z * Z);
  constraints : list constraint;
  maximize : option var
}.

Definition valuation : Type := var -> Z.

Inductive CpSolverStatus := UNKNOWN | MODEL_INVALID | FEASIBLE | INFEASIBLE | OPTIMAL.

(** The solver as an oracle.  [Solve] is [solver.Solve(model)] together with
    [solver.Value]; [status_str] is the rendering [f"{status}"] of a status,
    which the OR-Tools release decides (an integer code in some releases, the
    name of the enumeration member in others). *)
Record CpSolver := {
  Solve :> CpModel -> CpSolverStatus * valuation;
  status_str : CpSolverStatus -> string
}.

Definition sum_vars (v : valuation) (terms : list var) : Z :=
  foldr Z.add 0 (map v terms).

Definition list_min (l : list Z) : Z :=
  match l with
  | [] => 0
  | x :: xs => foldr Z.min x xs
  end.

Definition list_max (l : list Z) : Z :=
  match l with
  | [] => 0
  | x :: xs => foldr Z.max x xs
  end.

Definition holdsb (v : valuation) (c : constraint) : bool :=
  match c with
  | SumGe terms rhs => rhs <=? sum_vars v terms
  | SumLe terms rhs => sum_vars v terms <=? rhs
  | MinEquality target exprs => v target =? list_min (map (sum_vars v) exprs)
  end.

(** [model.Add(sum(...) <= bound)] and [model.Add(sum(...) >= bound)] take the
    bound as a 64-bit integer: for a bound outside that range the call raises
    and the run ends before the solver is reached. *)
Definition int64 (n : Z) : bool := (- 2 ^ 63 <=? n) && (n <? 2 ^ 63).

Definition addable (c : constraint) : bool :=
  match c with
  | SumGe _ rhs => int64 rhs
  | SumLe _ rhs => int64 rhs
  | MinEquality _ _ => true
  end.

(** Every [model.Add] of the construction went through. *)
Definition accepted (m : CpModel) : bool := forallb addable (constraints m).

(** A valuation is feasible for a model when every variable lies in its domain
    and every constraint holds. *)
Definition feasible (v : valuation) (m : CpModel) : bool :=
  forallb (fun x => (0 <=? v x) && (v x <=? 1)) (bool_vars m)
  && forallb (fun '(x, lo, hi) => (lo <=? v x) && (v x <=? hi)) (int_vars m)
  && forallb (holdsb v) (constraints m).

(** ** Model construction ([ShiftScheduler.generate_schedule], lines 56-159) *)

Section Build.
Variable self : ShiftScheduler.

(** The loop nest [for e .. for d .. for l .. for s ..] in row-major order. *)
Definition all_cells : list cell :=
  e ← seq 0 (num_employees self);
  d ← seq 0 (num_days self);
  l ← seq 0 (num_locations self);
  s ← seq 0 (num_shifts_per_day self);
  [(e, d, l, s)].

(** [self._employee_has_required_skills(self.employees[e], self.locations[l])];
    the indices are in range inside the loops. *)
Definition compatible (e l : nat) : bool :=
  match employees self !! e, locations self !! l with
  | Some employee, Some location => _employee_has_required_skills employee location
  | _, _ => false
  end.

(** The dictionary [shifts] of decision variables. *)
Definition decision_variables : gmap cell var :=
  list_to_map
    (map (fun c => (c, BoolVar c))
         (filter (fun '(e, _, l, _) => compatible e l = true) all_cells)).

Variable shifts_ : gmap cell var.

Definition in_shifts (c : cell) : bool := bool_decide (is_Some (shifts_ !! c)).

(** CONSTRAINT 1 and 2: [employees_for_shift] *)
Definition employees_for_shift (d l s : nat) : list var :=
  omap (fun e => shifts_ !! (e, d, l, s)) (seq 0 (num_employees self)).

Definition constraint1 : list constraint :=
  d ← seq 0 (num_days self);
  l ← seq 0 (num_locations self);
  s ← seq 0 (num_shifts_per_day self);
  match employees_for_shift d l s with
  | [] => []
  | efs => [SumGe efs (min_employees_per_shift self)]
  end.

Definition constraint2 : list constraint :=
  d ← seq 0 (num_days self);
  l ← seq 0 (num_locations self);
  s ← seq 0 (num_shifts_per_day self);
  match locations self !! l with
  | Some location =>
      let capacity := default 20 (loc_capacity location) in
      match employees_for_shift d l s with
      | [] => []
      | efs => [SumLe efs capacity]
      end
  | None => []
  end.

(** CONSTRAINT 3: [shifts_for_time] *)
Definition shifts_for_time (e d s : nat) : list var :=
  omap (fun l => shifts_ !! (e, d, l, s)) (seq 0 (num_locations self)).

Definition constraint3 : list constraint :=
  e ← seq 0 (num_employees self);
  d ← seq 0 (num_days self);
  s ← seq 0 (num_shifts_per_day self);
  match shifts_for_time e d s with
  | [] => []
  | sft => [SumLe sft 1]
  end.

(** CONSTRAINT 4: the two guarded blocks for the shift pairs (0,1) and (1,2). *)
Definition consecutive_pair (e d s1 s2 : nat) : list constraint :=
  if in_shifts (e, d, 0%nat, s1) && in_shifts (e, d, 0%nat, s2) then
    l1 ← seq 0 (num_locations self);
    l2 ← seq 0 (num_locations self);
    match shifts_ !! (e, d, l1, s1), shifts_ !! (e, d, l2, s2) with
    | Some x1, Some x2 => [SumLe [x1; x2] 1]
    | _, _ => []
    end
  else [].

Definition constraint4 : list constraint :=
  e ← seq 0 (num_employees self);
  d ← seq 0 (num_days self);
  consecutive_pair e d 0 1 ++ consecutive_pair e d 1 2.

(** CONSTRAINT 5: [week_days = range(week * 7, min((week + 1) * 7, num_days))] *)
Definition week_days (week : nat) : list nat :=
  seq (week * 7) (Nat.min ((week + 1) * 7) (num_days self) - week * 7).

Definition total_shifts (e week : nat) : list var :=
  d ← week_days week;
  l ← seq 0 (num_locations self);
  s ← seq 0 (num_shifts_per_day self);
  from_option (fun x => [x]) [] (shifts_ !! (e, d, l, s)).

Definition constraint5 : list constraint :=
  e ← seq 0 (num_employees self);
  week ← seq 0 2;
  match total_shifts e week with
  | [] => []
  | ts => [SumGe ts (min_shifts_per_employee_per_week self);
           SumLe ts (max_shifts_per_employee_per_week self)]
  end.

(** CONSTRAINT 6 / objective: [employee_total_shifts] *)
Definition employee_total (e : nat) : list var :=
  d ← seq 0 (num_days self);
  l ← seq 0 (num_locations self);
  s ← seq 0 (num_shifts_per_day self);
  from_option (fun x => [x]) [] (shifts_ !! (e, d, l, s)).

Definition employee_total_shifts : list (list var) :=
  e ← seq 0 (num_employees self);
  match employee_total e with
  | [] => []
  | total => [total]
  end.

Definition min_shifts : var := IntVar "min_shifts"%string.

Definition build_model_from : CpModel :=
  let hard := constraint1 ++ constraint2 ++ constraint3 ++ constraint4 ++ constraint5 in
  let created := map (fun c => BoolVar c)
                     (filter (fun '(e, _, l, _) => compatible e l = true) all_cells) in
  match employee_total_shifts with
  | [] =>
      {| bool_vars := created; int_vars := []; constraints := hard; maximize := None |}
  | ets =>
      {| bool_vars := created;
         int_vars := [(min_shifts, 0,
                       Z.of_nat (num_days self * num_shifts_per_day self * num_locations self))];
         constraints := hard ++ [MinEquality min_shifts ets];
         maximize := Some min_shifts |}
  end.
End Build.

Definition build_model (self : ShiftScheduler) : CpModel :=
  build_model_from self (decision_variables self).

(** ** Schedule extraction ([ShiftScheduler._extract_schedule]) *)

Record Assignment := {
  employee_id : Id;
  employee_name : string;
  date : string;
  location_id : Id;
  location_name : string;
  shift_id : Id;
  shift_name : string;
  start_time : string;
  end_time : string
}.

(** The record appended for one cell; [None] stands for an [IndexError] of one
    of the four list accesses. *)
Definition cell_record (self : ShiftScheduler) (c : cell) : option Assignment :=
  let '(e, d, l, s) := c in
  employee ← employees self !! e;
  day ← dates self !! d;
  location ← locations self !! l;
  shift ← shifts self !! s;
  Some {| employee_id := emp_id employee;
          employee_name := emp_name employee;
          date := day;
          location_id := loc_id location;
          location_name := loc_name location;
          shift_id := sh_id shift;
          shift_name := sh_name shift;
          start_time := sh_start_time shift;
          end_time := sh_end_time shift |}.

(** The guard of the innermost loop:
    [(e, d, l, s) in shifts and solver.Value(shifts[(e, d, l, s)]) == 1]. *)
Definition selected (shifts_ : gmap cell var) (value : valuation) (c : cell) : bool :=
  match shifts_ !! c with
  | Some x => value x =? 1
  | None => false
  end.

(** The cells for which the loop nest appends a record, in loop order. *)
Definition assigned_cells (self : ShiftScheduler) (shifts_ : gmap cell var)
    (value : valuation) : list cell :=
  filter (fun c => selected shifts_ value c = true) (all_cells self).

Definition _extract_schedule (self : ShiftScheduler) (shifts_ : gmap cell var)
    (value : valuation) : option (list Assignment) :=
  mapM (cell_record self) (assigned_cells self shifts_ value).

(** ** Insertion-ordered dictionaries *)

Section Dict.
Context {K V : Type} `{EqDecision K}.

Fixpoint dict_get (d : list (K * V)) (k : K) : option V :=
  match d with
  | [] => None
  | (k', v) :: rest => if decide (k' = k) then Some v else dict_get rest k
  end.

(** [d[k] = v]: overwrite in place, or append a new key at the end. *)
Fixpoint dict_set (d : list (K * V)) (k : K) (v : V) : list (K * V) :=
  match d with
  | [] => [(k, v)]
  | (k', v') :: rest =>
      if decide (k' = k) then (k, v) :: rest else (k', v') :: dict_set rest k v
  end.

Definition dict_keys (d : list (K * V)) : list K := map fst d.
Definition dict_values (d : list (K * V)) : list V := map snd d.
End Dict.

(** [{f(k): v for k, v in d.items()}] *)
Definition dict_rekey {K K' V : Type} `{EqDecision K'} (f : K -> K')
    (d : list (K * V)) : list (K' * V) :=
  fold_left (fun acc kv => dict_set acc (f (fst kv)) (snd kv)) d [].

(** [str(x)] for an identifier: the decimal rendering of an integer, a string
    as it is.  Different identifiers can render alike ([str(1) == str('1')]). *)
Definition str (x : Id) : string :=
  match x with
  | IdInt n => NilZero.string_of_int (Z.to_int n)
  | IdStr s => s
  end.

(** ** Real-number reading of the float operations *)

Definition sumZ (l : list Z) : Z := foldr Z.add 0 l.
Definition sumR (l : list R) : R := foldr Rplus 0%R l.

Definition log2 (x : R) : R := (ln x / ln 2)%R.

(** Floor and Python's [round]: nearest, ties to even. *)
Definition round_half_even (x : R) : Z :=
  let f := Int_part x in
  let r := (x - IZR f)%R in
  if Rlt_dec r (1 / 2) then f
  else if Rlt_dec (1 / 2) r then f + 1
  else if Z.even f then f else f + 1.

Definition round (x : R) (ndigits : nat) : R :=
  (IZR (round_half_even (x * 10 ^ ndigits)) / 10 ^ ndigits)%R.

(** ** Statistics ([ShiftScheduler._calculate_statistics]) *)

(** The counting loops: [d[k] = d.get(k, 0) + 1] for each assignment. *)
Definition count_by {K : Type} `{EqDecision K} (key : Assignment -> K)
    (schedule : list Assignment) : list (K * Z) :=
  fold_left (fun acc a => dict_set acc (key a) (default 0 (dict_get acc (key a)) + 1))
            schedule [].

Definition employee_shifts := count_by employee_id.
Definition location_shifts := count_by location_id.
Definition day_shifts := count_by date.
Definition shift_type_counts := count_by shift_id.

Definition employee_locations (schedule : list Assignment) : list (Id * gset Id) :=
  fold_left (fun acc a =>
               let seen := default ∅ (dict_get acc (employee_id a)) in
               dict_set acc (employee_id a) (seen ∪ {[ location_id a ]}))
            schedule [].

Definition employee_shift_types (schedule : list Assignment) : list (Id * list (Id * Z)) :=
  fold_left (fun acc a =>
               let dist := default [] (dict_get acc (employee_id a)) in
               dict_set acc (employee_id a)
                 (dict_set dist (shift_id a) (default 0 (dict_get dist (shift_id a)) + 1)))
            schedule [].

Section LoadBalance.
Variable shift_values : list Z.

Definition avg_of : R := (IZR (sumZ shift_values) / INR (length shift_values))%R.
Definition variance_of : R :=
  (sumR (map (fun x => (IZR x - avg_of) ^ 2) shift_values) / INR (length shift_values))%R.
Definition std_dev_of : R := sqrt variance_of.
Definition coefficient_of_variation_of : R :=
  if Rlt_dec 0 avg_of then (std_dev_of / avg_of)%R else 0%R.
Definition load_balance_of : R :=
  Rmax 0 (Rmin 100 (100 * (1 - coefficient_of_variation_of))).
End LoadBalance.

Definition avg_shifts (schedule : list Assignment) : R :=
  match dict_values (employee_shifts schedule) with
  | [] => 0%R
  | shift_values => avg_of shift_values
  end.

Definition variance (schedule : list Assignment) : R :=
  match dict_values (employee_shifts schedule) with
  | [] => 0%R
  | shift_values => variance_of shift_values
  end.

Definition coefficient_of_variation (schedule : list Assignment) : R :=
  match dict_values (employee_shifts schedule) with
  | [] => 0%R
  | shift_values => coefficient_of_variation_of shift_values
  end.

Definition load_balance_score (schedule : list Assignment) : R :=
  match dict_values (employee_shifts schedule) with
  | [] => 0%R
  | shift_values => load_balance_of shift_values
  end.

(** Location diversity *)
Definition location_diversity (schedule : list Assignment) : list (Id * Z) :=
  map (fun '(emp, locs) => (emp, Z.of_nat (size locs))) (employee_locations schedule).

Definition employees_multi_location (schedule : list Assignment) : Z :=
  Z.of_nat (length (filter (fun count => 1 < count) (dict_values (location_diversity schedule)))).

Definition location_diversity_rate (schedule : list Assignment) : R :=
  match location_diversity schedule with
  | [] => 0%R
  | ld => (IZR (employees_multi_location schedule) / INR (length ld) * 100)%R
  end.

Definition avg_locations_per_employee (schedule : list Assignment) : R :=
  match location_diversity schedule with
  | [] => 0%R
  | ld => (IZR (sumZ (dict_values ld)) / INR (length ld))%R
  end.

(** Shift-type diversity *)
Definition max_entropy : R := log2 3.

Definition entropy (shift_dist : list (Id * Z)) : R :=
  let total := sumZ (dict_values shift_dist) in
  (- sumR (map (fun count =>
                  if 0 <? count
                  then (IZR count / IZR total * log2 (IZR count / IZR total))%R
                  else 0%R)
               (dict_values shift_dist)))%R.

Definition diversity_score (shift_dist : list (Id * Z)) : R :=
  if Rlt_dec 0 max_entropy then (entropy shift_dist / max_entropy * 100)%R else 0%R.

Definition shift_diversity_scores (schedule : list Assignment) : list R :=
  flat_map (fun '(_, shift_dist) =>
              if 0 <? sumZ (dict_values shift_dist)
              then [diversity_score shift_dist] else [])
           (employee_shift_types schedule).

Definition avg_shift_diversity (schedule : list Assignment) : R :=
  match shift_diversity_scores schedule with
  | [] => 0%R
  | scores => (sumR scores / INR (length scores))%R
  end.

Record Fairness := {
  f_min_shifts : Z;
  f_max_shifts : Z;
  f_variance : R;
  f_score : R
}.

Record LoadBalancing := {
  lb_score : R;
  lb_coefficient_of_variation : R
}.

Record LocationDistribution := {
  ld_multi_location_employees : Z;
  ld_diversity_rate : R;
  ld_avg_per_employee : R
}.

Record OptimizationSummary := {
  fairness : Fairness;
  load_balancing : LoadBalancing;
  location_distribution : LocationDistribution
}.

Record Statistics := {
  total_assignments : Z;
  shifts_per_employee : list (string * Z);
  shifts_per_location : list (string * Z);
  shifts_per_day : list (string * Z);
  shifts_per_type : list (string * Z);
  min_shifts_per_employee : Z;
  max_shifts_per_employee : Z;
  avg_shifts_per_employee : R;
  stat_load_balance_score : R;
  stat_location_diversity : list (string * Z);
  stat_employees_multi_location : Z;
  stat_location_diversity_rate : R;
  stat_avg_locations_per_employee : R;
  stat_avg_shift_diversity : R;
  conflicts_detected : Z;
  optimization_summary : OptimizationSummary
}.

Definition _calculate_statistics (schedule : list Assignment) : Statistics :=
  let counts := dict_values (employee_shifts schedule) in
  {| total_assignments := Z.of_nat (length schedule);
     shifts_per_employee := dict_rekey str (employee_shifts schedule);
     shifts_per_location := dict_rekey str (location_shifts schedule);
     shifts_per_day := dict_rekey (fun day : string => day) (day_shifts schedule);
     shifts_per_type := dict_rekey str (shift_type_counts schedule);
     min_shifts_per_employee := list_min counts;
     max_shifts_per_employee := list_max counts;
     avg_shifts_per_employee := avg_shifts schedule;
     stat_load_balance_score := round (load_balance_score schedule) 2;
     stat_location_diversity := dict_rekey str (location_diversity schedule);
     stat_employees_multi_location := employees_multi_location schedule;
     stat_location_diversity_rate := round (location_diversity_rate schedule) 2;
     stat_avg_locations_per_employee := round (avg_locations_per_employee schedule) 2;
     stat_avg_shift_diversity := round (avg_shift_diversity schedule) 2;
     conflicts_detected := 0;
     optimization_summary :=
       {| fairness :=
            {| f_min_shifts := list_min counts;
               f_max_shifts := list_max counts;
               f_variance := round (variance schedule) 2;
               f_score := round (load_balance_score schedule) 2 |};
          load_balancing :=
            {| lb_score := round (load_balance_score schedule) 2;
               lb_coefficient_of_variation := round (coefficient_of_variation schedule) 4 |};
          location_distribution :=
            {| ld_multi_location_employees := employees_multi_location schedule;
               ld_diversity_rate := round (location_diversity_rate schedule) 2;
               ld_avg_per_employee := round (avg_locations_per_employee schedule) 2 |} |} |}.

(** ** The driver ([ShiftScheduler.generate_schedule], lines 161-184) *)

Record Result := {
  status : string;
  solver_status : string;
  generated_at : string;
  res_dates : list string;
  res_employees : list Employee;
  res_locations : list Location;
  res_shifts : list Shift;
  schedule : list Assignment;
  statistics : Statistics
}.

(** Python exceptions.  [RejectedBound] is the exception that [model.Add]
    raises for a bound outside int64 ([TypeError] in the releases whose
    expressions are native objects, [OverflowError] in those with the Python
    expression layer). *)
Inductive PyException :=
| Exception (message : string)
| IndexError
| RejectedBound.

Definition generate_schedule (self : ShiftScheduler) (solver : CpSolver) (now : string)
    : PyException + Result :=
  let shifts_ := decision_variables self in
  let model := build_model_from self shifts_ in
  if negb (accepted model) then inl RejectedBound
  else
  let '(st, value) := solver model in
  match st with
  | OPTIMAL | FEASIBLE =>
      match _extract_schedule self shifts_ value with
      | Some sched =>
          inr {| status := match st with OPTIMAL => "SUCCESS" | _ => "FEASIBLE" end;
                 solver_status := match st with OPTIMAL => "OPTIMAL" | _ => "FEASIBLE" end;
                 generated_at := now;
                 res_dates := dates self;
                 res_employees := employees self;
                 res_locations := locations self;
                 res_shifts := shifts self;
                 schedule := sched;
                 statistics := _calculate_statistics sched |}
      | None => inl IndexError
      end
  | _ => inl (Exception ("Solver failed with status: " +:+ status_str solver st))
  end.

(** ** Merging the advisor's suggestions ([main.py] lines 59-64,
    [api_server.py] lines 80-83) *)

(** The advisor's answer; only its [suggested_constraints] entry is read by the
    merge.  The merge tests the entry for truthiness first; an empty bundle is
    falsy and has no key, so both readings agree. *)
Record PreAnalysis := {
  suggested_constraints : option (gmap string Z)
}.

Definition apply_suggested_constraints (scheduler : ShiftScheduler)
    (ai_pre_analysis : option PreAnalysis) : ShiftScheduler :=
  match ai_pre_analysis with
  | Some analysis =>
      match suggested_constraints analysis with
      | Some constraints_ =>
          match constraints_ !! "min_employees_per_shift"%string with
          | Some n =>
              {| employees := employees scheduler;
                 locations := locations scheduler;
                 shifts := shifts scheduler;
                 num_days := num_days scheduler;
                 min_employees_per_shift := n;
                 max_shifts_per_employee_per_week := max_shifts_per_employee_per_week scheduler;
                 min_shifts_per_employee_per_week := min_shifts_per_employee_per_week scheduler;
                 date_str := date_str scheduler |}
          | None => scheduler
          end
      | None => scheduler
      end
  | None => scheduler
  end.

(** [main.py]: the analysis comes from the advisor. *)
Definition main_scheduler (emps : list Employee) (locs : list Location) (shs : list Shift)
    (today : nat -> string) (ai_pre_analysis : option PreAnalysis) : ShiftScheduler :=
  apply_suggested_constraints (init emps locs shs today) ai_pre_analysis.

(** [api_server.py]: [ai_pre_analysis = None] before the same merge. *)
Definition api_scheduler (emps : list Employee) (locs : list Location) (shs : list Shift)
    (today : nat -> string) : ShiftScheduler :=
  apply_suggested_constraints (init emps locs shs today) None.

(** ** The analyser's fairness score ([AIAnalyzer._calculate_fairness_score],
    [ai_analyzer.py] lines 461-494) *)

(** The argument is [stats.get('shifts_per_employee')]; [None] stands for a
    missing key, which the code replaces by the empty dictionary.  The values
    are integers, so [int(v)] leaves them as they are. *)
Definition _calculate_fairness_score (entry : option (list (string * Z))) : R :=
  let shifts_per_employee_ := default [] entry in
  match dict_values shifts_per_employee_ with
  | [] => 0%R
  | values =>
      let min_val := list_min values in
      let max_val := list_max values in
      let avg_val := (IZR (sumZ values) / INR (length values))%R in
      if Req_dec_T avg_val 0 then 0%R
      else
        let variance_ :=
          (sumR (map (fun x => (IZR x - avg_val) ^ 2) values) / INR (length values))%R in
        let std_dev := sqrt variance_ in
        let coefficient_of_variation_ :=
          if Rlt_dec 0 avg_val then (std_dev / avg_val)%R else 1%R in
        let fairness_score_ :=
          Rmax 0 (Rmin 100 (100 * (1 - coefficient_of_variation_))) in
        let fairness_score_ :=
          if 0 <? max_val
          then
            let range_ratio := (IZR (max_val - min_val) / IZR max_val)%R in
            let range_bonus := ((1 - range_ratio) * 10)%R in
            Rmin 100 (fairness_score_ + range_bonus)
          else fairness_score_ in
        round fairness_score_ 2
  end.

(** ** Post-analysis and optimisation step ([AIAnalyzer.analyze_schedule] lines
    272-289, [main.py] lines 71-106, [api_server.py] lines 88-124) *)

(** The entries of the analysis that the two entry points read. *)
Record AIAnalysis := {
  fairness_score : R;
  fairness_analysis : string;
  insights : string;
  ai_optimization_suggestions : string
}.

(** The end of [analyze_schedule]: [results] is the dictionary that the loop
    over the prompts has filled with the model's answers or with formatted
    error messages. *)
Definition analyze_schedule (results : list (string * string)) (schedule_data : Result)
    : AIAnalysis :=
  let stats := statistics schedule_data in
  let insights_text := default ""%string (dict_get results "insights"%string) in
  {| fairness_score := _calculate_fairness_score (Some (shifts_per_employee stats));
     fairness_analysis := default ""%string (dict_get results "fairness_analysis"%string);
     insights :=
       if decide (insights_text = ""%string)
       then "AI insights generation skipped for faster schedule generation."%string
       else insights_text;
     ai_optimization_suggestions :=
       "AI optimization suggestions available in insights above. For detailed analysis, enable full AI analysis in settings."%string |}.

Record OptimizationSuggestions := {
  current_fairness : R;
  target_fairness : Z;
  suggestions : string;
  recommended_actions : option string
}.

(** Step 3 of both entry points:
    [if ai_analysis and ai_analysis.get('fairness_score', 100) < 85].
    [None] stands for an analysis that was skipped. *)
Definition optimization_step (recommended : option string)
    (ai_analysis : option AIAnalysis) : option OptimizationSuggestions :=
  match ai_analysis with
  | Some analysis =>
      if Rlt_dec (fairness_score analysis) 85
      then Some {| current_fairness := fairness_score analysis;
                   target_fairness := 85;
                   suggestions := ai_optimization_suggestions analysis;
                   recommended_actions := recommended |}
      else None
  | None => None
  end.

(** [main.py]: the analysis is used as returned. *)
Definition main_optimization_suggestions (ai_analysis : option AIAnalysis)
    : option OptimizationSuggestions :=
  optimization_step
    (Some "Review optimization suggestions and consider regenerating schedule with adjusted parameters"%string)
    ai_analysis.

(** [s.startswith('⚠')] on the UTF-8 rendering of the text (U+26A0). *)
Definition starts_with_warning (s : string) : bool :=
  String.prefix (String (Ascii.ascii_of_nat 226)
                   (String (Ascii.ascii_of_nat 154)
                      (String (Ascii.ascii_of_nat 160) EmptyString))) s.

(** [api_server.py]: an analysis whose two texts are both warnings is
    dropped before step 3. *)
Definition api_ai_analysis (ai_analysis : option AIAnalysis) : option AIAnalysis :=
  match ai_analysis with
  | Some analysis =>
      if starts_with_warning (fairness_analysis analysis)
         && starts_with_warning (insights analysis)
      then None else Some analysis
  | None => None
  end.

Definition api_optimization_suggestions (ai_analysis : option AIAnalysis)
    : option OptimizationSuggestions :=
  optimization_step None (api_ai_analysis ai_analysis).

(** ** Vocabulary of the properties *)

(** The support: the cells that carry a decision variable. *)
Definition support (self : ShiftScheduler) (c : cell) : Prop :=
  c ∈ all_cells self ∧ compatible self (cell_e c) (cell_l c) = true.

(** Lexicographic order on [(e, d, l, s)]. *)
Definition cell_lt (c1 c2 : cell) : Prop :=
  let '(e1, d1, l1, s1) := c1 in
  let '(e2, d2, l2, s2) := c2 in
  (e1 < e2 ∨ (e1 = e2 ∧ (d1 < d2 ∨ (d1 = d2 ∧ (l1 < l2 ∨ (l1 = l2 ∧ s1 < s2))))))%nat.

(** The constraints posted by CONSTRAINT 1 to CONSTRAINT 5, in that order. *)
Definition hard_constraints (self : ShiftScheduler) : list constraint :=
  let shifts_ := decision_variables self in
  constraint1 self shifts_ ++ constraint2 self shifts_ ++ constraint3 self shifts_ ++
  constraint4 self shifts_ ++ constraint5 self shifts_.

(** The variable, if any, that a comprehension picks up at a cell. *)
Definition var_at (shifts_ : gmap cell var) (c : cell) : list var :=
  from_option (fun x => [x]) [] (shifts_ !! c).

(** The cells of employee [e] that the loops of CONSTRAINT 5 visit for a week. *)
Definition week_cells (self : ShiftScheduler) (e week : nat) : list cell :=
  d ← week_days self week;
  l ← seq 0 (num_locations self);
  s ← seq 0 (num_shifts_per_day self);
  [(e, d, l, s)].

(** Number of emitted cells of employee [e] on the days [7w .. 7w+6]. *)
Definition weekly_total (cells : list cell) (e w : nat) : nat :=
  length (filter (fun c => cell_e c = e ∧ (7 * w ≤ cell_d c < 7 * w + 7)%nat) cells).

(** The construction of the model went through and the solver, given the
    model, answered [st] with the valuation [value]. *)
Definition answers (self : ShiftScheduler) (solver : CpSolver) (st : CpSolverStatus)
    (value : valuation) : Prop :=
  accepted (build_model self) = true ∧ solver (build_model self) = (st, value).

(** The run reached the solver, which answered OPTIMAL or FEASIBLE with a
    valuation that satisfies the model it was given (the contract of CP-SAT
    for these two verdicts). *)
Definition solved (self : ShiftScheduler) (solver : CpSolver) (value : valuation) : Prop :=
  ∃ st, answers self solver st value ∧
        (st = OPTIMAL ∨ st = FEASIBLE) ∧
        feasible value (build_model self) = true.

(** The schedule lists the records of the given cells, in the same order. *)
Definition records_of (self : ShiftScheduler) (cells : list cell)
    (sched : list Assignment) : Prop :=
  Forall2 (fun c a => cell_record self c = Some a) cells sched.


(** The key of the bundle that the merge reads. *)
Definition suggested_min_employees (ai_pre_analysis : option PreAnalysis) : option Z :=
  analysis ← ai_pre_analysis;
  constraints_ ← suggested_constraints analysis;
  constraints_ !! "min_employees_per_shift"%string.

(** Number of assignments whose key is [k]. *)
Definition occurrences {K : Type} `{EqDecision K} (key : Assignment -> K)
    (schedule : list Assignment) (k : K) : Z :=
  Z.of_nat (length (filter (fun a => key a = k) schedule)).

(** [cnt_e]: the number of assignments of the employee with identifier [id]. *)
Definition cnt (schedule : list Assignment) (id : Id) : Z :=
  occurrences employee_id schedule id.

(** The identifiers of the employees that occur in the schedule. *)
Definition present (schedule : list Assignment) : list Id :=
  remove_dups (map employee_id schedule).

(** The assignments of one employee, the shift types among them, and how
    often each occurs. *)
Definition assignments_of (schedule : list Assignment) (id : Id) : list Assignment :=
  filter (fun a => employee_id a = id) schedule.

Definition shift_types (schedule : list Assignment) (id : Id) : list Id :=
  remove_dups (map shift_id (assignments_of schedule id)).

Definition shift_cnt (schedule : list Assignment) (id sid : Id) : Z :=
  occurrences shift_id (assignments_of schedule id) sid.

(** The entropy computed from the values of a shift-type histogram. *)
Definition entropy_counts (counts : list Z) : R :=
  let total := sumZ counts in
  (- sumR (map (fun count =>
                  if 0 <? count
                  then (IZR count / IZR total * log2 (IZR count / IZR total))%R
                  else 0%R)
               counts))%R.

(** Total, number of classes and empirical probability of a class, for a
    histogram given by its counts. *)
Definition hist_total (counts : list Z) : R := IZR (sumZ counts).
Definition hist_size (counts : list Z) : R := INR (length counts).
Definition hist_share (counts : list Z) (count : Z) : R :=
  (IZR count / hist_total counts)%R.

(** Shannon entropy, in bits, of the employee's shift-type distribution
    [p_s = shift_cnt / cnt]. *)
Definition shannon (schedule : list Assignment) (id : Id) : R :=
  (- sumR (map (fun sid =>
                  let p := (IZR (shift_cnt schedule id sid) / IZR (cnt schedule id))%R in
                  (p * log2 p)%R)
               (shift_types schedule id)))%R.

(** The employee works exactly [k] shift types, equally often. *)
Definition uniform_over (schedule : list Assignment) (id : Id) (k : nat) : Prop :=
  length (shift_types schedule id) = k ∧
  ∀ sid, sid ∈ shift_types schedule id →
         shift_cnt schedule id sid * Z.of_nat k = cnt schedule id.

(** Number of emitted cells at the (day, location, shift) cell [(d, l, s)]. *)
Definition staff_count (cells : list cell) (d l s : nat) : nat :=
  length (filter (fun c => cell_d c = d ∧ cell_l c = l ∧ cell_s c = s) cells).

(** Number of emitted cells of employee [e] over the whole horizon. *)
Definition employee_load (cells : list cell) (e : nat) : nat :=
  length (filter (fun c => cell_e c = e) cells).

(** The cells of employee [e] that the loops of the objective visit. *)
Definition employee_cells (self : ShiftScheduler) (e : nat) : list cell :=
  d ← seq 0 (num_days self);
  l ← seq 0 (num_locations self);
  s ← seq 0 (num_shifts_per_day self);
  [(e, d, l, s)].

(** No two different identifiers of the list render to the same string. *)
Definition renders_apart (ids : list Id) : Prop :=
  ∀ x y, x ∈ ids → y ∈ ids → str x = str y → x = y.

(** The distinct locations among the assignments of one employee. *)
Definition locations_of (schedule : list Assignment) (id : Id) : list Id :=
  remove_dups (map location_id (assignments_of schedule id)).

(** Number of emitted cells at location [l] over the whole horizon. *)
Definition location_load (cells : list cell) (l : nat) : nat :=
  length (filter (fun c => cell_l c = l) cells).

(** The (day, shift) slots of the horizon. *)
Definition slots (self : ShiftScheduler) : list (nat * nat) :=
  d ← seq 0 (num_days self);
  s ← seq 0 (num_shifts_per_day self);
  [(d, s)].

(** The employees that share a skill with location [l], by index. *)
Definition qualified (self : ShiftScheduler) (l : nat) : list nat :=
  filter (fun e => compatible self e l = true) (seq 0 (num_employees self)).

(** The solver answers OPTIMAL or FEASIBLE only with a valuation that
    satisfies the model (the contract of CP-SAT). *)
Definition sound (self : ShiftScheduler) (solver : CpSolver) : Prop :=
  ∀ st value, solver (build_model self) = (st, value) →
              st = OPTIMAL ∨ st = FEASIBLE →
              feasible value (build_model self) = true.

(** ** Concrete instances *)

(** A rendering of a status by the name of the enumeration member. *)
Definition status_name (st : CpSolverStatus) : string :=
  match st with
  | UNKNOWN => "UNKNOWN"
  | MODEL_INVALID => "MODEL_INVALID"
  | FEASIBLE => "FEASIBLE"
  | INFEASIBLE => "INFEASIBLE"
  | OPTIMAL => "OPTIMAL"
  end%string.

(** Two-digit rendering of a day of the month. *)
Definition pad2 (n : nat) : string :=
  if (n <? 10)%nat then ("0" +:+ str (Z.of_nat n))%string else str (Z.of_nat n).

(** A fortnight starting on 2026-11-04. *)
Definition today_iso (i : nat) : string := ("2026-11-" +:+ pad2 (4 + i))%string.

(** An employee with a skill list; a location with a required-skill list and
    no [capacity] key (so the default 20 applies). *)
Definition employee_ (id : Id) (name : string) (skills : list string) : Employee :=
  {| emp_id := id; emp_name := name; emp_skills := Some skills |}.

Definition location_ (id : Id) (name : string) (required : list string) : Location :=
  {| loc_id := id; loc_name := name; loc_required_skills := Some required;
     loc_capacity := None |}.

(** Two shifts of a daily template. *)
Definition morning : Shift :=
  {| sh_id := 1; sh_name := "Morning"; sh_start_time := "06:00"; sh_end_time := "14:00" |}%string.
Definition afternoon : Shift :=
  {| sh_id := 2; sh_name := "Afternoon"; sh_start_time := "14:00"; sh_end_time := "22:00" |}%string.

(** One store, one shift, two sales employees and one employee without skills. *)
Definition kiosk : ShiftScheduler :=
  init [employee_ 1 "An" ["sales"]; employee_ 2 "Binh" ["sales"]; employee_ 3 "Chi" []]%string
       [location_ 1 "Kiosk" ["sales"]]%string
       [morning]
       today_iso.

(** Both sales employees work every day. *)
Definition kiosk_value : valuation := fun x =>
  match x with
  | BoolVar (e, _, _, _) => if (e <? 2)%nat then 1 else 0
  | IntVar _ => 14
  end.

(** A solver run that ends with this valuation and the verdict OPTIMAL. *)
Definition kiosk_solver : CpSolver :=
  {| Solve := fun _ => (OPTIMAL, kiosk_value); status_str := status_name |}.

(** Two sites and two shifts: four cashiers for the shop (listed first), three
    stock keepers for the warehouse. *)
Definition two_sites : ShiftScheduler :=
  init [employee_ 1 "An" ["cashier"]; employee_ 2 "Binh" ["cashier"];
        employee_ 3 "Chi" ["cashier"]; employee_ 4 "Dung" ["cashier"];
        employee_ 5 "Giang" ["stock"]; employee_ 6 "Hanh" ["stock"];
        employee_ 7 "Khoa" ["stock"]]%string
       [location_ 1 "Shop" ["cashier"]; location_ 2 "Warehouse" ["stock"]]%string
       [morning; afternoon]
       today_iso.

(** Cashiers 0-1 take every morning and cashiers 2-3 every afternoon at the
    shop; at the warehouse each stock keeper works both shifts of a day, on
    days 0-4, 2-6 and 0,1,5,6 of each week respectively. *)
Definition two_sites_value : valuation := fun x =>
  match x with
  | BoolVar (e, d, l, s) =>
      let wd := (d mod 7)%nat in
      let on :=
        match e with
        | 0%nat | 1%nat => (l =? 0)%nat && (s =? 0)%nat
        | 2%nat | 3%nat => (l =? 0)%nat && (s =? 1)%nat
        | 4%nat => (l =? 1)%nat && (wd <? 5)%nat
        | 5%nat => (l =? 1)%nat && (2 <=? wd)%nat
        | 6%nat => (l =? 1)%nat && ((wd <? 2)%nat || (5 <=? wd)%nat)
        | _ => false
        end in
      if on then 1 else 0
  | IntVar _ => 14
  end.

(** A solver run that ends with this valuation and the verdict FEASIBLE. *)
Definition two_sites_solver : CpSolver :=
  {| Solve := fun _ => (FEASIBLE, two_sites_value); status_str := status_name |}.

(** A single site that lists no required skill. *)
Definition open_site : ShiftScheduler :=
  init [employee_ 1 "An" ["sales"]]%string [location_ 1 "Lobby" []]%string [morning] today_iso.



(** An advisor bundle that only suggests weekly bounds. *)
Definition weekly_override : PreAnalysis :=
  {| suggested_constraints :=
       Some {[ "min_shifts_per_week"%string := 3; "max_shifts_per_week"%string := 7 ]} |}.

(** One employee who works each of four shift types once. *)
Definition four_types : list Assignment :=
  map (fun sid : Z =>
         {| employee_id := 1; employee_name := "An"; date := "2026-11-04";
            location_id := 1; location_name := "Kiosk";
            shift_id := sid; shift_name := "Shift";
            start_time := "00:00"; end_time := "06:00" |}%string)
      [1; 2; 3; 4].

(** Three assignments: one of the employee with the integer identifier 1, two
    of the employee with the string identifier "1". *)
Definition mixed_ids : list Assignment :=
  map (fun id : Id =>
         {| employee_id := id; employee_name := "An"; date := "2026-11-04";
            location_id := 1; location_name := "Kiosk";
            shift_id := 1; shift_name := "Morning";
            start_time := "06:00"; end_time := "14:00" |}%string)
      [IdInt 1; IdStr "1"; IdStr "1"].

(** Two counters of one shop and one shift; each of the four sales employees
    can staff either counter. *)
Definition two_counters : ShiftScheduler :=
  init [employee_ 1 "An" ["sales"]; employee_ 2 "Binh" ["sales"];
        employee_ 3 "Chi" ["sales"]; employee_ 4 "Dung" ["sales"]]%string
       [location_ 1 "Front" ["sales"]; location_ 2 "Back" ["sales"]]%string
       [morning]
       today_iso.

(** The first two employees staff the front counter every day, the other two
    the back counter. *)
Definition two_counters_value : valuation := fun x =>
  match x with
  | BoolVar (e, _, l, _) =>
      if (e <? 2)%nat then (if (l =? 0)%nat then 1 else 0)
      else (if (l =? 1)%nat then 1 else 0)
  | IntVar _ => 14
  end.

Definition two_counters_solver : CpSolver :=
  {| Solve := fun _ => (OPTIMAL, two_counters_value); status_str := status_name |}.

(** One store and one shift with a single sales employee. *)
Definition solo_kiosk : ShiftScheduler :=
  init [employee_ 1 "An" ["sales"]]%string [location_ 1 "Kiosk" ["sales"]]%string
       [morning] today_iso.

(** A solver run that reports the model as infeasible. *)
Definition infeasible_solver : CpSolver :=
  {| Solve := fun _ => (INFEASIBLE, fun _ => 0); status_str := status_name |}.

(** * Properties *)

(** ** The loop nest and the dictionary of decision variables *)

Lemma elem_of_all_cells (self : ShiftScheduler) (e d l s : nat) :
  (e, d, l, s) ∈ all_cells self ↔
  (e < num_employees self ∧ d < num_days self ∧
   l < num_locations self ∧ s < num_shifts_per_day self)%nat.
Proof.
  unfold all_cells. split.
  - intros H.
    apply list_elem_of_bind in H as (e0 & H & He).
    apply list_elem_of_bind in H as (d0 & H & Hd).
    apply list_elem_of_bind in H as (l0 & H & Hl).
    apply list_elem_of_bind in H as (s0 & H & Hs).
    apply list_elem_of_singleton in H. inversion H; subst.
    rewrite !elem_of_seq in *. lia.
  - intros (He & Hd & Hl & Hs).
    apply list_elem_of_bind. exists e. split; [|apply elem_of_seq; lia].
    apply list_elem_of_bind. exists d. split; [|apply elem_of_seq; lia].
    apply list_elem_of_bind. exists l. split; [|apply elem_of_seq; lia].
    apply list_elem_of_bind. exists s. split; [|apply elem_of_seq; lia].
    apply list_elem_of_singleton. reflexivity.
Qed.

Lemma elem_of_created (self : ShiftScheduler) (c : cell) :
  c ∈ filter (fun '(e, _, l, _) => compatible self e l = true) (all_cells self) ↔
  support self c.
Proof.
  rewrite list_elem_of_filter. unfold support.
  destruct c as [[[e d] l] s]. simpl. tauto.
Qed.

Lemma lookup_decision_variables_Some (self : ShiftScheduler) (c : cell) (x : var) :
  decision_variables self !! c = Some x ↔ x = BoolVar c ∧ support self c.
Proof.
  unfold decision_variables. split.
  - intros H. apply elem_of_list_to_map_2 in H.
    apply list_elem_of_fmap in H as (c' & Heq & Hin).
    inversion Heq; subst. split; [reflexivity|]. by apply elem_of_created.
  - intros [-> Hs]. apply elem_of_list_to_map_1'.
    + intros y Hy. apply list_elem_of_fmap in Hy as (c' & Heq & _).
      by inversion Heq.
    + apply list_elem_of_fmap. exists c. split; [reflexivity|].
      by apply elem_of_created.
Qed.

Lemma lookup_decision_variables_None (self : ShiftScheduler) (c : cell) :
  decision_variables self !! c = None ↔ ¬ support self c.
Proof.
  split.
  - intros H Hs.
    assert (decision_variables self !! c = Some (BoolVar c)) as H'
      by (by apply lookup_decision_variables_Some).
    congruence.
  - intros Hn. destruct (decision_variables self !! c) as [x|] eqn:Hx; [|reflexivity].
    apply lookup_decision_variables_Some in Hx as [_ Hs]. contradiction.
Qed.

Lemma selected_spec (self : ShiftScheduler) (value : valuation) (c : cell) :
  selected (decision_variables self) value c = true ↔
  support self c ∧ value (BoolVar c) = 1.
Proof.
  unfold selected.
  destruct (decision_variables self !! c) as [x|] eqn:Hx.
  - apply lookup_decision_variables_Some in Hx as [-> Hs].
    rewrite Z.eqb_eq. tauto.
  - apply lookup_decision_variables_None in Hx. split; [discriminate|tauto].
Qed.

Lemma elem_of_assigned_cells (self : ShiftScheduler) (value : valuation) (c : cell) :
  c ∈ assigned_cells self (decision_variables self) value ↔
  support self c ∧ value (BoolVar c) = 1.
Proof.
  unfold assigned_cells. rewrite list_elem_of_filter, selected_spec.
  unfold support. tauto.
Qed.

(** ** Row-major order of the loop nest *)

Section SortedLoops.
Context {B : Type} (R : relation B).

Lemma StronglySorted_app_intro (l1 l2 : list B) :
  StronglySorted R l1 → StronglySorted R l2 →
  (∀ x y, x ∈ l1 → y ∈ l2 → R x y) →
  StronglySorted R (l1 ++ l2).
Proof.
  induction l1 as [|a l1 IH]; intros H1 H2 H12; simpl; [assumption|].
  apply StronglySorted_inv in H1 as [H1 Ha].
  constructor.
  - apply IH; [assumption..|]. intros x y Hx Hy. apply H12; [by right|assumption].
  - apply Forall_app. split; [assumption|].
    apply Forall_forall. intros y Hy. apply H12; [by left|assumption].
Qed.

Lemma StronglySorted_bind_seq (f : nat → list B) (a n : nat) :
  (∀ i, StronglySorted R (f i)) →
  (∀ i j x y, (i < j)%nat → x ∈ f i → y ∈ f j → R x y) →
  StronglySorted R (seq a n ≫= f).
Proof.
  intros Hf Hij. revert a. induction n as [|n IH]; intros a; simpl.
  - constructor.
  - apply StronglySorted_app_intro; [apply Hf|apply IH|].
    intros x y Hx Hy. apply list_elem_of_bind in Hy as (j & Hy & Hj).
    apply elem_of_seq in Hj. eapply Hij; [|eassumption..]. lia.
Qed.

Lemma StronglySorted_filter_list (P : B → Prop) `{∀ x, Decision (P x)} (l : list B) :
  StronglySorted R l → StronglySorted R (filter P l).
Proof.
  induction 1 as [|a l Hl IH Ha]; [constructor|].
  rewrite filter_cons. destruct (decide (P a)); [|assumption].
  constructor; [assumption|].
  apply Forall_forall. intros y Hy. apply list_elem_of_filter in Hy as [_ Hy].
  eapply Forall_forall in Ha; eassumption.
Qed.

Lemma StronglySorted_NoDup (l : list B) :
  (∀ x, ¬ R x x) → StronglySorted R l → NoDup l.
Proof.
  intros Hirr. induction 1 as [|a l Hl IH Ha]; constructor; [|assumption].
  intros Hin. eapply Forall_forall in Ha; [|eassumption]. by eapply Hirr.
Qed.
End SortedLoops.

Lemma cell_lt_irrefl (c : cell) : ¬ cell_lt c c.
Proof. destruct c as [[[e d] l] s]. simpl. lia. Qed.

Lemma all_cells_sorted (self : ShiftScheduler) : StronglySorted cell_lt (all_cells self).
Proof.
  unfold all_cells.
  apply StronglySorted_bind_seq.
  - intros e. apply StronglySorted_bind_seq.
    + intros d. apply StronglySorted_bind_seq.
      * intros l. apply StronglySorted_bind_seq.
        -- intros s. repeat constructor.
        -- intros s1 s2 x y Hlt Hx Hy.
           apply list_elem_of_singleton in Hx, Hy. subst. simpl. lia.
      * intros l1 l2 x y Hlt Hx Hy.
        apply list_elem_of_bind in Hx as (s1 & Hx & _).
        apply list_elem_of_bind in Hy as (s2 & Hy & _).
        apply list_elem_of_singleton in Hx, Hy. subst. simpl. lia.
    + intros d1 d2 x y Hlt Hx Hy.
      apply list_elem_of_bind in Hx as (l1 & Hx & _).
      apply list_elem_of_bind in Hx as (s1 & Hx & _).
      apply list_elem_of_bind in Hy as (l2 & Hy & _).
      apply list_elem_of_bind in Hy as (s2 & Hy & _).
      apply list_elem_of_singleton in Hx, Hy. subst. simpl. lia.
  - intros e1 e2 x y Hlt Hx Hy.
    apply list_elem_of_bind in Hx as (d1 & Hx & _).
    apply list_elem_of_bind in Hx as (l1 & Hx & _).
    apply list_elem_of_bind in Hx as (s1 & Hx & _).
    apply list_elem_of_bind in Hy as (d2 & Hy & _).
    apply list_elem_of_bind in Hy as (l2 & Hy & _).
    apply list_elem_of_bind in Hy as (s2 & Hy & _).
    apply list_elem_of_singleton in Hx, Hy. subst. simpl. lia.
Qed.

Lemma all_cells_NoDup (self : ShiftScheduler) : NoDup (all_cells self).
Proof.
  eapply StronglySorted_NoDup; [apply cell_lt_irrefl|apply all_cells_sorted].
Qed.

(** No list access of [_extract_schedule] is out of range. *)
Lemma cell_record_is_Some (self : ShiftScheduler) (c : cell) :
  c ∈ all_cells self → is_Some (cell_record self c).
Proof.
  destruct c as [[[e d] l] s]. rewrite elem_of_all_cells.
  unfold num_employees, num_locations, num_shifts_per_day.
  intros (He & Hd & Hl & Hs).
  apply lookup_lt_is_Some_2 in He as [employee He].
  apply lookup_lt_is_Some_2 in Hl as [location Hl].
  apply lookup_lt_is_Some_2 in Hs as [shift Hs].
  assert (is_Some (dates self !! d)) as [day Hday].
  { apply lookup_lt_is_Some_2. unfold dates. rewrite length_map, length_seq. exact Hd. }
  unfold cell_record. rewrite He, Hday, Hl, Hs. simpl. eauto.
Qed.

Lemma extract_schedule_total (self : ShiftScheduler) (shifts_ : gmap cell var)
    (value : valuation) :
  is_Some (_extract_schedule self shifts_ value).
Proof.
  unfold _extract_schedule. apply mapM_is_Some_2, Forall_forall.
  intros c Hc. apply cell_record_is_Some.
  unfold assigned_cells in Hc. by apply list_elem_of_filter in Hc as [_ Hc].
Qed.

(** ** The driver *)

Lemma generate_schedule_rejected (self : ShiftScheduler) (solver : CpSolver)
    (now : string) :
  accepted (build_model self) = false →
  generate_schedule self solver now = inl RejectedBound.
Proof.
  intros Hacc. unfold generate_schedule. fold (build_model self). by rewrite Hacc.
Qed.

Lemma generate_schedule_success (self : ShiftScheduler) (solver : CpSolver)
    (now : string) (st : CpSolverStatus) (value : valuation) :
  answers self solver st value →
  st = OPTIMAL ∨ st = FEASIBLE →
  ∃ res, generate_schedule self solver now = inr res ∧
         _extract_schedule self (decision_variables self) value = Some (schedule res) ∧
         records_of self (assigned_cells self (decision_variables self) value) (schedule res) ∧
         statistics res = _calculate_statistics (schedule res).
Proof.
  intros [Hacc Hsolve] Hst. unfold generate_schedule.
  fold (build_model self). rewrite Hacc, Hsolve. cbn [negb].
  destruct (extract_schedule_total self (decision_variables self) value) as [sched Hs].
  rewrite Hs.
  destruct Hst as [-> | ->]; eexists; (split; [reflexivity|]); simpl;
    (split; [reflexivity|]); (split; [|reflexivity]); by apply mapM_Some_1.
Qed.

Lemma generate_schedule_failure (self : ShiftScheduler) (solver : CpSolver)
    (now : string) (st : CpSolverStatus) (value : valuation) :
  answers self solver st value →
  st ≠ OPTIMAL → st ≠ FEASIBLE →
  generate_schedule self solver now =
    inl (Exception ("Solver failed with status: " +:+ status_str solver st)).
Proof.
  intros [Hacc Hsolve] H1 H2. unfold generate_schedule.
  fold (build_model self). rewrite Hacc, Hsolve. cbn [negb].
  destruct st; congruence.
Qed.

Lemma generate_schedule_inv (self : ShiftScheduler) (solver : CpSolver) (now : string)
    (res : Result) :
  generate_schedule self solver now = inr res →
  ∃ st value, answers self solver st value ∧
              (st = OPTIMAL ∨ st = FEASIBLE) ∧
              records_of self (assigned_cells self (decision_variables self) value)
                         (schedule res) ∧
              statistics res = _calculate_statistics (schedule res).
Proof.
  intros Hres. destruct (accepted (build_model self)) eqn:Hacc.
  2: { rewrite (generate_schedule_rejected self solver now Hacc) in Hres. discriminate. }
  destruct (solver (build_model self)) as [st value] eqn:Hsolve.
  assert (answers self solver st value) as Hans by (by split).
  exists st, value. split; [exact Hans|].
  assert ((st = OPTIMAL ∨ st = FEASIBLE) ∨ (st ≠ OPTIMAL ∧ st ≠ FEASIBLE)) as [Hst|Hst]
    by (destruct st; first [left; tauto | right; split; discriminate]).
  - destruct (generate_schedule_success self solver now st value Hans Hst)
      as (res' & Hres' & _ & Hrec & Hstat).
    rewrite Hres in Hres'. injection Hres' as <-. tauto.
  - rewrite (generate_schedule_failure self solver now st value Hans) in Hres;
      [discriminate|tauto..].
Qed.

Lemma solved_result (self : ShiftScheduler) (solver : CpSolver) (value : valuation)
    (now : string) :
  solved self solver value →
  ∃ res, generate_schedule self solver now = inr res ∧
         records_of self (assigned_cells self (decision_variables self) value) (schedule res).
Proof.
  intros (st & Hsolve & Hst & _).
  destruct (generate_schedule_success self solver now st value Hsolve Hst)
    as (res & Hres & _ & Hrec & _).
  eauto.
Qed.

Lemma kiosk_answers : answers kiosk kiosk_solver OPTIMAL kiosk_value.
Proof. split; [vm_compute; reflexivity|reflexivity]. Qed.

Lemma two_sites_answers : answers two_sites two_sites_solver FEASIBLE two_sites_value.
Proof. split; [vm_compute; reflexivity|reflexivity]. Qed.

Lemma kiosk_solved : solved kiosk kiosk_solver kiosk_value.
Proof.
  exists OPTIMAL. split; [exact kiosk_answers|]. split; [by left|]. vm_compute. reflexivity.
Qed.

Lemma two_sites_solved : solved two_sites two_sites_solver two_sites_value.
Proof.
  exists FEASIBLE. split; [exact two_sites_answers|]. split; [by right|].
  vm_compute. reflexivity.
Qed.

(** ** Consecutive shifts (CONSTRAINT 4) *)

(** C1, evaluated on the code.  For the instance [two_sites] (default
    parameters) the valuation [two_sites_value] satisfies every constraint of
    the model that [generate_schedule] builds, the solver's FEASIBLE verdict
    yields a result, and in that result the stock keeper with identifier 5
    (employee index 4, not compatible with the first-listed location) holds
    the morning and the afternoon shift of the first day at the warehouse:
    shift indices 0 and 1 of the same day. *)
Theorem consecutive_shifts_two_sites (now : string) :
  solved two_sites two_sites_solver two_sites_value ∧
  compatible two_sites 4 0 = false ∧
  ∃ res, generate_schedule two_sites two_sites_solver now = inr res ∧
    assigned_cells two_sites (decision_variables two_sites) two_sites_value !! 56%nat
      = Some (4, 0, 1, 0)%nat ∧
    assigned_cells two_sites (decision_variables two_sites) two_sites_value !! 57%nat
      = Some (4, 0, 1, 1)%nat ∧
    schedule res !! 56%nat =
      Some {| employee_id := 5; employee_name := "Giang"; date := "2026-11-04";
              location_id := 2; location_name := "Warehouse";
              shift_id := 1; shift_name := "Morning";
              start_time := "06:00"; end_time := "14:00" |} ∧
    schedule res !! 57%nat =
      Some {| employee_id := 5; employee_name := "Giang"; date := "2026-11-04";
              location_id := 2; location_name := "Warehouse";
              shift_id := 2; shift_name := "Afternoon";
              start_time := "14:00"; end_time := "22:00" |}.
Proof.
  split; [exact two_sites_solved|]. split; [vm_compute; reflexivity|].
  destruct (generate_schedule_success two_sites two_sites_solver now FEASIBLE
              two_sites_value two_sites_answers (or_intror eq_refl)) as (res & Hres & Hsched & _).
  exists res. split; [assumption|].
  assert (schedule res =
          default [] (_extract_schedule two_sites (decision_variables two_sites)
                        two_sites_value)) as Heq
    by (rewrite Hsched; reflexivity).
  rewrite Heq.
  repeat split; vm_compute; reflexivity.
Qed.

(** ** Skill gating *)

Lemma has_required_skills_empty (employee : Employee) (location : Location) :
  default [] (loc_required_skills location) = [] →
  _employee_has_required_skills employee location = false.
Proof.
  intros Hreq. unfold _employee_has_required_skills. rewrite Hreq. simpl.
  apply bool_decide_eq_false. intros Hne. apply Hne.
  apply (right_absorb_L ∅ (∩)).
Qed.

Lemma cell_record_location (self : ShiftScheduler) (c : cell) (a : Assignment) :
  cell_record self c = Some a →
  ∃ location, locations self !! cell_l c = Some location ∧
              location_id a = loc_id location.
Proof.
  destruct c as [[[e d] l] s]. unfold cell_record. simpl.
  destruct (employees self !! e); [|discriminate]. simpl.
  destruct (dates self !! d); [|discriminate]. simpl.
  destruct (locations self !! l) as [location|]; [|discriminate]. simpl.
  destruct (shifts self !! s); [|discriminate]. simpl.
  intros [= <-]. exists location. split; reflexivity.
Qed.

Lemma records_of_elem (self : ShiftScheduler) (cells : list cell)
    (sched : list Assignment) (a : Assignment) :
  records_of self cells sched → a ∈ sched →
  ∃ c, c ∈ cells ∧ cell_record self c = Some a.
Proof.
  intros Hrec Ha. apply list_elem_of_lookup in Ha as [i Hi].
  destruct (Forall2_lookup_r _ _ _ _ _ Hrec Hi) as (c & Hc & Hca).
  exists c. split; [|assumption]. eapply list_elem_of_lookup_2; eassumption.
Qed.

(** C8. A location whose required-skill set is empty is compatible with no
    employee; no decision variable exists for any of its cells, no emitted
    cell lies at it, and (location identifiers being distinct) no assignment
    of a result carries its identifier. *)
Theorem empty_required_skills_unreachable (self : ShiftScheduler) (l : nat)
    (location : Location) :
  locations self !! l = Some location →
  default [] (loc_required_skills location) = [] →
  (∀ employee, _employee_has_required_skills employee location = false) ∧
  (∀ e d s, decision_variables self !! (e, d, l, s) = None) ∧
  (∀ value c, c ∈ assigned_cells self (decision_variables self) value → cell_l c ≠ l) ∧
  (∀ solver now res,
      generate_schedule self solver now = inr res →
      NoDup (map loc_id (locations self)) →
      ∀ a, a ∈ schedule res → location_id a ≠ loc_id location).
Proof.
  intros Hl Hreq.
  assert (∀ e, compatible self e l = false) as Hcompat.
  { intros e. unfold compatible. rewrite Hl.
    destruct (employees self !! e); [|reflexivity].
    by apply has_required_skills_empty. }
  assert (∀ value c, c ∈ assigned_cells self (decision_variables self) value →
                     cell_l c ≠ l) as Hcells.
  { intros value c Hc Heq. apply elem_of_assigned_cells in Hc as [[_ Hs] _].
    rewrite Heq, Hcompat in Hs. discriminate. }
  split; [intros employee; by apply has_required_skills_empty|].
  split; [|split; [exact Hcells|]].
  - intros e d s. apply lookup_decision_variables_None. intros [_ Hs].
    simpl in Hs. rewrite Hcompat in Hs. discriminate.
  - intros solver now res Hres Hnodup a Ha Hid.
    apply generate_schedule_inv in Hres as (st & value & _ & _ & Hrec & _).
    destruct (records_of_elem _ _ _ _ Hrec Ha) as (c & Hc & Hca).
    apply cell_record_location in Hca as (location' & Hl' & Hid').
    apply (Hcells value c Hc).
    eapply (NoDup_lookup (map loc_id (locations self))); [exact Hnodup| |].
    + rewrite list_lookup_fmap, Hl'. simpl. reflexivity.
    + rewrite list_lookup_fmap, Hl. simpl. congruence.
Qed.

Lemma empty_required_skills_unreachable_witness :
  locations open_site !! 0%nat = Some (location_ 1 "Lobby" []) ∧
  default [] (loc_required_skills (location_ 1 "Lobby" [])) = [] ∧
  ∀ e d s, decision_variables open_site !! (e, d, 0%nat, s) = None.
Proof.
  split; [reflexivity|]. split; [reflexivity|].
  apply (empty_required_skills_unreachable open_site 0 (location_ 1 "Lobby" []));
    reflexivity.
Defined.

(** ** No input validation *)






(** ** Advisor overrides *)

(** C5, as the code has it.  Of an advisor bundle only the key
    [min_employees_per_shift] is merged: the merged scheduler takes its value
    when the key is present and is otherwise unchanged; the weekly bounds are
    never touched, so the weekly-volume constraints of the model are those of
    the unmerged scheduler.  The API server merges nothing at all. *)
Theorem only_min_employees_per_shift_merged (scheduler : ShiftScheduler)
    (ai_pre_analysis : option PreAnalysis) :
  let merged := apply_suggested_constraints scheduler ai_pre_analysis in
  min_employees_per_shift merged =
    default (min_employees_per_shift scheduler) (suggested_min_employees ai_pre_analysis) ∧
  min_shifts_per_employee_per_week merged = min_shifts_per_employee_per_week scheduler ∧
  max_shifts_per_employee_per_week merged = max_shifts_per_employee_per_week scheduler ∧
  (∀ shifts_, constraint5 merged shifts_ = constraint5 scheduler shifts_) ∧
  (∀ emps locs shs today, api_scheduler emps locs shs today = init emps locs shs today).
Proof.
  unfold apply_suggested_constraints, suggested_min_employees.
  destruct ai_pre_analysis as [[[constraints_|]]|]; simpl;
    try destruct (constraints_ !! _); simpl; repeat split; reflexivity.
Qed.

(** C5, refuted as stated: a bundle that overrides the weekly bounds with 3
    and 7 leaves the scheduler at 5 and 10, and the model is the one built
    without any bundle. *)
Lemma weekly_override_ignored :
  let merged := main_scheduler (employees kiosk) (locations kiosk) (shifts kiosk)
                               today_iso (Some weekly_override) in
  min_shifts_per_employee_per_week merged = 5 ∧
  max_shifts_per_employee_per_week merged = 10 ∧
  build_model merged = build_model kiosk.
Proof. vm_compute. repeat split; reflexivity. Qed.

(** ** Weekly volume (CONSTRAINT 5) *)

Lemma feasible_inv (self : ShiftScheduler) (value : valuation) :
  feasible value (build_model self) = true →
  (∀ c, support self c → 0 ≤ value (BoolVar c) ≤ 1) ∧
  (∀ c, c ∈ hard_constraints self → holdsb value c = true).
Proof.
  unfold feasible, build_model, build_model_from. fold (hard_constraints self).
  intros H.
  assert (forallb (fun x => (0 <=? value x) && (value x <=? 1))
            (map (fun c => BoolVar c)
               (filter (fun '(e, _, l, _) => compatible self e l = true) (all_cells self)))
          = true ∧
          forallb (holdsb value) (hard_constraints self) = true) as [Hdom Hhard].
  { destruct (employee_total_shifts self (decision_variables self)); simpl in H;
      repeat (apply andb_prop in H as [H ?]); split; try assumption.
    rewrite forallb_app in *. by apply andb_prop in H0 as [? _]. }
  split.
  - intros c Hc. rewrite forallb_forall in Hdom.
    specialize (Hdom (BoolVar c)). rewrite andb_true_iff in Hdom.
    rewrite Z.leb_le, Z.leb_le in Hdom. apply Hdom.
    apply in_map, list_elem_of_In. by apply elem_of_created.
  - intros c Hc. rewrite forallb_forall in Hhard. by apply Hhard, list_elem_of_In.
Qed.

Lemma bind_bind {A B C : Type} (f : A → list B) (g : B → list C) (l : list A) :
  (l ≫= f) ≫= g = l ≫= (fun x => f x ≫= g).
Proof.
  induction l as [|x l IH]; [reflexivity|].
  rewrite !bind_cons, bind_app, IH. reflexivity.
Qed.

Lemma bind_ext_fn {A B : Type} (f g : A → list B) (l : list A) :
  (∀ x, f x = g x) → l ≫= f = l ≫= g.
Proof.
  intros Hfg. induction l as [|x l IH]; [reflexivity|].
  rewrite !bind_cons, Hfg, IH. reflexivity.
Qed.

Lemma bind_singleton {A B : Type} (g : A → list B) (x : A) : [x] ≫= g = g x.
Proof. rewrite bind_cons. apply app_nil_r. Qed.

Lemma total_shifts_week_cells (self : ShiftScheduler) (shifts_ : gmap cell var)
    (e week : nat) :
  total_shifts self shifts_ e week = week_cells self e week ≫= var_at shifts_.
Proof.
  unfold total_shifts, week_cells.
  rewrite bind_bind. apply bind_ext_fn. intros d.
  rewrite bind_bind. apply bind_ext_fn. intros l.
  rewrite bind_bind. apply bind_ext_fn. intros s.
  rewrite bind_singleton. reflexivity.
Qed.

Lemma sum_vars_app (value : valuation) (l1 l2 : list var) :
  sum_vars value (l1 ++ l2) = sum_vars value l1 + sum_vars value l2.
Proof.
  unfold sum_vars. induction l1 as [|x l1 IH]; simpl; [reflexivity|].
  rewrite IH. lia.
Qed.

(** A sum of 0/1 variables counts the cells that the extractor selects. *)
Lemma sum_vars_selected (self : ShiftScheduler) (value : valuation) (cs : list cell) :
  (∀ c, support self c → 0 ≤ value (BoolVar c) ≤ 1) →
  sum_vars value (cs ≫= var_at (decision_variables self)) =
  Z.of_nat (length (filter (fun c => selected (decision_variables self) value c = true) cs)).
Proof.
  intros Hdom. induction cs as [|c cs IH]; [reflexivity|].
  rewrite bind_cons, sum_vars_app, IH, filter_cons.
  assert (sum_vars value (var_at (decision_variables self) c) =
          if decide (selected (decision_variables self) value c = true) then 1 else 0)
    as ->.
  { unfold var_at.
    destruct (decide _) as [Hsel|Hsel]; rewrite selected_spec in Hsel.
    - destruct Hsel as [Hs Hv].
      rewrite (proj2 (lookup_decision_variables_Some self c _) (conj eq_refl Hs)).
      unfold sum_vars. simpl. lia.
    - destruct (decision_variables self !! c) as [x|] eqn:Hx; [|reflexivity].
      apply lookup_decision_variables_Some in Hx as [-> Hs].
      specialize (Hdom c Hs). assert (value (BoolVar c) ≠ 1) by tauto.
      unfold sum_vars. simpl. lia. }
  destruct (decide _); [rewrite length_cons, Nat2Z.inj_succ|]; lia.
Qed.

Lemma elem_of_week_cells (self : ShiftScheduler) (e week : nat) (c : cell) :
  c ∈ week_cells self e week ↔
  cell_e c = e ∧ (7 * week ≤ cell_d c < 7 * week + 7)%nat ∧
  (cell_d c < num_days self ∧ cell_l c < num_locations self ∧
   cell_s c < num_shifts_per_day self)%nat.
Proof.
  destruct c as [[[e' d] l] s]. unfold week_cells, week_days. simpl. split.
  - intros H.
    apply list_elem_of_bind in H as (d0 & H & Hd).
    apply list_elem_of_bind in H as (l0 & H & Hl).
    apply list_elem_of_bind in H as (s0 & H & Hs).
    apply list_elem_of_singleton in H. inversion H; subst.
    rewrite !elem_of_seq in *. lia.
  - intros (-> & Hw & Hd & Hl & Hs).
    apply list_elem_of_bind. exists d. split; [|apply elem_of_seq; lia].
    apply list_elem_of_bind. exists l. split; [|apply elem_of_seq; lia].
    apply list_elem_of_bind. exists s. split; [|apply elem_of_seq; lia].
    apply list_elem_of_singleton. reflexivity.
Qed.

Lemma week_cells_NoDup (self : ShiftScheduler) (e week : nat) :
  NoDup (week_cells self e week).
Proof.
  apply (StronglySorted_NoDup cell_lt); [apply cell_lt_irrefl|].
  unfold week_cells, week_days.
  apply StronglySorted_bind_seq.
  - intros d. apply StronglySorted_bind_seq.
    + intros l. apply StronglySorted_bind_seq.
      * intros s. repeat constructor.
      * intros s1 s2 x y Hlt Hx Hy.
        apply list_elem_of_singleton in Hx, Hy. subst. simpl. lia.
    + intros l1 l2 x y Hlt Hx Hy.
      apply list_elem_of_bind in Hx as (s1 & Hx & _).
      apply list_elem_of_bind in Hy as (s2 & Hy & _).
      apply list_elem_of_singleton in Hx, Hy. subst. simpl. lia.
  - intros d1 d2 x y Hlt Hx Hy.
    apply list_elem_of_bind in Hx as (l1 & Hx & _).
    apply list_elem_of_bind in Hx as (s1 & Hx & _).
    apply list_elem_of_bind in Hy as (l2 & Hy & _).
    apply list_elem_of_bind in Hy as (s2 & Hy & _).
    apply list_elem_of_singleton in Hx, Hy. subst. simpl. lia.
Qed.

(** The weekly sum of CONSTRAINT 5 is the weekly number of emitted cells. *)
Lemma total_shifts_weekly_total (self : ShiftScheduler) (value : valuation) (e week : nat) :
  (∀ c, support self c → 0 ≤ value (BoolVar c) ≤ 1) →
  (e < num_employees self)%nat →
  sum_vars value (total_shifts self (decision_variables self) e week) =
  Z.of_nat (weekly_total (assigned_cells self (decision_variables self) value) e week).
Proof.
  intros Hdom He.
  rewrite total_shifts_week_cells, (sum_vars_selected self value _ Hdom).
  unfold weekly_total. f_equal. apply Permutation_length, NoDup_Permutation.
  - apply NoDup_filter, week_cells_NoDup.
  - apply NoDup_filter, NoDup_filter, all_cells_NoDup.
  - intros c. unfold assigned_cells.
    rewrite !list_elem_of_filter, elem_of_week_cells.
    destruct c as [[[e' d] l] s]. rewrite elem_of_all_cells. simpl.
    split; [intros (? & -> & ? & ?)|intros ((-> & ?) & ? & ?)]; tauto.
Qed.

Lemma constraint5_posted (self : ShiftScheduler) (e week : nat) :
  (e < num_employees self)%nat → (week < 2)%nat →
  total_shifts self (decision_variables self) e week ≠ [] →
  SumGe (total_shifts self (decision_variables self) e week)
        (min_shifts_per_employee_per_week self) ∈ hard_constraints self ∧
  SumLe (total_shifts self (decision_variables self) e week)
        (max_shifts_per_employee_per_week self) ∈ hard_constraints self.
Proof.
  intros He Hw Hne.
  assert (∀ c, c ∈ [SumGe (total_shifts self (decision_variables self) e week)
                      (min_shifts_per_employee_per_week self);
                    SumLe (total_shifts self (decision_variables self) e week)
                      (max_shifts_per_employee_per_week self)] →
               c ∈ hard_constraints self) as Hin.
  { intros c Hc. unfold hard_constraints. rewrite !elem_of_app. do 4 right.
    unfold constraint5.
    apply list_elem_of_bind. exists e. split; [|apply elem_of_seq; lia].
    apply list_elem_of_bind. exists week. split; [|apply elem_of_seq; lia].
    destruct (total_shifts self (decision_variables self) e week); [congruence|assumption]. }
  split; apply Hin; [by left|by right; left].
Qed.

(** C2, as the code has it.  In every successful result, an employee who has
    a decision variable on some day of week [w] (w = 0, 1) holds between
    [min_shifts_per_employee_per_week] and [max_shifts_per_employee_per_week]
    assignments over the days 7w .. 7w+6; an employee for whom no decision
    variable exists holds none. *)
Theorem weekly_bounds_with_variables (self : ShiftScheduler) (solver : CpSolver)
    (value : valuation) (now : string) (e week : nat) :
  solved self solver value →
  (week < 2)%nat →
  let cells := assigned_cells self (decision_variables self) value in
  ∃ res, generate_schedule self solver now = inr res ∧
         records_of self cells (schedule res) ∧
         ((∃ d l s, (7 * week ≤ d < 7 * week + 7)%nat ∧
                    is_Some (decision_variables self !! (e, d, l, s))) →
          min_shifts_per_employee_per_week self
            ≤ Z.of_nat (weekly_total cells e week)
            ≤ max_shifts_per_employee_per_week self) ∧
         ((∀ d l s, decision_variables self !! (e, d, l, s) = None) →
          weekly_total cells e week = 0%nat).
Proof.
  intros Hsolved Hweek cells.
  destruct (solved_result self solver value now Hsolved) as (res & Hres & Hrec).
  exists res. split; [assumption|]. split; [assumption|].
  destruct Hsolved as (st & _ & _ & Hfeas).
  apply feasible_inv in Hfeas as [Hdom Hhard].
  split.
  - intros (d & l & s & Hd & [x Hx]).
    apply lookup_decision_variables_Some in Hx as [-> [Hcell Hcompat]].
    pose proof Hcell as Hrange. apply elem_of_all_cells in Hrange.
    assert (total_shifts self (decision_variables self) e week ≠ []) as Hne.
    { rewrite total_shifts_week_cells. intros Hnil.
      assert (BoolVar (e, d, l, s) ∈
                week_cells self e week ≫= var_at (decision_variables self)) as Hin.
      { apply list_elem_of_bind. exists (e, d, l, s). split.
        - unfold var_at.
          rewrite (proj2 (lookup_decision_variables_Some self (e, d, l, s) _)
                     (conj eq_refl (conj Hcell Hcompat))).
          by left.
        - apply elem_of_week_cells. simpl. lia. }
      rewrite Hnil in Hin. by apply elem_of_nil in Hin. }
    destruct (constraint5_posted self e week) as [Hge Hle]; [lia|assumption..|].
    apply Hhard in Hge, Hle. simpl in Hge, Hle.
    apply Z.leb_le in Hge, Hle.
    rewrite (total_shifts_weekly_total self value e week Hdom) in Hge, Hle by lia.
    split; assumption.
  - intros Hnone. unfold weekly_total.
    destruct (filter _ cells) as [|c rest] eqn:Hf; [reflexivity|].
    assert (c ∈ filter (fun c => cell_e c = e ∧ (7 * week ≤ cell_d c < 7 * week + 7)%nat)
                       cells) as Hc by (rewrite Hf; by left).
    apply list_elem_of_filter in Hc as [[He _] Hc].
    apply elem_of_assigned_cells in Hc as [Hs _].
    destruct c as [[[e' d] l] s]. simpl in He. subst e'.
    apply (lookup_decision_variables_None self (e, d, l, s)) in Hs; [easy|apply Hnone].
Qed.

Lemma weekly_bounds_with_variables_witness :
  solved kiosk kiosk_solver kiosk_value ∧ (0 < 2)%nat ∧
  5 ≤ Z.of_nat (weekly_total
                  (assigned_cells kiosk (decision_variables kiosk) kiosk_value) 0 0) ≤ 10.
Proof.
  split; [exact kiosk_solved|]. split; [lia|].
  destruct (weekly_bounds_with_variables kiosk kiosk_solver kiosk_value
              "2026-11-04T09:00:00" 0 0 kiosk_solved) as (res & _ & _ & Hbounds & _);
    [lia|].
  apply Hbounds. exists 0%nat, 0%nat, 0%nat. split; [lia|].
  vm_compute. eauto.
Defined.

(** C2, refuted as stated: in the successful result for [kiosk] the third
    employee, for whom no decision variable exists, holds no assignment in
    week 0, below the weekly minimum of 5. *)
Lemma weekly_minimum_missed_without_variables :
  ∃ res, generate_schedule kiosk kiosk_solver "2026-11-04T09:00:00" = inr res ∧
         solved kiosk kiosk_solver kiosk_value ∧
         records_of kiosk (assigned_cells kiosk (decision_variables kiosk) kiosk_value)
                    (schedule res) ∧
         (2 < num_employees kiosk)%nat ∧
         ¬ (min_shifts_per_employee_per_week kiosk
              ≤ Z.of_nat (weekly_total
                            (assigned_cells kiosk (decision_variables kiosk) kiosk_value)
                            2 0)
              ≤ max_shifts_per_employee_per_week kiosk).
Proof.
  destruct (solved_result kiosk kiosk_solver kiosk_value "2026-11-04T09:00:00"
              kiosk_solved) as (res & Hres & Hrec).
  exists res. split; [assumption|]. split; [exact kiosk_solved|].
  split; [assumption|]. split; [vm_compute; lia|].
  vm_compute. intros [H _]. by apply H.
Qed.

(** ** Consecutive shifts for the employees that CONSTRAINT 4 reaches *)

Lemma constraint4_posted (self : ShiftScheduler) (e d l1 l2 s : nat) :
  (s = 0 ∨ s = 1)%nat →
  support self (e, d, 0, s)%nat → support self (e, d, 0, S s)%nat →
  support self (e, d, l1, s) → support self (e, d, l2, S s) →
  SumLe [BoolVar (e, d, l1, s); BoolVar (e, d, l2, S s)] 1 ∈ hard_constraints self.
Proof.
  intros Hs H0 H1 Hc1 Hc2.
  assert (∀ c, support self c → decision_variables self !! c = Some (BoolVar c)) as Hlk
    by (intros c Hc; by apply lookup_decision_variables_Some).
  pose proof (proj1 Hc1) as Hr1. apply elem_of_all_cells in Hr1.
  pose proof (proj1 Hc2) as Hr2. apply elem_of_all_cells in Hr2.
  assert (SumLe [BoolVar (e, d, l1, s); BoolVar (e, d, l2, S s)] 1
            ∈ consecutive_pair self (decision_variables self) e d s (S s)) as Hpair.
  { unfold consecutive_pair, in_shifts.
    rewrite (Hlk _ H0), (Hlk _ H1).
    rewrite !bool_decide_eq_true_2 by eauto. simpl.
    apply list_elem_of_bind. exists l1. split; [|apply elem_of_seq; lia].
    apply list_elem_of_bind. exists l2. split; [|apply elem_of_seq; lia].
    cbv beta.
    match goal with
    | |- _ ∈ match ?a with Some _ => match ?b with _ => _ end | None => _ end =>
        replace a with (Some (BoolVar (e, d, l1, s))) by (symmetry; exact (Hlk _ Hc1));
        replace b with (Some (BoolVar (e, d, l2, S s))) by (symmetry; exact (Hlk _ Hc2))
    end.
    by left. }
  unfold hard_constraints. rewrite !elem_of_app. do 3 right. left.
  unfold constraint4.
  apply list_elem_of_bind. exists e. split; [|apply elem_of_seq; lia].
  apply list_elem_of_bind. exists d. split; [|apply elem_of_seq; lia].
  rewrite elem_of_app. destruct Hs as [-> | ->]; [by left|by right].
Qed.

(** X5.  For an employee who has variables at the first-listed location for the
    shifts [s] and [s+1], with [s] equal to 0 or 1, no successful result holds
    a cell at shift [s] and a cell at shift [s+1] on the same day, at any pair
    of locations. *)
Lemma consecutive_shifts_excluded_when_guarded (self : ShiftScheduler) (solver : CpSolver)
    (value : valuation) (e d l1 l2 s : nat) :
  solved self solver value →
  (s = 0 ∨ s = 1)%nat →
  support self (e, d, 0, s)%nat → support self (e, d, 0, S s)%nat →
  ¬ ((e, d, l1, s) ∈ assigned_cells self (decision_variables self) value ∧
     (e, d, l2, S s) ∈ assigned_cells self (decision_variables self) value).
Proof.
  intros (st & _ & _ & Hfeas) Hs H0 H1 [Hc1 Hc2].
  apply feasible_inv in Hfeas as [_ Hhard].
  apply elem_of_assigned_cells in Hc1 as [Hs1 Hv1].
  apply elem_of_assigned_cells in Hc2 as [Hs2 Hv2].
  pose proof (Hhard _ (constraint4_posted self e d l1 l2 s Hs H0 H1 Hs1 Hs2)) as Hle.
  simpl in Hle. unfold sum_vars in Hle. simpl in Hle.
  apply Z.leb_le in Hle. lia.
Qed.

(** ** Dictionaries *)

Section DictFacts.
Context {K V : Type} `{EqDecision K}.
Implicit Types d : list (K * V).

Lemma dict_get_set d k k' v :
  dict_get (dict_set d k v) k' = if decide (k = k') then Some v else dict_get d k'.
Proof.
  induction d as [|[k0 v0] d IH]; simpl.
  - destruct (decide (k = k')); reflexivity.
  - destruct (decide (k0 = k)) as [->|Hne]; simpl.
    + destruct (decide (k = k')); reflexivity.
    + rewrite IH. destruct (decide (k0 = k')) as [->|]; [|reflexivity].
      destruct (decide (k = k')); [congruence|reflexivity].
Qed.

Lemma dict_get_None d k : dict_get d k = None ↔ k ∉ dict_keys d.
Proof.
  unfold dict_keys. induction d as [|[k0 v0] d IH]; simpl.
  - split; [intros _; apply not_elem_of_nil|reflexivity].
  - rewrite not_elem_of_cons. destruct (decide (k0 = k)) as [->|Hne].
    + split; [discriminate|tauto].
    + rewrite IH. split; [intros ?; split; [congruence|assumption]|tauto].
Qed.

Lemma dict_get_Some_elem d k v : dict_get d k = Some v → (k, v) ∈ d.
Proof.
  induction d as [|[k0 v0] d IH]; simpl; [discriminate|].
  destruct (decide (k0 = k)) as [->|Hne].
  - intros [= ->]. by left.
  - intros Hd. right. by apply IH.
Qed.

Lemma dict_get_elem d k v : NoDup (dict_keys d) → (k, v) ∈ d → dict_get d k = Some v.
Proof.
  unfold dict_keys. induction d as [|[k0 v0] d IH]; simpl; intros Hnd Hin.
  - by apply elem_of_nil in Hin.
  - apply NoDup_cons in Hnd as [Hk0 Hnd].
    apply elem_of_cons in Hin as [[= -> ->]|Hin].
    + destruct (decide (k0 = k0)); [reflexivity|congruence].
    + destruct (decide (k0 = k)) as [->|Hne]; [|by apply IH].
      exfalso. apply Hk0. apply (list_elem_of_fmap_2 fst) in Hin. exact Hin.
Qed.

Lemma dict_set_fresh d k v : dict_get d k = None → dict_set d k v = d ++ [(k, v)].
Proof.
  induction d as [|[k0 v0] d IH]; simpl; [reflexivity|].
  destruct (decide (k0 = k)); [discriminate|]. intros Hd. by rewrite IH.
Qed.

Lemma dict_keys_set_present d k v :
  is_Some (dict_get d k) → dict_keys (dict_set d k v) = dict_keys d.
Proof.
  unfold dict_keys. induction d as [|[k0 v0] d IH]; simpl; intros [x Hx]; [discriminate|].
  destruct (decide (k0 = k)) as [->|Hne]; simpl; [reflexivity|].
  rewrite IH; [reflexivity|eauto].
Qed.

Lemma dict_keys_set d k v :
  dict_keys (dict_set d k v) =
  if dict_get d k is Some _ then dict_keys d else dict_keys d ++ [k].
Proof.
  destruct (dict_get d k) as [x|] eqn:Hx.
  - apply dict_keys_set_present. eauto.
  - rewrite dict_set_fresh by assumption. unfold dict_keys. by rewrite map_app.
Qed.

Lemma dict_keys_NoDup_set d k v :
  NoDup (dict_keys d) → NoDup (dict_keys (dict_set d k v)).
Proof.
  intros Hnd. rewrite dict_keys_set.
  destruct (dict_get d k) eqn:Hx; [assumption|].
  apply NoDup_app. split; [assumption|]. split.
  - intros x Hx1 Hx2. apply list_elem_of_singleton in Hx2. subst.
    by apply dict_get_None in Hx.
  - apply NoDup_singleton.
Qed.
End DictFacts.

Lemma sumZ_app (l1 l2 : list Z) : sumZ (l1 ++ l2) = sumZ l1 + sumZ l2.
Proof. unfold sumZ. induction l1 as [|x l1 IH]; simpl; [reflexivity|]. rewrite IH. lia. Qed.

Lemma sumZ_dict_set {K : Type} `{EqDecision K} (d : list (K * Z)) (k : K) (v : Z) :
  sumZ (dict_values (dict_set d k v)) =
  sumZ (dict_values d) - default 0 (dict_get d k) + v.
Proof.
  unfold dict_values, sumZ. induction d as [|[k0 v0] d IH]; simpl; [lia|].
  destruct (decide (k0 = k)); simpl; [lia|]. rewrite IH. lia.
Qed.

(** ** The counting loops *)

Section CountBy.
Context {K : Type} `{EqDecision K} (key : Assignment → K).

Lemma count_by_snoc (schedule : list Assignment) (a : Assignment) :
  count_by key (schedule ++ [a]) =
  dict_set (count_by key schedule) (key a)
           (default 0 (dict_get (count_by key schedule) (key a)) + 1).
Proof. unfold count_by. rewrite fold_left_app. reflexivity. Qed.

Lemma count_by_sum (schedule : list Assignment) :
  sumZ (dict_values (count_by key schedule)) = Z.of_nat (length schedule).
Proof.
  induction schedule as [|a schedule IH] using rev_ind; [reflexivity|].
  rewrite count_by_snoc, sumZ_dict_set, IH, length_app. simpl. lia.
Qed.

Lemma count_by_NoDup (schedule : list Assignment) :
  NoDup (dict_keys (count_by key schedule)).
Proof.
  induction schedule as [|a schedule IH] using rev_ind; [constructor|].
  rewrite count_by_snoc. by apply dict_keys_NoDup_set.
Qed.

Lemma occurrences_snoc (schedule : list Assignment) (a : Assignment) (k : K) :
  occurrences key (schedule ++ [a]) k =
  occurrences key schedule k + (if decide (key a = k) then 1 else 0).
Proof.
  unfold occurrences. rewrite filter_app, length_app, filter_cons, filter_nil.
  destruct (decide (key a = k)); simpl; lia.
Qed.

Lemma occurrences_nonneg (schedule : list Assignment) (k : K) :
  0 ≤ occurrences key schedule k.
Proof. unfold occurrences. lia. Qed.

Lemma count_by_get (schedule : list Assignment) (k : K) :
  dict_get (count_by key schedule) k =
  if decide (occurrences key schedule k = 0) then None
  else Some (occurrences key schedule k).
Proof.
  induction schedule as [|a schedule IH] using rev_ind; [reflexivity|].
  rewrite count_by_snoc, dict_get_set, occurrences_snoc.
  pose proof (occurrences_nonneg schedule k) as Hk.
  destruct (decide (key a = k)) as [->|Hne].
  - rewrite IH. repeat case_decide; simpl; try lia; f_equal; lia.
  - rewrite IH. repeat case_decide; simpl; try lia; f_equal; lia.
Qed.

Lemma occurrences_pos_iff (schedule : list Assignment) (k : K) :
  occurrences key schedule k ≠ 0 ↔ k ∈ map key schedule.
Proof.
  unfold occurrences. split.
  - intros Hne. destruct (filter _ schedule) as [|a rest] eqn:Hf; [simpl in Hne; lia|].
    assert (a ∈ filter (fun a => key a = k) schedule) as Ha by (rewrite Hf; by left).
    apply list_elem_of_filter in Ha as [<- Ha]. by apply list_elem_of_fmap_2.
  - intros Hin. apply list_elem_of_fmap in Hin as (a & -> & Ha).
    assert (a ∈ filter (fun a' => key a' = key a) schedule) as Hf
      by (by apply list_elem_of_filter).
    destruct (filter _ schedule); [by apply elem_of_nil in Hf|]. simpl. lia.
Qed.

(** The dictionary holds, for the keys that occur, their numbers of
    occurrences. *)
Lemma count_by_values (schedule : list Assignment) :
  dict_values (count_by key schedule) =
  map (occurrences key schedule) (dict_keys (count_by key schedule)).
Proof.
  pose proof (count_by_NoDup schedule) as Hnd.
  assert (∀ kv, kv ∈ count_by key schedule → kv.2 = occurrences key schedule kv.1) as Hall.
  { intros [k v] Hkv. apply dict_get_elem in Hkv; [|assumption].
    rewrite count_by_get in Hkv. case_decide; [discriminate|]. by injection Hkv as <-. }
  unfold dict_values, dict_keys. rewrite map_map.
  apply map_ext_in. intros kv Hkv. apply Hall. by apply list_elem_of_In.
Qed.

Lemma count_by_keys_perm (schedule : list Assignment) :
  dict_keys (count_by key schedule) ≡ₚ remove_dups (map key schedule).
Proof.
  apply NoDup_Permutation; [apply count_by_NoDup|apply NoDup_remove_dups|].
  intros k. rewrite elem_of_remove_dups, <- occurrences_pos_iff.
  pose proof (dict_get_None (count_by key schedule) k) as Hn.
  pose proof (count_by_get schedule k) as Hg.
  destruct (decide (occurrences key schedule k = 0)) as [H0|H0].
  - split; [intros Hin|intros; contradiction].
    exfalso. by apply (proj1 Hn Hg).
  - split; [intros _; exact H0|intros _].
    destruct (decide (k ∈ dict_keys (count_by key schedule))) as [|Hnin]; [assumption|].
    apply Hn in Hnin. congruence.
Qed.

Lemma count_by_values_perm (schedule : list Assignment) :
  dict_values (count_by key schedule) ≡ₚ
  map (occurrences key schedule) (remove_dups (map key schedule)).
Proof. rewrite count_by_values. apply Permutation_map, count_by_keys_perm. Qed.
End CountBy.

(** ** Re-keyed dictionaries of the statistics *)

Lemma dict_rekey_snoc {K K' V : Type} `{EqDecision K'} (f : K → K') (d : list (K * V))
    (kv : K * V) :
  dict_rekey f (d ++ [kv]) = dict_set (dict_rekey f d) (f kv.1) kv.2.
Proof. unfold dict_rekey. rewrite fold_left_app. reflexivity. Qed.

(** An entry of a re-keyed dictionary is the value of one of the entries that
    were re-keyed to it. *)
Lemma dict_get_rekey_elem {K K' V : Type} `{EqDecision K'} (f : K → K')
    (d : list (K * V)) (k' : K') (v : V) :
  dict_get (dict_rekey f d) k' = Some v → ∃ k, f k = k' ∧ (k, v) ∈ d.
Proof.
  induction d as [|[k0 v0] d IH] using rev_ind; [discriminate|].
  rewrite dict_rekey_snoc, dict_get_set. simpl.
  destruct (decide (f k0 = k')) as [Heq|Hne].
  - intros [= <-]. exists k0. split; [assumption|].
    apply elem_of_app. right. by left.
  - intros Hget. destruct (IH Hget) as (k & Hk & Hin).
    exists k. split; [assumption|]. apply elem_of_app. by left.
Qed.

(** Re-keying never adds to the sum of non-negative values. *)
Lemma sumZ_rekey_le {K K' : Type} `{EqDecision K'} (f : K → K') (d : list (K * Z)) :
  (∀ kv, kv ∈ d → 0 ≤ kv.2) →
  sumZ (dict_values (dict_rekey f d)) ≤ sumZ (dict_values d) ∧
  (∀ k' v, dict_get (dict_rekey f d) k' = Some v → 0 ≤ v).
Proof.
  induction d as [|[k0 v0] d IH] using rev_ind; intros Hnn.
  - split; [reflexivity|]. intros k' v. discriminate.
  - destruct IH as [IHsum IHget]; [intros kv Hkv; apply Hnn, elem_of_app; by left|].
    assert (0 ≤ v0) as Hv0 by (apply (Hnn (k0, v0)), elem_of_app; right; by left).
    rewrite dict_rekey_snoc. simpl. split.
    + assert (sumZ (dict_values (d ++ [(k0, v0)])) = sumZ (dict_values d) + v0) as ->.
      { unfold dict_values. rewrite map_app, sumZ_app. unfold sumZ. simpl. lia. }
      rewrite sumZ_dict_set.
      destruct (dict_get (dict_rekey f d) (f k0)) as [v|] eqn:Hv; simpl; [|lia].
      pose proof (IHget _ _ Hv). lia.
    + intros k' v. rewrite dict_get_set.
      destruct (decide (f k0 = k')); [intros [= <-]; assumption|apply IHget].
Qed.

Lemma dict_rekey_inj {K K' V : Type} `{EqDecision K'} (f : K → K') (d : list (K * V)) :
  (∀ x y, x ∈ dict_keys d → y ∈ dict_keys d → f x = f y → x = y) →
  NoDup (dict_keys d) →
  dict_rekey f d = map (fun kv => (f kv.1, kv.2)) d.
Proof.
  intros Hinj Hnd. unfold dict_rekey.
  assert (∀ acc : list (K' * V),
            (∀ k, k ∈ dict_keys d → f k ∉ dict_keys acc) →
            fold_left (fun acc kv => dict_set acc (f kv.1) kv.2) d acc =
            acc ++ map (fun kv => (f kv.1, kv.2)) d) as Hgen.
  { induction d as [|[k v] d IH]; intros acc Hfresh; simpl.
    - by rewrite app_nil_r.
    - unfold dict_keys in Hnd. simpl in Hnd. apply NoDup_cons in Hnd as [Hk Hnd].
      rewrite dict_set_fresh by (apply dict_get_None, Hfresh; by left).
      rewrite IH; [by rewrite <- app_assoc| |exact Hnd|].
      + intros x y Hx Hy. apply Hinj; by right.
      + intros k' Hk'. unfold dict_keys. rewrite map_app. simpl.
        rewrite elem_of_app, list_elem_of_singleton. intros [Hin|Heq].
        * eapply Hfresh; [right; exact Hk'|exact Hin].
        * apply Hinj in Heq; [|by right|by left]. subst. contradiction. }
  apply (Hgen []). intros k _. apply not_elem_of_nil.
Qed.

Lemma dict_rekey_values {K K' V : Type} `{EqDecision K'} (f : K → K') (d : list (K * V)) :
  (∀ x y, x ∈ dict_keys d → y ∈ dict_keys d → f x = f y → x = y) →
  NoDup (dict_keys d) →
  dict_values (dict_rekey f d) = dict_values d.
Proof.
  intros Hinj Hnd. rewrite dict_rekey_inj by assumption.
  unfold dict_values. rewrite map_map. reflexivity.
Qed.

(** [str] renders distinct integers differently. *)
Lemma str_inj (x y : Z) : str x = str y → x = y.
Proof.
  unfold str. intros Heq.
  assert (∀ z, Z.to_int z ≠ Decimal.Pos Decimal.Nil ∧ Z.to_int z ≠ Decimal.Neg Decimal.Nil)
    as Hnn.
  { intros [|p|p]; simpl; split; try discriminate;
      intros [= Hp]; by apply DecimalPos.Unsigned.to_uint_nonnil in Hp. }
  apply DecimalZ.to_int_inj.
  assert (Some (Z.to_int x) = Some (Z.to_int y)) as [= Hxy]; [|exact Hxy].
  rewrite <- (NilZero.isi (Z.to_int x)), <- (NilZero.isi (Z.to_int y));
    [by rewrite Heq|apply Hnn..].
Qed.

(** Integer identifiers render apart. *)
Lemma renders_apart_int (ns : list Z) : renders_apart (map IdInt ns).
Proof.
  intros x y Hx Hy Heq.
  apply list_elem_of_fmap in Hx as (n & -> & _).
  apply list_elem_of_fmap in Hy as (m & -> & _).
  f_equal. by apply str_inj.
Qed.

Lemma renders_apart_keys (key : Assignment → Id) (schedule : list Assignment) :
  renders_apart (map key schedule) →
  ∀ x y, x ∈ dict_keys (count_by key schedule) → y ∈ dict_keys (count_by key schedule) →
         str x = str y → x = y.
Proof.
  intros Hra x y Hx Hy.
  apply (elem_of_Permutation_proper _ _ _ (count_by_keys_perm key schedule)) in Hx, Hy.
  rewrite elem_of_remove_dups in Hx, Hy. by apply Hra.
Qed.

Lemma rekeyed_count_sum (key : Assignment → Id) (schedule : list Assignment) :
  sumZ (dict_values (dict_rekey str (count_by key schedule))) ≤ Z.of_nat (length schedule) ∧
  (renders_apart (map key schedule) →
   sumZ (dict_values (dict_rekey str (count_by key schedule))) = Z.of_nat (length schedule)).
Proof.
  split.
  - rewrite <- (count_by_sum key schedule). apply sumZ_rekey_le.
    intros [k v] Hkv. apply dict_get_elem in Hkv; [|apply count_by_NoDup].
    rewrite count_by_get in Hkv. pose proof (occurrences_nonneg key schedule k).
    case_decide; [discriminate|]. injection Hkv as <-. simpl. lia.
  - intros Hra. rewrite dict_rekey_values; [apply count_by_sum| |apply count_by_NoDup].
    by apply (renders_apart_keys key).
Qed.

(** C10, as the code has it.  [total_assignments] is the length of the
    schedule and the values of [shifts_per_day] sum to it.  The groupings
    [shifts_per_employee], [shifts_per_location] and [shifts_per_type] are
    re-keyed with [str]: their values sum to at most [total_assignments], and
    to [total_assignments] when no two different identifiers of the grouping
    render to the same string. *)
Theorem groupings_sum_to_total_assignments (schedule : list Assignment) :
  let stats := _calculate_statistics schedule in
  total_assignments stats = Z.of_nat (length schedule) ∧
  sumZ (dict_values (shifts_per_day stats)) = total_assignments stats ∧
  (sumZ (dict_values (shifts_per_employee stats)) ≤ total_assignments stats ∧
   sumZ (dict_values (shifts_per_location stats)) ≤ total_assignments stats ∧
   sumZ (dict_values (shifts_per_type stats)) ≤ total_assignments stats) ∧
  (renders_apart (map employee_id schedule) →
   sumZ (dict_values (shifts_per_employee stats)) = total_assignments stats) ∧
  (renders_apart (map location_id schedule) →
   sumZ (dict_values (shifts_per_location stats)) = total_assignments stats) ∧
  (renders_apart (map shift_id schedule) →
   sumZ (dict_values (shifts_per_type stats)) = total_assignments stats).
Proof.
  simpl. split; [reflexivity|].
  unfold employee_shifts, location_shifts, day_shifts, shift_type_counts.
  destruct (rekeyed_count_sum employee_id schedule) as [He1 He2].
  destruct (rekeyed_count_sum location_id schedule) as [Hl1 Hl2].
  destruct (rekeyed_count_sum shift_id schedule) as [Hs1 Hs2].
  split; [|by repeat split].
  rewrite dict_rekey_values; [apply count_by_sum| |apply count_by_NoDup].
  by intros x y _ _.
Qed.

Lemma groupings_sum_to_total_assignments_witness :
  renders_apart (map employee_id four_types) ∧
  sumZ (dict_values (shifts_per_employee (_calculate_statistics four_types)))
    = total_assignments (_calculate_statistics four_types).
Proof.
  assert (renders_apart (map employee_id four_types)) as Hra
    by apply (renders_apart_int [1; 1; 1; 1]).
  split; [exact Hra|].
  exact (proj1 (proj2 (proj2 (proj2 (groupings_sum_to_total_assignments four_types)))) Hra).
Defined.

(** C10, refuted as stated: the employees with the identifiers 1 and "1" share
    the key "1" of [shifts_per_employee], whose entry holds the count of the
    later one only, so the values sum to 2 for 3 assignments. *)
Lemma colliding_identifiers_lose_assignments :
  shifts_per_employee (_calculate_statistics mixed_ids) = [("1"%string, 2)] ∧
  sumZ (dict_values (shifts_per_employee (_calculate_statistics mixed_ids))) = 2 ∧
  total_assignments (_calculate_statistics mixed_ids) = 3.
Proof. repeat split; vm_compute; reflexivity. Qed.

(** ** Per-employee counts *)

Lemma sumZ_perm (l1 l2 : list Z) : l1 ≡ₚ l2 → sumZ l1 = sumZ l2.
Proof. unfold sumZ. induction 1; simpl; lia. Qed.

Lemma sumR_perm (l1 l2 : list R) : l1 ≡ₚ l2 → sumR l1 = sumR l2.
Proof. unfold sumR. induction 1; simpl; lra. Qed.

Lemma list_min_spec (l : list Z) :
  l ≠ [] → list_min l ∈ l ∧ ∀ x, x ∈ l → list_min l ≤ x.
Proof.
  destruct l as [|x xs]; [congruence|]. intros _. simpl.
  induction xs as [|y ys IH]; simpl.
  - split; [by left|]. intros z Hz. apply list_elem_of_singleton in Hz. lia.
  - destruct IH as [Hin Hle]. split.
    + destruct (Z.min_spec y (foldr Z.min x ys)) as [[_ ->]|[_ ->]].
      * right. by left.
      * rewrite !elem_of_cons in *. tauto.
    + intros z Hz.
      assert (z = y ∨ z ∈ x :: ys) as [->|Hz']
        by (rewrite !elem_of_cons in *; tauto).
      * lia.
      * specialize (Hle z Hz'). lia.
Qed.

Lemma list_max_spec (l : list Z) :
  l ≠ [] → list_max l ∈ l ∧ ∀ x, x ∈ l → x ≤ list_max l.
Proof.
  destruct l as [|x xs]; [congruence|]. intros _. simpl.
  induction xs as [|y ys IH]; simpl.
  - split; [by left|]. intros z Hz. apply list_elem_of_singleton in Hz. lia.
  - destruct IH as [Hin Hle]. split.
    + destruct (Z.max_spec y (foldr Z.max x ys)) as [[_ ->]|[_ ->]].
      * rewrite !elem_of_cons in *. tauto.
      * right. by left.
    + intros z Hz.
      assert (z = y ∨ z ∈ x :: ys) as [->|Hz']
        by (rewrite !elem_of_cons in *; tauto).
      * lia.
      * specialize (Hle z Hz'). lia.
Qed.

Lemma employee_counts_perm (schedule : list Assignment) :
  dict_values (employee_shifts schedule) ≡ₚ map (cnt schedule) (present schedule).
Proof. apply (count_by_values_perm employee_id). Qed.

Lemma present_nil (schedule : list Assignment) : present schedule = [] ↔ schedule = [].
Proof.
  unfold present. split; [|by intros ->].
  destruct schedule as [|a rest]; [reflexivity|]. intros Hnil.
  assert (employee_id a ∈ remove_dups (map employee_id (a :: rest))) as Hin
    by (apply elem_of_remove_dups; by left).
  rewrite Hnil in Hin. by apply elem_of_nil in Hin.
Qed.

Lemma employee_counts_nonempty (schedule : list Assignment) :
  schedule ≠ [] → dict_values (employee_shifts schedule) ≠ [].
Proof.
  intros Hne Hnil. pose proof (employee_counts_perm schedule) as Hperm.
  rewrite Hnil in Hperm. apply Permutation_nil_l in Hperm.
  symmetry in Hperm. apply map_eq_nil in Hperm. by apply present_nil in Hperm.
Qed.

Lemma cnt_present_pos (schedule : list Assignment) (id : Id) :
  id ∈ present schedule → 1 ≤ cnt schedule id.
Proof.
  unfold present, cnt. rewrite elem_of_remove_dups, <- occurrences_pos_iff.
  pose proof (occurrences_nonneg employee_id schedule id). lia.
Qed.

Lemma avg_of_perm (l1 l2 : list Z) : l1 ≡ₚ l2 → avg_of l1 = avg_of l2.
Proof.
  intros Hp. unfold avg_of.
  by rewrite (sumZ_perm _ _ Hp), (Permutation_length Hp).
Qed.

Lemma variance_of_perm (l1 l2 : list Z) : l1 ≡ₚ l2 → variance_of l1 = variance_of l2.
Proof.
  intros Hp. unfold variance_of. rewrite (avg_of_perm _ _ Hp), (Permutation_length Hp).
  f_equal. apply sumR_perm, Permutation_map, Hp.
Qed.

Lemma load_balance_of_perm (l1 l2 : list Z) :
  l1 ≡ₚ l2 → load_balance_of l1 = load_balance_of l2.
Proof.
  intros Hp. unfold load_balance_of, coefficient_of_variation_of, std_dev_of.
  by rewrite (variance_of_perm _ _ Hp), (avg_of_perm _ _ Hp).
Qed.

(** The statistics of a non-empty schedule are those of the counts of the
    employees that occur in it. *)
Lemma statistics_of_counts (schedule : list Assignment) :
  schedule ≠ [] →
  avg_shifts schedule = avg_of (map (cnt schedule) (present schedule)) ∧
  variance schedule = variance_of (map (cnt schedule) (present schedule)) ∧
  load_balance_score schedule = load_balance_of (map (cnt schedule) (present schedule)).
Proof.
  intros Hne. pose proof (employee_counts_nonempty schedule Hne) as Hvals.
  pose proof (employee_counts_perm schedule) as Hperm.
  unfold avg_shifts, variance, load_balance_score.
  destruct (dict_values (employee_shifts schedule)) as [|x xs]; [congruence|].
  split; [|split];
    [apply avg_of_perm|apply variance_of_perm|apply load_balance_of_perm]; exact Hperm.
Qed.

Lemma map_map_counts (schedule : list Assignment) (g : Z → R) (ids : list Id) :
  map g (map (cnt schedule) ids) = map (fun id => g (cnt schedule id)) ids.
Proof. apply map_map. Qed.

(** C7, as the code has it.  The minimum, maximum, average and variance of
    the statistics range over the employees that occur in the schedule (those
    with at least one assignment), not over all input employees: for a
    non-empty schedule the minimum and maximum are attained among them and
    bound their counts, the average is the sum of their counts divided by their
    number, and the variance is the mean squared deviation over them; for an
    empty schedule all four are 0. *)
Theorem count_statistics_over_present_employees (schedule : list Assignment) :
  let stats := _calculate_statistics schedule in
  let ids := present schedule in
  let n := INR (length ids) in
  let avg := (IZR (sumZ (map (cnt schedule) ids)) / n)%R in
  f_variance (fairness (optimization_summary stats)) = round (variance schedule) 2 ∧
  (schedule = [] →
     min_shifts_per_employee stats = 0 ∧ max_shifts_per_employee stats = 0 ∧
     avg_shifts_per_employee stats = 0%R ∧ variance schedule = 0%R) ∧
  (schedule ≠ [] →
     (∀ id, id ∈ ids →
        1 ≤ min_shifts_per_employee stats ≤ cnt schedule id ∧
        cnt schedule id ≤ max_shifts_per_employee stats) ∧
     (∃ id, id ∈ ids ∧ cnt schedule id = min_shifts_per_employee stats) ∧
     (∃ id, id ∈ ids ∧ cnt schedule id = max_shifts_per_employee stats) ∧
     avg_shifts_per_employee stats = avg ∧
     variance schedule =
       (sumR (map (fun id => (IZR (cnt schedule id) - avg) ^ 2) ids) / n)%R).
Proof.
  intros stats ids n avg. split; [reflexivity|]. split.
  - intros ->. repeat split; reflexivity.
  - intros Hne.
    pose proof (employee_counts_nonempty schedule Hne) as Hvals.
    pose proof (employee_counts_perm schedule) as Hperm.
    destruct (list_min_spec _ Hvals) as [Hmin_in Hmin_le].
    destruct (list_max_spec _ Hvals) as [Hmax_in Hmax_le].
    destruct (statistics_of_counts schedule Hne) as (Havg & Hvar & _).
    assert (∀ x, x ∈ dict_values (employee_shifts schedule) ↔
                 ∃ id, id ∈ ids ∧ cnt schedule id = x) as Hmem.
    { intros x. rewrite Hperm, list_elem_of_fmap. unfold ids.
      split; intros (id & H1 & H2); exists id; split; congruence || assumption. }
    assert (list_length_counts :
              length (map (cnt schedule) (present schedule)) = length ids)
      by apply length_map.
    split; [|split; [|split; [|split]]].
    + intros id Hid.
      assert (cnt schedule id ∈ dict_values (employee_shifts schedule)) as Hin
        by (apply Hmem; eauto).
      apply Hmem in Hmin_in as (id0 & Hid0 & Hcnt0).
      pose proof (cnt_present_pos schedule id0 Hid0).
      simpl. specialize (Hmin_le _ Hin). specialize (Hmax_le _ Hin). lia.
    + by apply Hmem in Hmin_in.
    + by apply Hmem in Hmax_in.
    + simpl. rewrite Havg. unfold avg_of, avg, n. by rewrite list_length_counts.
    + rewrite Hvar. unfold variance_of, avg_of. rewrite list_length_counts.
      rewrite map_map_counts. reflexivity.
Qed.

(** C7, refuted as stated: in the successful result for [kiosk] the third
    input employee has no assignment, so the minimum of [cnt_e] over the three
    input employees is 0, while the reported minimum is 14. *)
Lemma minimum_skips_idle_employee :
  ∃ res, generate_schedule kiosk kiosk_solver "2026-11-04T09:00:00" = inr res ∧
         solved kiosk kiosk_solver kiosk_value ∧
         map (fun employee => cnt (schedule res) (emp_id employee)) (employees kiosk)
           = [14; 14; 0] ∧
         min_shifts_per_employee (statistics res) = 14 ∧
         min_shifts_per_employee (statistics res) ≠
           list_min (map (fun employee => cnt (schedule res) (emp_id employee))
                         (employees kiosk)).
Proof.
  destruct (generate_schedule_success kiosk kiosk_solver "2026-11-04T09:00:00" OPTIMAL
              kiosk_value kiosk_answers (or_introl eq_refl)) as (res & Hres & Hsched & _ & Hstat).
  exists res. split; [assumption|]. split; [exact kiosk_solved|].
  assert (schedule res =
          default [] (_extract_schedule kiosk (decision_variables kiosk) kiosk_value))
    as Heq by (rewrite Hsched; reflexivity).
  rewrite Hstat. unfold _calculate_statistics. cbn [min_shifts_per_employee].
  rewrite Heq. split; [vm_compute; reflexivity|].
  split; [vm_compute; reflexivity|]. vm_compute. discriminate.
Qed.

(** ** Rounding *)

Lemma round_half_even_between (y : R) (a b : Z) :
  (IZR a <= y <= IZR b)%R → a ≤ round_half_even y ≤ b.
Proof.
  intros [Ha Hb]. unfold round_half_even.
  destruct (base_Int_part y) as [Hf1 Hf2].
  assert (a ≤ Int_part y) as Hlo.
  { assert (a - 1 < Int_part y); [|lia]. apply lt_IZR. rewrite minus_IZR. lra. }
  assert (Int_part y ≤ b) as Hhi by (apply le_IZR; lra).
  assert (¬ (y - IZR (Int_part y) < 1 / 2)%R → Int_part y + 1 ≤ b) as Hup.
  { intros Hr. assert (Int_part y < b); [|lia]. apply lt_IZR. lra. }
  destruct (Rlt_dec _ _) as [|Hr]; [lia|]. specialize (Hup Hr).
  destruct (Rlt_dec _ _); [lia|]. destruct (Z.even _); lia.
Qed.

Lemma round_half_even_IZR (z : Z) : round_half_even (IZR z) = z.
Proof.
  pose proof (round_half_even_between (IZR z) z z) as H.
  assert (z ≤ round_half_even (IZR z) ≤ z); [apply H; lra|lia].
Qed.

Lemma round_2_between_0_100 (x : R) : (0 <= x <= 100)%R → (0 <= round x 2 <= 100)%R.
Proof.
  intros Hx. unfold round.
  assert ((10 ^ 2 = 100)%R) as -> by (simpl; lra).
  destruct (round_half_even_between (x * 100) 0 10000) as [Hlo Hhi]; [lra|].
  apply IZR_le in Hlo, Hhi. lra.
Qed.

Lemma round_2_nonneg (x : R) : (0 <= x)%R → (0 <= round x 2)%R.
Proof.
  intros Hx. unfold round.
  assert ((10 ^ 2 = 100)%R) as -> by (simpl; lra).
  destruct (base_Int_part (x * 100)) as [Hf1 Hf2].
  assert (0 ≤ Int_part (x * 100)) as Hlo.
  { assert (-1 < Int_part (x * 100)); [|lia]. apply lt_IZR. lra. }
  assert (0 ≤ round_half_even (x * 100)) as Hr.
  { unfold round_half_even. repeat destruct (Rlt_dec _ _); try lia.
    destruct (Z.even _); lia. }
  apply IZR_le in Hr. lra.
Qed.

Lemma round_2_100 : round 100 2 = 100%R.
Proof.
  unfold round. assert ((100 * 10 ^ 2 = IZR 10000)%R) as -> by (simpl; lra).
  rewrite round_half_even_IZR. simpl. lra.
Qed.

(** ** Load balance *)

Lemma sumR_nonneg (l : list R) : (∀ x, x ∈ l → (0 <= x)%R) → (0 <= sumR l)%R.
Proof.
  unfold sumR. induction l as [|x l IH]; simpl; intros H; [lra|].
  assert (0 <= x)%R by (apply H; by left).
  assert (0 <= foldr Rplus 0 l)%R by (apply IH; intros; apply H; by right). lra.
Qed.

Lemma sumR_zero_iff (l : list R) :
  (∀ x, x ∈ l → (0 <= x)%R) → sumR l = 0%R ↔ ∀ x, x ∈ l → x = 0%R.
Proof.
  induction l as [|x l IH]; intros Hnn.
  - split; [intros _ x Hx; by apply elem_of_nil in Hx|reflexivity].
  - assert (0 <= x)%R as Hx by (apply Hnn; by left).
    assert (∀ y, y ∈ l → (0 <= y)%R) as Hl by (intros; apply Hnn; by right).
    pose proof (sumR_nonneg l Hl) as Hs. specialize (IH Hl).
    change (sumR (x :: l)) with (x + sumR l)%R. split.
    + intros Hsum y Hy. apply elem_of_cons in Hy as [->|Hy]; [lra|].
      apply IH; [lra|assumption].
    + intros Hall. rewrite (Hall x) by (by left).
      rewrite (proj2 IH) by (intros; apply Hall; by right). lra.
Qed.

Lemma sumZ_const (l : list Z) (c : Z) :
  (∀ x, x ∈ l → x = c) → sumZ l = c * Z.of_nat (length l).
Proof.
  unfold sumZ. induction l as [|x l IH]; intros H; simpl length; simpl foldr; [lia|].
  rewrite IH by (intros; apply H; by right). rewrite (H x) by (by left). lia.
Qed.

Lemma sumZ_lower (l : list Z) :
  (∀ x, x ∈ l → 1 ≤ x) → Z.of_nat (length l) ≤ sumZ l.
Proof.
  unfold sumZ. induction l as [|x l IH]; intros H; simpl length; simpl foldr; [lia|].
  assert (1 ≤ x) by (apply H; by left).
  assert (Z.of_nat (length l) ≤ foldr Z.add 0 l) by (apply IH; intros; apply H; by right).
  lia.
Qed.

Lemma length_pos_INR {A : Type} (l : list A) : l ≠ [] → (0 < INR (length l))%R.
Proof. intros Hne. apply lt_0_INR. destruct l; [congruence|simpl; lia]. Qed.

Section LoadBalanceFacts.
Variable l : list Z.
Hypothesis l_nonempty : l ≠ [].
Hypothesis l_positive : ∀ x, x ∈ l → 1 ≤ x.

Lemma avg_of_pos : (0 < avg_of l)%R.
Proof.
  unfold avg_of. pose proof (length_pos_INR l l_nonempty) as Hn.
  apply Rdiv_lt_0_compat; [|assumption].
  apply Rlt_le_trans with (INR (length l)); [assumption|].
  rewrite INR_IZR_INZ. apply IZR_le, sumZ_lower, l_positive.
Qed.

Lemma variance_of_nonneg : (0 <= variance_of l)%R.
Proof.
  unfold variance_of. pose proof (length_pos_INR l l_nonempty) as Hn.
  apply Rmult_le_pos; [|left; by apply Rinv_0_lt_compat].
  apply sumR_nonneg. intros x Hx. apply list_elem_of_fmap in Hx as (z & -> & _).
  apply pow2_ge_0.
Qed.

Lemma variance_of_zero_iff :
  variance_of l = 0%R ↔ ∀ x y, x ∈ l → y ∈ l → x = y.
Proof.
  pose proof (length_pos_INR l l_nonempty) as Hn.
  assert (variance_of l = 0%R ↔ ∀ x, x ∈ l → IZR x = avg_of l) as ->.
  { unfold variance_of. split.
    - intros Hv x Hx.
      assert (sumR (map (fun x => (IZR x - avg_of l) ^ 2) l) = 0)%R as Hs.
      { apply Rmult_integral in Hv as [Hv|Hv]; [assumption|].
        exfalso. apply (Rinv_neq_0_compat (INR (length l))); [lra|assumption]. }
      rewrite sumR_zero_iff in Hs.
      + specialize (Hs ((IZR x - avg_of l) ^ 2)%R).
        assert ((IZR x - avg_of l) ^ 2 = 0)%R as Hsq
          by (apply Hs, list_elem_of_fmap; eauto).
        simpl in Hsq. rewrite Rmult_1_r in Hsq.
        apply Rmult_integral in Hsq as [Hsq|Hsq]; lra.
      + intros y Hy. apply list_elem_of_fmap in Hy as (z & -> & _). apply pow2_ge_0.
    - intros Hall.
      assert (sumR (map (fun x => (IZR x - avg_of l) ^ 2) l) = 0)%R as ->.
      { apply sumR_zero_iff.
        - intros y Hy. apply list_elem_of_fmap in Hy as (z & -> & _). apply pow2_ge_0.
        - intros y Hy. apply list_elem_of_fmap in Hy as (z & -> & Hz).
          rewrite (Hall z Hz). simpl. lra. }
      unfold Rdiv. lra. }
  split.
  - intros Hall x y Hx Hy. apply eq_IZR. by rewrite (Hall x Hx), (Hall y Hy).
  - intros Heq x Hx. unfold avg_of.
    rewrite (sumZ_const l x) by (intros y Hy; by apply Heq).
    rewrite mult_IZR, <- INR_IZR_INZ. field. lra.
Qed.

Lemma coefficient_of_variation_of_eq :
  coefficient_of_variation_of l = (sqrt (variance_of l) / avg_of l)%R.
Proof.
  unfold coefficient_of_variation_of, std_dev_of.
  destruct (Rlt_dec 0 (avg_of l)) as [|Hn]; [reflexivity|].
  exfalso. apply Hn, avg_of_pos.
Qed.

Lemma load_balance_of_100_iff :
  load_balance_of l = 100%R ↔ ∀ x y, x ∈ l → y ∈ l → x = y.
Proof.
  rewrite <- variance_of_zero_iff.
  unfold load_balance_of. rewrite coefficient_of_variation_of_eq.
  pose proof avg_of_pos as Havg. pose proof variance_of_nonneg as Hvar.
  pose proof (sqrt_pos (variance_of l)) as Hsq.
  assert (0 <= sqrt (variance_of l) / avg_of l)%R as Hcv.
  { apply Rmult_le_pos; [assumption|]. left. by apply Rinv_0_lt_compat. }
  split.
  - intros H100. apply sqrt_eq_0; [assumption|].
    destruct (Req_dec (sqrt (variance_of l)) 0) as [|Hne]; [assumption|].
    exfalso.
    assert (0 < sqrt (variance_of l) / avg_of l)%R as Hpos.
    { apply Rdiv_lt_0_compat; lra. }
    revert H100. unfold Rmax, Rmin.
    repeat destruct (Rle_dec _ _); lra.
  - intros ->. rewrite sqrt_0. unfold Rdiv. rewrite Rmult_0_l.
    unfold Rmax, Rmin. repeat destruct (Rle_dec _ _); lra.
Qed.
End LoadBalanceFacts.

Lemma load_balance_of_bounds (l : list Z) : (0 <= load_balance_of l <= 100)%R.
Proof.
  unfold load_balance_of, Rmax, Rmin. repeat destruct (Rle_dec _ _); lra.
Qed.

Lemma load_balance_score_bounds (schedule : list Assignment) :
  (0 <= load_balance_score schedule <= 100)%R.
Proof.
  unfold load_balance_score.
  destruct (dict_values (employee_shifts schedule)); [lra|apply load_balance_of_bounds].
Qed.

(** C6, as the code has it.  The reported [load_balance_score] is the raw score
    rounded to 2 decimals and lies in [0, 100].  For the empty schedule the
    raw score is 0.  For a non-empty schedule the raw score is
    clamp(100 * (1 - cv), 0, 100) with cv = stddev / avg taken over the counts
    of the employees that occur in the schedule, and it equals 100 exactly
    when all those counts are equal, in which case the reported score is 100
    too. *)
Theorem load_balance_score_of_present_employees (schedule : list Assignment) :
  let stats := _calculate_statistics schedule in
  let ids := present schedule in
  let n := INR (length ids) in
  let avg := (IZR (sumZ (map (cnt schedule) ids)) / n)%R in
  let var := (sumR (map (fun id => (IZR (cnt schedule id) - avg) ^ 2) ids) / n)%R in
  stat_load_balance_score stats = round (load_balance_score schedule) 2 ∧
  (0 <= stat_load_balance_score stats <= 100)%R ∧
  (schedule = [] → load_balance_score schedule = 0%R ∧
                   stat_load_balance_score stats = 0%R) ∧
  (schedule ≠ [] →
     load_balance_score schedule = Rmax 0 (Rmin 100 (100 * (1 - sqrt var / avg))) ∧
     (load_balance_score schedule = 100%R ↔
      ∀ id1 id2, id1 ∈ ids → id2 ∈ ids → cnt schedule id1 = cnt schedule id2) ∧
     ((∀ id1 id2, id1 ∈ ids → id2 ∈ ids → cnt schedule id1 = cnt schedule id2) →
      stat_load_balance_score stats = 100%R)).
Proof.
  intros stats ids n avg var. split; [reflexivity|]. split; [|split].
  - apply round_2_between_0_100, load_balance_score_bounds.
  - intros ->. split; [reflexivity|]. simpl.
    change (load_balance_score []) with 0%R.
    unfold round. rewrite Rmult_0_l. change 0%R with (IZR 0).
    rewrite round_half_even_IZR. simpl. lra.
  - intros Hne.
    destruct (statistics_of_counts schedule Hne) as (_ & _ & Hlb).
    set (l := map (cnt schedule) ids).
    change (map (cnt schedule) (present schedule)) with l in Hlb.
    assert (l ≠ []) as Hl.
    { unfold l. intros Hnil. apply map_eq_nil in Hnil. by apply present_nil in Hnil. }
    assert (∀ x, x ∈ l → 1 ≤ x) as Hpos.
    { intros x Hx. apply list_elem_of_fmap in Hx as (id & -> & Hid).
      by apply cnt_present_pos. }
    assert (load_balance_of l = 100%R ↔
            ∀ id1 id2, id1 ∈ ids → id2 ∈ ids → cnt schedule id1 = cnt schedule id2)
      as Hiff.
    { rewrite (load_balance_of_100_iff l Hl Hpos). split.
      - intros H id1 id2 H1 H2. apply H; apply list_elem_of_fmap; eauto.
      - intros H x y Hx Hy.
        apply list_elem_of_fmap in Hx as (id1 & -> & H1).
        apply list_elem_of_fmap in Hy as (id2 & -> & H2). by apply H. }
    split; [|split].
    + rewrite Hlb. unfold load_balance_of.
      rewrite (coefficient_of_variation_of_eq l Hl Hpos).
      unfold variance_of, avg_of, l. rewrite length_map, map_map_counts. reflexivity.
    + rewrite Hlb. exact Hiff.
    + intros Hall. simpl. rewrite Hlb, (proj2 Hiff Hall). apply round_2_100.
Qed.

(** C6, refuted as stated: for the empty schedule, in which all per-employee
    counts are vacuously equal, the score is 0 and not 100. *)
Lemma empty_schedule_load_balance_zero :
  (∀ id1 id2, id1 ∈ present [] → id2 ∈ present [] → cnt [] id1 = cnt [] id2) ∧
  stat_load_balance_score (_calculate_statistics []) = 0%R ∧
  stat_load_balance_score (_calculate_statistics []) ≠ 100%R.
Proof.
  assert (stat_load_balance_score (_calculate_statistics []) = 0%R) as H0.
  { simpl. change (load_balance_score []) with 0%R.
    unfold round. rewrite Rmult_0_l. change 0%R with (IZR 0).
    rewrite round_half_even_IZR. simpl. lra. }
  split; [intros id1 id2 H1; by apply elem_of_nil in H1|].
  split; [exact H0|]. rewrite H0. lra.
Qed.

(** ** Shannon entropy of a histogram *)

Lemma ln_le_sub1 (x : R) : (0 < x)%R → (ln x <= x - 1)%R.
Proof.
  intros Hx. pose proof (exp_ineq1_le (ln x)) as H.
  rewrite exp_ln in H by assumption. lra.
Qed.

Lemma ln_eq_sub1 (x : R) : (0 < x)%R → ln x = (x - 1)%R → x = 1%R.
Proof.
  intros Hx Heq. destruct (Req_dec x 1) as [|Hne]; [assumption|]. exfalso.
  assert (ln x ≠ 0%R) as Hln by (by apply ln_neq_0).
  pose proof (exp_ineq1 (ln x) Hln) as Hlt.
  rewrite exp_ln in Hlt by assumption. lra.
Qed.

(** One term of Gibbs' inequality against the uniform distribution on [n]
    points. *)
Lemma gibbs_term (p n : R) :
  (0 < p)%R → (0 < n)%R →
  (- (p * ln p) - p * ln n <= / n - p)%R ∧
  ((- (p * ln p) - p * ln n = / n - p)%R → p = (/ n)%R).
Proof.
  intros Hp Hn.
  assert (0 < n * p)%R as Hnp by (by apply Rmult_lt_0_compat).
  assert (0 < / (n * p))%R as Hx by (by apply Rinv_0_lt_compat).
  assert (ln (/ (n * p)) = - ln n - ln p)%R as Hln.
  { rewrite ln_Rinv by assumption. rewrite ln_mult by assumption. lra. }
  assert (p * / (n * p) = / n)%R as Hpx by (field; lra).
  assert (- (p * ln p) - p * ln n = p * ln (/ (n * p)))%R as -> by (rewrite Hln; lra).
  split.
  - pose proof (ln_le_sub1 _ Hx) as Hle.
    apply (Rmult_le_compat_l p) in Hle; lra.
  - intros Heq.
    assert (ln (/ (n * p)) = / (n * p) - 1)%R as Heq'.
    { apply (Rmult_eq_reg_l p); lra. }
    apply ln_eq_sub1 in Heq'; [|assumption].
    rewrite Heq' in Hpx. lra.
Qed.

Lemma sumR_map_ext {A : Type} (f g : A → R) (l : list A) :
  (∀ x, x ∈ l → f x = g x) → sumR (map f l) = sumR (map g l).
Proof.
  unfold sumR. induction l as [|x l IH]; intros H; simpl; [reflexivity|].
  rewrite (H x) by (by left). rewrite IH by (intros; apply H; by right). reflexivity.
Qed.

Lemma sumR_map_le {A : Type} (f g : A → R) (l : list A) :
  (∀ x, x ∈ l → (f x <= g x)%R) → (sumR (map f l) <= sumR (map g l))%R.
Proof.
  unfold sumR. induction l as [|x l IH]; intros H; simpl; [lra|].
  assert (f x <= g x)%R by (apply H; by left).
  assert (foldr Rplus 0 (map f l) <= foldr Rplus 0 (map g l))%R
    by (apply IH; intros; apply H; by right).
  lra.
Qed.

Lemma sumR_map_eq_pointwise {A : Type} (f g : A → R) (l : list A) :
  (∀ x, x ∈ l → (f x <= g x)%R) →
  sumR (map f l) = sumR (map g l) → ∀ x, x ∈ l → f x = g x.
Proof.
  induction l as [|y l IH]; intros Hle Heq x Hx; [by apply elem_of_nil in Hx|].
  assert (f y <= g y)%R as Hy by (apply Hle; by left).
  assert (∀ z, z ∈ l → (f z <= g z)%R) as Hl by (intros; apply Hle; by right).
  pose proof (sumR_map_le f g l Hl) as Hs.
  change (f y + sumR (map f l) = g y + sumR (map g l))%R in Heq.
  apply elem_of_cons in Hx as [->|Hx]; [lra|].
  apply IH; [assumption|lra|assumption].
Qed.

Lemma sumR_map_lin {A : Type} (f g : A → R) (a b c : R) (l : list A) :
  sumR (map (fun x => a * f x + b * g x + c)%R l) =
  (a * sumR (map f l) + b * sumR (map g l) + c * INR (length l))%R.
Proof.
  unfold sumR. induction l as [|x l IH]; [simpl; lra|].
  simpl length. rewrite S_INR. simpl map. simpl foldr. rewrite IH. lra.
Qed.

Lemma sumR_map_IZR (l : list Z) : sumR (map IZR l) = IZR (sumZ l).
Proof.
  unfold sumR, sumZ. induction l as [|x l IH]; simpl; [reflexivity|].
  rewrite IH, plus_IZR. reflexivity.
Qed.

Lemma ln_2_pos : (0 < ln 2)%R.
Proof. rewrite <- ln_1. apply ln_increasing; lra. Qed.

Lemma entropy_counts_perm (l1 l2 : list Z) :
  l1 ≡ₚ l2 → entropy_counts l1 = entropy_counts l2.
Proof.
  intros Hp. unfold entropy_counts. rewrite (sumZ_perm _ _ Hp).
  f_equal. apply sumR_perm, Permutation_map, Hp.
Qed.

Section EntropyFacts.
Variable cs : list Z.
Hypothesis cs_nonempty : cs ≠ [].
Hypothesis cs_positive : ∀ c, c ∈ cs → 1 ≤ c.

Local Abbreviation total := (hist_total cs).
Local Abbreviation n := (hist_size cs).
Local Abbreviation p := (hist_share cs).

Lemma entropy_n_pos : (0 < n)%R.
Proof. exact (length_pos_INR cs cs_nonempty). Qed.

Lemma entropy_total_pos : (0 < total)%R.
Proof.
  unfold hist_total. apply Rlt_le_trans with n; [apply entropy_n_pos|].
  unfold hist_size. rewrite INR_IZR_INZ. apply IZR_le, sumZ_lower, cs_positive.
Qed.

Lemma entropy_p_pos (c : Z) : c ∈ cs → (0 < p c)%R.
Proof.
  intros Hc. unfold hist_share. apply Rdiv_lt_0_compat; [|apply entropy_total_pos].
  apply IZR_lt. specialize (cs_positive c Hc). lia.
Qed.

Lemma entropy_p_sum : sumR (map p cs) = 1%R.
Proof.
  pose proof entropy_total_pos as Ht.
  rewrite (sumR_map_ext p (fun c => / total * IZR c + 0 * 0 + 0)%R)
    by (intros; unfold hist_share; field; lra).
  rewrite (sumR_map_lin IZR (fun _ => 0%R)), sumR_map_IZR. fold (hist_total cs). field. lra.
Qed.

(** The code's entropy is the natural-logarithm entropy divided by [ln 2]. *)
Lemma entropy_counts_nat :
  entropy_counts cs = (- sumR (map (fun c => p c * ln (p c))%R cs) / ln 2)%R.
Proof.
  pose proof ln_2_pos as H2. pose proof entropy_total_pos as Ht.
  unfold entropy_counts. fold (hist_total cs).
  rewrite (sumR_map_ext _ (fun c => / ln 2 * (p c * ln (p c)) + 0 * 0 + 0)%R).
  - rewrite (sumR_map_lin (fun c => p c * ln (p c))%R (fun _ => 0%R)). field. lra.
  - intros c Hc. specialize (cs_positive c Hc).
    destruct (0 <? c) eqn:Hpos; [|apply Z.ltb_ge in Hpos; lia].
    unfold log2, hist_share. field. lra.
Qed.

Lemma entropy_gibbs_sum :
  (- sumR (map (fun c => p c * ln (p c))%R cs) - ln n =
   sumR (map (fun c => - (p c * ln (p c)) - p c * ln n)%R cs))%R ∧
  sumR (map (fun c => / n - p c)%R cs) = 0%R.
Proof.
  pose proof entropy_n_pos as Hn. split.
  - rewrite (sumR_map_ext (fun c => - (p c * ln (p c)) - p c * ln n)%R
               (fun c => -1 * (p c * ln (p c)) + - ln n * p c + 0)%R)
      by (intros; lra).
    rewrite (sumR_map_lin (fun c => p c * ln (p c))%R p), entropy_p_sum. lra.
  - rewrite (sumR_map_ext (fun c => / n - p c)%R
               (fun c => -1 * p c + 0 * 0 + / n)%R) by (intros; lra).
    rewrite (sumR_map_lin p (fun _ => 0%R)), entropy_p_sum. fold (hist_size cs). field. lra.
Qed.

Lemma count_le_total (c : Z) : c ∈ cs → c ≤ sumZ cs.
Proof.
  clear cs_nonempty. revert cs_positive.
  induction cs as [|x xs IH]; intros Hpos Hc; [by apply elem_of_nil in Hc|].
  assert (0 ≤ sumZ xs) as Hxs.
  { assert (Z.of_nat (length xs) ≤ sumZ xs)
      by (apply sumZ_lower; intros; apply Hpos; by right). lia. }
  assert (1 ≤ x) by (apply Hpos; by left).
  change (sumZ (x :: xs)) with (x + sumZ xs).
  apply elem_of_cons in Hc as [->|Hc]; [lia|].
  assert (c ≤ sumZ xs); [|lia].
  apply IH; [intros; apply Hpos; by right|assumption].
Qed.

Lemma entropy_p_le_1 (c : Z) : c ∈ cs → (p c <= 1)%R.
Proof.
  intros Hc. pose proof entropy_total_pos as Ht. unfold hist_share.
  apply (Rmult_le_reg_r total); [assumption|].
  unfold Rdiv. rewrite Rmult_assoc, Rinv_l, Rmult_1_r, Rmult_1_l by lra.
  unfold hist_total. by apply IZR_le, count_le_total.
Qed.

Lemma entropy_counts_nonneg : (0 <= entropy_counts cs)%R.
Proof.
  rewrite entropy_counts_nat. pose proof ln_2_pos as H2.
  apply Rmult_le_pos; [|left; by apply Rinv_0_lt_compat].
  assert (sumR (map (fun c => p c * ln (p c))%R cs)
          <= sumR (map (fun _ => 0 * 0 + 0 * 0 + 0)%R cs))%R as Hle.
  { apply sumR_map_le. intros c Hc.
    pose proof (entropy_p_pos c Hc) as Hp.
    pose proof (entropy_p_le_1 c Hc) as Hp1.
    pose proof (ln_le_sub1 _ Hp) as Hln.
    assert (0 <= p c * - ln (p c))%R by (apply Rmult_le_pos; lra). lra. }
  rewrite (sumR_map_lin (fun _ : Z => 0%R) (fun _ => 0%R)) in Hle. lra.
Qed.

Lemma entropy_counts_le_log2_length :
  (entropy_counts cs <= log2 (INR (length cs)))%R.
Proof.
  fold (hist_size cs).
  rewrite entropy_counts_nat. pose proof ln_2_pos as H2. pose proof entropy_n_pos as Hn.
  destruct entropy_gibbs_sum as [Hf Hg].
  assert (sumR (map (fun c => - (p c * ln (p c)) - p c * ln n)%R cs)
          <= sumR (map (fun c => / n - p c)%R cs))%R as Hle.
  { apply sumR_map_le. intros c Hc. apply gibbs_term; [by apply entropy_p_pos|assumption]. }
  unfold log2. apply Rmult_le_compat_r; [left; by apply Rinv_0_lt_compat|]. lra.
Qed.

Lemma entropy_counts_max_iff :
  entropy_counts cs = log2 (INR (length cs)) ↔
  ∀ c, c ∈ cs → c * Z.of_nat (length cs) = sumZ cs.
Proof.
  fold (hist_size cs).
  rewrite entropy_counts_nat. pose proof ln_2_pos as H2. pose proof entropy_n_pos as Hn.
  pose proof entropy_total_pos as Ht.
  destruct entropy_gibbs_sum as [Hf Hg].
  assert (∀ c, c ∈ cs →
            (- (p c * ln (p c)) - p c * ln n <= / n - p c)%R) as Hle.
  { intros c Hc. apply gibbs_term; [by apply entropy_p_pos|assumption]. }
  assert (∀ c, c ∈ cs → ((p c = / n)%R ↔ c * Z.of_nat (length cs) = sumZ cs)) as Hunif.
  { intros c Hc. unfold hist_share, hist_total, hist_size. rewrite INR_IZR_INZ. split.
    - intros Heq. apply eq_IZR. rewrite mult_IZR.
      fold (hist_total cs). fold (hist_total cs) in Heq. rewrite <- INR_IZR_INZ in *. fold (hist_size cs) in Heq |- *.
      apply (Rmult_eq_compat_r (total * n)) in Heq.
      field_simplify in Heq; lra.
    - intros Heq. apply (f_equal IZR) in Heq. rewrite mult_IZR in Heq.
      fold (hist_total cs) in Heq |- *. rewrite <- INR_IZR_INZ in *. fold (hist_size cs) in Heq |- *.
      apply (Rmult_eq_reg_r (total * n)); [|nra].
      field_simplify; lra. }
  unfold log2. split.
  - intros Heq c Hc. apply Hunif; [assumption|].
    apply gibbs_term; [by apply entropy_p_pos|assumption|].
    apply (sumR_map_eq_pointwise _ _ cs Hle); [|assumption].
    assert (- sumR (map (fun c => p c * ln (p c))%R cs) = ln n)%R.
    { apply (Rmult_eq_reg_r (/ ln 2)); [exact Heq|].
      apply Rinv_neq_0_compat. lra. }
    lra.
  - intros Hall. f_equal.
    assert (sumR (map (fun c => - (p c * ln (p c)) - p c * ln n)%R cs) =
            sumR (map (fun c => / n - p c)%R cs)) as Heq.
    { apply sumR_map_ext. intros c Hc.
      assert (p c = / n)%R as Hp by (apply Hunif; [assumption|by apply Hall]).
      rewrite Hp. rewrite ln_Rinv by assumption. field. lra. }
    lra.
Qed.
End EntropyFacts.

(** ** Shift-type histograms per employee *)

Lemma assignments_of_snoc (schedule : list Assignment) (a : Assignment) (id : Id) :
  assignments_of (schedule ++ [a]) id =
  if decide (employee_id a = id) then assignments_of schedule id ++ [a]
  else assignments_of schedule id.
Proof.
  unfold assignments_of. rewrite filter_app, filter_cons, filter_nil.
  destruct (decide (employee_id a = id)); [reflexivity|apply app_nil_r].
Qed.

Lemma cnt_snoc (schedule : list Assignment) (a : Assignment) (id : Id) :
  cnt (schedule ++ [a]) id = cnt schedule id + (if decide (employee_id a = id) then 1 else 0).
Proof. apply (occurrences_snoc employee_id). Qed.

Lemma cnt_length (schedule : list Assignment) (id : Id) :
  cnt schedule id = Z.of_nat (length (assignments_of schedule id)).
Proof. reflexivity. Qed.

Lemma employee_shift_types_snoc (schedule : list Assignment) (a : Assignment) :
  employee_shift_types (schedule ++ [a]) =
  let dist := default [] (dict_get (employee_shift_types schedule) (employee_id a)) in
  dict_set (employee_shift_types schedule) (employee_id a)
    (dict_set dist (shift_id a) (default 0 (dict_get dist (shift_id a)) + 1)).
Proof. unfold employee_shift_types. rewrite fold_left_app. reflexivity. Qed.

(** The histogram stored for an employee is the one counted over that
    employee's assignments. *)
Lemma employee_shift_types_get (schedule : list Assignment) (id : Id) :
  dict_get (employee_shift_types schedule) id =
  if decide (cnt schedule id = 0) then None
  else Some (count_by shift_id (assignments_of schedule id)).
Proof.
  induction schedule as [|a schedule IH] using rev_ind; [reflexivity|].
  rewrite employee_shift_types_snoc, cnt_snoc, assignments_of_snoc. cbv zeta.
  rewrite dict_get_set.
  pose proof (occurrences_nonneg employee_id schedule id) as Hnn. fold (cnt schedule id) in Hnn.
  destruct (decide (employee_id a = id)) as [->|Hne].
  - rewrite IH.
    assert (default [] (if decide (cnt schedule id = 0) then None
                        else Some (count_by shift_id (assignments_of schedule id)))
            = count_by shift_id (assignments_of schedule id)) as ->.
    { destruct (decide (cnt schedule id = 0)) as [H0|]; [|reflexivity].
      rewrite cnt_length in H0.
      destruct (assignments_of schedule id); [reflexivity|simpl in H0; lia]. }
    rewrite <- (count_by_snoc shift_id).
    destruct (decide (cnt schedule id + 1 = 0)); [lia|reflexivity].
  - rewrite IH, Z.add_0_r. reflexivity.
Qed.

Lemma employee_shift_types_NoDup (schedule : list Assignment) :
  NoDup (dict_keys (employee_shift_types schedule)).
Proof.
  induction schedule as [|a schedule IH] using rev_ind; [constructor|].
  rewrite employee_shift_types_snoc. by apply dict_keys_NoDup_set.
Qed.

Lemma employee_shift_types_keys_perm (schedule : list Assignment) :
  dict_keys (employee_shift_types schedule) ≡ₚ present schedule.
Proof.
  apply NoDup_Permutation; [apply employee_shift_types_NoDup|apply NoDup_remove_dups|].
  intros id. unfold present.
  rewrite elem_of_remove_dups, <- (occurrences_pos_iff employee_id).
  fold (cnt schedule id).
  pose proof (dict_get_None (employee_shift_types schedule) id) as Hn.
  pose proof (employee_shift_types_get schedule id) as Hg.
  destruct (decide (cnt schedule id = 0)) as [H0|H0].
  - split; [intros Hin|intros; contradiction].
    exfalso. by apply (proj1 Hn Hg).
  - split; [intros _; exact H0|intros _].
    destruct (decide (id ∈ dict_keys (employee_shift_types schedule))) as [|Hnin];
      [assumption|].
    apply Hn in Hnin. congruence.
Qed.

(** The histogram of a present employee: positive counts that sum to the
    employee's number of assignments. *)
Lemma histogram_values (schedule : list Assignment) (id : Id) :
  id ∈ present schedule →
  let cs := dict_values (count_by shift_id (assignments_of schedule id)) in
  cs ≠ [] ∧ (∀ c, c ∈ cs → 1 ≤ c) ∧ sumZ cs = cnt schedule id ∧
  cs ≡ₚ map (shift_cnt schedule id) (shift_types schedule id).
Proof.
  intros Hid cs.
  pose proof (cnt_present_pos schedule id Hid) as Hpos.
  pose proof (count_by_values_perm shift_id (assignments_of schedule id)) as Hperm.
  fold cs in Hperm. fold (shift_types schedule id) in Hperm.
  assert (sumZ cs = cnt schedule id) as Hsum
    by (unfold cs; rewrite count_by_sum; reflexivity).
  split; [|split; [|split]]; [| |assumption|exact Hperm].
  - intros Hnil. rewrite Hnil in Hsum. simpl in Hsum. unfold sumZ in Hsum. simpl in Hsum. lia.
  - intros c Hc. rewrite Hperm in Hc.
    apply list_elem_of_fmap in Hc as (sid & -> & Hsid).
    unfold shift_types in Hsid. rewrite elem_of_remove_dups in Hsid.
    apply (occurrences_pos_iff shift_id) in Hsid.
    pose proof (occurrences_nonneg shift_id (assignments_of schedule id) sid).
    unfold shift_cnt. lia.
Qed.

Lemma shift_cnt_pos (schedule : list Assignment) (id sid : Id) :
  sid ∈ shift_types schedule id → 1 ≤ shift_cnt schedule id sid.
Proof.
  unfold shift_types, shift_cnt. rewrite elem_of_remove_dups.
  intros Hsid. apply (occurrences_pos_iff shift_id) in Hsid.
  pose proof (occurrences_nonneg shift_id (assignments_of schedule id) sid). lia.
Qed.

(** The code's entropy of a present employee's histogram is the Shannon
    entropy of the employee's shift-type distribution. *)
Lemma entropy_shannon (schedule : list Assignment) (id : Id) :
  id ∈ present schedule →
  entropy (count_by shift_id (assignments_of schedule id)) = shannon schedule id.
Proof.
  intros Hid.
  destruct (histogram_values schedule id Hid) as (_ & _ & Hsum & Hperm).
  change (entropy (count_by shift_id (assignments_of schedule id)))
    with (entropy_counts (dict_values (count_by shift_id (assignments_of schedule id)))).
  rewrite (entropy_counts_perm _ _ Hperm).
  rewrite (sumZ_perm _ _ Hperm) in Hsum.
  unfold entropy_counts, shannon. rewrite Hsum, map_map. f_equal.
  apply sumR_map_ext. intros sid Hsid.
  pose proof (shift_cnt_pos schedule id sid Hsid) as Hpos.
  destruct (0 <? shift_cnt schedule id sid) eqn:Hlt; [reflexivity|].
  apply Z.ltb_ge in Hlt. lia.
Qed.

(** ** The diversity score *)

Lemma max_entropy_pos : (0 < max_entropy)%R.
Proof.
  unfold max_entropy, log2. apply Rdiv_lt_0_compat; [|apply ln_2_pos].
  rewrite <- ln_1. apply ln_increasing; lra.
Qed.

Lemma diversity_score_eq (shift_dist : list (Id * Z)) :
  diversity_score shift_dist = (entropy shift_dist / log2 3 * 100)%R.
Proof.
  unfold diversity_score. destruct (Rlt_dec 0 max_entropy) as [|Hn]; [reflexivity|].
  exfalso. apply Hn, max_entropy_pos.
Qed.

Lemma log2_le (x y : R) : (0 < x)%R → (x <= y)%R → (log2 x <= log2 y)%R.
Proof.
  intros Hx Hxy. unfold log2. pose proof ln_2_pos as H2.
  apply Rmult_le_compat_r; [left; by apply Rinv_0_lt_compat|].
  destruct (Req_dec x y) as [->|Hne]; [lra|]. left. apply ln_increasing; lra.
Qed.

Lemma log2_inj (x y : R) : (0 < x)%R → (0 < y)%R → log2 x = log2 y → x = y.
Proof.
  intros Hx Hy Heq. unfold log2 in Heq. pose proof ln_2_pos as H2.
  apply ln_inv; [assumption..|].
  apply (Rmult_eq_reg_r (/ ln 2)); [exact Heq|]. apply Rinv_neq_0_compat. lra.
Qed.

Section DiversityFacts.
Variable cs : list Z.
Hypothesis cs_nonempty : cs ≠ [].
Hypothesis cs_positive : ∀ c, c ∈ cs → 1 ≤ c.

Lemma normalised_entropy_nonneg : (0 <= entropy_counts cs / log2 3 * 100)%R.
Proof.
  pose proof (entropy_counts_nonneg cs cs_nonempty cs_positive) as He.
  pose proof max_entropy_pos as Hm. unfold max_entropy in Hm.
  apply Rmult_le_pos; [|lra]. apply Rmult_le_pos; [assumption|].
  left. by apply Rinv_0_lt_compat.
Qed.

Lemma normalised_entropy_100_if :
  length cs = 3%nat → (∀ c, c ∈ cs → c * 3 = sumZ cs) →
  (entropy_counts cs / log2 3 * 100)%R = 100%R.
Proof.
  intros Hlen Hunif. pose proof max_entropy_pos as Hm. unfold max_entropy in Hm.
  assert (entropy_counts cs = log2 3) as ->.
  { replace 3%R with (INR (length cs)) by (rewrite Hlen; simpl; lra).
    apply (entropy_counts_max_iff cs cs_nonempty cs_positive).
    rewrite Hlen. exact Hunif. }
  field. lra.
Qed.

Hypothesis cs_at_most_3 : (length cs ≤ 3)%nat.

Lemma normalised_entropy_le_100 : (entropy_counts cs / log2 3 * 100 <= 100)%R.
Proof.
  pose proof (entropy_counts_le_log2_length cs cs_nonempty cs_positive) as He.
  pose proof (length_pos_INR cs cs_nonempty) as Hn.
  pose proof max_entropy_pos as Hm. unfold max_entropy in Hm.
  assert (log2 (INR (length cs)) <= log2 3)%R as Hl.
  { apply log2_le; [assumption|]. apply le_INR in cs_at_most_3.
    simpl in cs_at_most_3. lra. }
  apply (Rmult_le_reg_r (log2 3 / 100)); [lra|]. field_simplify; lra.
Qed.

Lemma normalised_entropy_100_only_if :
  (entropy_counts cs / log2 3 * 100)%R = 100%R →
  length cs = 3%nat ∧ ∀ c, c ∈ cs → c * 3 = sumZ cs.
Proof.
  intros H100.
  pose proof (entropy_counts_le_log2_length cs cs_nonempty cs_positive) as He.
  pose proof (length_pos_INR cs cs_nonempty) as Hn.
  pose proof max_entropy_pos as Hm. unfold max_entropy in Hm.
  assert (log2 (INR (length cs)) <= log2 3)%R as Hl.
  { apply log2_le; [assumption|]. apply le_INR in cs_at_most_3.
    simpl in cs_at_most_3. lra. }
  assert (entropy_counts cs = log2 3) as Heq.
  { apply (Rmult_eq_reg_r (/ log2 3 * 100)).
    - rewrite <- Rmult_assoc. fold (entropy_counts cs / log2 3)%R. rewrite H100.
      field. lra.
    - apply Rmult_integral_contrapositive_currified; [|lra].
      apply Rinv_neq_0_compat. lra. }
  assert (length cs = 3%nat) as Hlen.
  { apply INR_eq. simpl. apply log2_inj; [assumption|lra|]. 
    replace (1 + 1 + 1)%R with 3%R by lra. lra. }
  split; [assumption|].
  pose proof (proj1 (entropy_counts_max_iff cs cs_nonempty cs_positive)) as Hmax.
  rewrite Hlen in Hmax. apply Hmax. simpl. replace (1 + 1 + 1)%R with 3%R by lra.
  exact Heq.
Qed.
End DiversityFacts.

(** ** The mean of the diversity scores *)

Lemma sumR_const {A : Type} (c : R) (l : list A) :
  sumR (map (fun _ => c) l) = (c * INR (length l))%R.
Proof.
  unfold sumR. induction l as [|x l IH]; [simpl; lra|].
  simpl length. rewrite S_INR. simpl map. simpl foldr. rewrite IH. lra.
Qed.

Section MeanFacts.
Variable l : list R.
Hypothesis l_nonempty : l ≠ [].

Lemma mean_nonneg : (∀ x, x ∈ l → (0 <= x)%R) → (0 <= sumR l / INR (length l))%R.
Proof.
  intros H. pose proof (length_pos_INR l l_nonempty) as Hn.
  apply Rmult_le_pos; [by apply sumR_nonneg|left; by apply Rinv_0_lt_compat].
Qed.

Lemma mean_le (b : R) : (∀ x, x ∈ l → (x <= b)%R) → (sumR l / INR (length l) <= b)%R.
Proof.
  intros H. pose proof (length_pos_INR l l_nonempty) as Hn.
  pose proof (sumR_map_le (fun x => x) (fun _ => b) l H) as Hle.
  rewrite map_id, sumR_const in Hle.
  apply (Rmult_le_reg_r (INR (length l))); [assumption|].
  unfold Rdiv. rewrite Rmult_assoc, Rinv_l, Rmult_1_r by lra. exact Hle.
Qed.

Lemma mean_eq_bound (b : R) :
  (∀ x, x ∈ l → (x <= b)%R) → (sumR l / INR (length l))%R = b → ∀ x, x ∈ l → x = b.
Proof.
  intros H Heq. pose proof (length_pos_INR l l_nonempty) as Hn.
  apply (sumR_map_eq_pointwise (fun x => x) (fun _ => b) l H).
  rewrite map_id, sumR_const, <- Heq. field. lra.
Qed.

Lemma mean_all_equal (b : R) :
  (∀ x, x ∈ l → x = b) → (sumR l / INR (length l))%R = b.
Proof.
  intros H. pose proof (length_pos_INR l l_nonempty) as Hn.
  rewrite <- (map_id l) at 1.
  rewrite (sumR_map_ext (fun x => x) (fun _ => b) l H), sumR_const. field. lra.
Qed.
End MeanFacts.

(** What the code computes for one present employee. *)
Lemma employee_score_facts (schedule : list Assignment) (id : Id) :
  id ∈ present schedule →
  let sc := diversity_score (count_by shift_id (assignments_of schedule id)) in
  sc = (shannon schedule id / log2 3 * 100)%R ∧
  (0 <= sc)%R ∧
  (uniform_over schedule id 3 → sc = 100%R) ∧
  ((length (shift_types schedule id) ≤ 3)%nat →
   (sc <= 100)%R ∧ (sc = 100%R → uniform_over schedule id 3)).
Proof.
  intros Hid sc.
  destruct (histogram_values schedule id Hid) as (Hne & Hpos & Hsum & Hperm).
  set (cs := dict_values (count_by shift_id (assignments_of schedule id))) in *.
  assert (sc = (entropy_counts cs / log2 3 * 100)%R) as Hsc
    by (unfold sc; rewrite diversity_score_eq; reflexivity).
  assert (length cs = length (shift_types schedule id)) as Hlen
    by (rewrite (Permutation_length Hperm); apply length_map).
  assert ((∀ c, c ∈ cs → c * 3 = sumZ cs) ↔
          (∀ sid, sid ∈ shift_types schedule id →
                  shift_cnt schedule id sid * Z.of_nat 3 = cnt schedule id)) as Hunif.
  { rewrite Hsum. split.
    - intros H sid Hsid. apply H. rewrite Hperm. apply list_elem_of_fmap. eauto.
    - intros H c Hc. rewrite Hperm in Hc.
      apply list_elem_of_fmap in Hc as (sid & -> & Hsid). by apply H. }
  split; [|split; [|split]].
  - unfold sc. rewrite diversity_score_eq, entropy_shannon by assumption. reflexivity.
  - rewrite Hsc. by apply normalised_entropy_nonneg.
  - intros [Hk Hu]. rewrite Hsc. apply normalised_entropy_100_if; try assumption.
    + congruence.
    + by apply Hunif.
  - intros Hk. rewrite <- Hlen in Hk. rewrite Hsc. split.
    + by apply normalised_entropy_le_100.
    + intros H100.
      destruct (normalised_entropy_100_only_if cs Hne Hpos Hk H100) as [H3 Hu].
      split; [congruence|by apply Hunif].
Qed.

Lemma shift_diversity_scores_keys (schedule : list Assignment) :
  shift_diversity_scores schedule =
  map (fun id => diversity_score (count_by shift_id (assignments_of schedule id)))
      (dict_keys (employee_shift_types schedule)).
Proof.
  unfold shift_diversity_scores.
  assert (∀ est : list (Id * list (Id * Z)),
            (∀ id dist, (id, dist) ∈ est →
               0 < sumZ (dict_values dist) ∧
               dist = count_by shift_id (assignments_of schedule id)) →
            flat_map (fun '(_, shift_dist) =>
                        if 0 <? sumZ (dict_values shift_dist)
                        then [diversity_score shift_dist] else []) est =
            map (fun id => diversity_score (count_by shift_id (assignments_of schedule id)))
                (dict_keys est)) as Hgen.
  { induction est as [|[id dist] est IH]; intros H; [reflexivity|].
    destruct (H id dist) as [Hpos Heq]; [by left|].
    simpl. apply Z.ltb_lt in Hpos. rewrite Hpos. simpl. rewrite <- Heq. f_equal.
    apply IH. intros id' dist' Hin. apply H. by right. }
  apply Hgen. intros id dist Hin.
  apply dict_get_elem in Hin; [|apply employee_shift_types_NoDup].
  rewrite employee_shift_types_get in Hin.
  destruct (decide (cnt schedule id = 0)) as [|Hne]; [discriminate|].
  injection Hin as <-. split; [|reflexivity].
  rewrite count_by_sum, <- cnt_length.
  pose proof (occurrences_nonneg employee_id schedule id) as Hnn.
  fold (cnt schedule id) in Hnn. lia.
Qed.

Lemma shift_diversity_scores_perm (schedule : list Assignment) :
  shift_diversity_scores schedule ≡ₚ
  map (fun id => diversity_score (count_by shift_id (assignments_of schedule id)))
      (present schedule).
Proof.
  rewrite shift_diversity_scores_keys.
  apply Permutation_map, employee_shift_types_keys_perm.
Qed.

Lemma avg_shift_diversity_present (schedule : list Assignment) :
  schedule ≠ [] →
  avg_shift_diversity schedule =
  (sumR (map (fun id => diversity_score (count_by shift_id (assignments_of schedule id)))
             (present schedule))
   / INR (length (present schedule)))%R.
Proof.
  intros Hne. pose proof (shift_diversity_scores_perm schedule) as Hperm.
  unfold avg_shift_diversity.
  destruct (shift_diversity_scores schedule) as [|x xs] eqn:Hs.
  - apply Permutation_nil_l in Hperm. symmetry in Hperm.
    apply map_eq_nil in Hperm. by apply present_nil in Hperm.
  - rewrite (sumR_perm _ _ Hperm), (Permutation_length Hperm), length_map. reflexivity.
Qed.

(** C4, as the code has it.  The reported [avg_shift_diversity] is, rounded
    to 2 decimals, the mean over the employees with at least one assignment of
    the Shannon entropy of the employee's shift-type distribution divided by
    the constant log2(3) and scaled to 100 (0 for the empty schedule).  It is
    never negative.  If every such employee works exactly three shift types
    equally often the mean and the reported value are 100.  When no employee
    works more than three shift types the reported value is at most 100, and
    the mean is 100 only if the schedule is non-empty and every such employee
    works exactly three shift types equally often. *)
Theorem shift_diversity_normalised_by_three_types (schedule : list Assignment) :
  let stats := _calculate_statistics schedule in
  let ids := present schedule in
  let score := fun id => (shannon schedule id / log2 3 * 100)%R in
  stat_avg_shift_diversity stats = round (avg_shift_diversity schedule) 2 ∧
  (0 <= stat_avg_shift_diversity stats)%R ∧
  (schedule = [] → avg_shift_diversity schedule = 0%R) ∧
  (schedule ≠ [] →
     avg_shift_diversity schedule = (sumR (map score ids) / INR (length ids))%R) ∧
  (schedule ≠ [] ∧ (∀ id, id ∈ ids → uniform_over schedule id 3) →
     avg_shift_diversity schedule = 100%R ∧ stat_avg_shift_diversity stats = 100%R) ∧
  ((∀ id, id ∈ ids → (length (shift_types schedule id) ≤ 3)%nat) →
     (stat_avg_shift_diversity stats <= 100)%R ∧
     (avg_shift_diversity schedule = 100%R →
      schedule ≠ [] ∧ ∀ id, id ∈ ids → uniform_over schedule id 3)).
Proof.
  intros stats ids score.
  assert (schedule = [] ∨ schedule ≠ []) as Hcases
    by (destruct schedule; [by left|by right]).
  set (sc := fun id => diversity_score (count_by shift_id (assignments_of schedule id))).
  assert (schedule ≠ [] → map sc ids ≠ []) as Hscores.
  { intros Hne Hnil. apply map_eq_nil in Hnil. by apply present_nil in Hnil. }
  assert (schedule ≠ [] →
          avg_shift_diversity schedule =
          (sumR (map sc ids) / INR (length (map sc ids)))%R) as Havg.
  { intros Hne. rewrite length_map. by apply avg_shift_diversity_present. }
  assert (∀ x, x ∈ map sc ids → ∃ id, id ∈ ids ∧ x = sc id) as Hmem.
  { intros x Hx. apply list_elem_of_fmap in Hx as (id & -> & Hid). eauto. }
  assert (0 <= avg_shift_diversity schedule)%R as Hnonneg.
  { destruct Hcases as [->|Hne]; [change (avg_shift_diversity []) with 0%R; lra|].
    rewrite (Havg Hne). apply mean_nonneg; [by apply Hscores|].
    intros x Hx. apply Hmem in Hx as (id & Hid & ->).
    by apply (employee_score_facts schedule id Hid). }
  split; [reflexivity|]. split; [by apply round_2_nonneg|].
  split; [by intros ->|]. split; [|split].
  - intros Hne. rewrite (avg_shift_diversity_present schedule Hne). f_equal.
    apply sumR_map_ext. intros id Hid. by apply (employee_score_facts schedule id Hid).
  - intros [Hne Hunif].
    assert (avg_shift_diversity schedule = 100%R) as H100.
    { rewrite (Havg Hne). apply mean_all_equal; [by apply Hscores|].
      intros x Hx. apply Hmem in Hx as (id & Hid & ->).
      apply (employee_score_facts schedule id Hid). by apply Hunif. }
    split; [assumption|]. simpl. rewrite H100. apply round_2_100.
  - intros Hk.
    assert (∀ x, x ∈ map sc ids → (x <= 100)%R) as Hle.
    { intros x Hx. apply Hmem in Hx as (id & Hid & ->).
      by apply (employee_score_facts schedule id Hid), Hk. }
    split.
    + apply round_2_between_0_100. split; [assumption|].
      destruct Hcases as [Hnil|Hne];
        [rewrite Hnil; change (avg_shift_diversity []) with 0%R; lra|].
      rewrite (Havg Hne). apply mean_le; [by apply Hscores|assumption].
    + intros H100.
      assert (schedule ≠ []) as Hne.
      { intros ->. change (avg_shift_diversity []) with 0%R in H100. lra. }
      split; [assumption|]. intros id Hid.
      apply (employee_score_facts schedule id Hid); [by apply Hk|].
      rewrite (Havg Hne) in H100.
      apply (mean_eq_bound (map sc ids) (Hscores Hne) 100 Hle H100).
      apply list_elem_of_fmap. eauto.
Qed.

Lemma round_half_even_lower (y : R) (a : Z) : (IZR a <= y)%R → a ≤ round_half_even y.
Proof.
  intros Ha. unfold round_half_even.
  destruct (base_Int_part y) as [Hf1 Hf2].
  assert (a ≤ Int_part y) as Hlo.
  { assert (a - 1 < Int_part y); [|lia]. apply lt_IZR. rewrite minus_IZR. lra. }
  repeat destruct (Rlt_dec _ _); try lia. destruct (Z.even _); lia.
Qed.

(** C4, refuted as stated: an employee whose distribution is uniform across
    the four shift types of a four-shift template scores 200 / log2(3), above
    120, so the reported value is neither 100 nor within [0, 100]. *)
Lemma four_shift_types_exceed_100 :
  uniform_over four_types 1 4 ∧
  (120 <= avg_shift_diversity four_types)%R ∧
  (100 < stat_avg_shift_diversity (_calculate_statistics four_types))%R.
Proof.
  assert (120 <= avg_shift_diversity four_types)%R as Havg.
  { set (dist := [(IdInt 1, 1); (IdInt 2, 1); (IdInt 3, 1); (IdInt 4, 1)] : list (Id * Z)).
    assert (avg_shift_diversity four_types = (diversity_score dist + 0) / INR 1)%R as ->
      by reflexivity.
    rewrite diversity_score_eq.
    assert (entropy dist = 2%R) as ->.
    { unfold entropy, log2. simpl.
      change (1 + (1 + (1 + (1 + 0)))) with 4.
      pose proof ln_2_pos as H2.
      assert (ln (1 / 4) = - (2 * ln 2))%R as ->.
      { replace (1 / 4)%R with (/ (2 * 2))%R by lra.
        rewrite ln_Rinv by lra. rewrite ln_mult by lra. lra. }
      field. lra. }
    pose proof ln_2_pos as H2.
    assert (0 < ln 3)%R as H3 by (rewrite <- ln_1; apply ln_increasing; lra).
    assert (3 * ln 3 < 5 * ln 2)%R as Hln.
    { pose proof (ln_pow 3 ltac:(lra) 3) as E3. pose proof (ln_pow 2 ltac:(lra) 5) as E2.
      simpl in E3, E2.
      assert (ln (3 * (3 * (3 * 1))) < ln (2 * (2 * (2 * (2 * (2 * 1))))))%R
        by (apply ln_increasing; lra).
      lra. }
    unfold log2. simpl.
    apply (Rmult_le_reg_r (ln 3 / ln 2)); [by apply Rdiv_lt_0_compat|].
    field_simplify; [|lra|lra]. 
    apply (Rmult_le_reg_r (ln 2)); [assumption|].
    field_simplify; lra. }
  split; [|split; [assumption|]].
  - split; [vm_compute; reflexivity|].
    intros sid Hsid.
    assert (shift_types four_types 1 = map IdInt [1; 2; 3; 4]) as Hty
      by (vm_compute; reflexivity).
    simpl map in Hty.
    rewrite Hty, !elem_of_cons in Hsid.
    destruct Hsid as [->|[->|[->|[->|Hsid]]]];
      [vm_compute; reflexivity..|by apply elem_of_nil in Hsid].
  - simpl. unfold round.
    assert ((10 ^ 2 = 100)%R) as -> by (simpl; lra).
    pose proof (round_half_even_lower (avg_shift_diversity four_types * 100) 12000) as Hr.
    assert (12000 ≤ round_half_even (avg_shift_diversity four_types * 100)) as Hlo
      by (apply Hr; lra).
    apply IZR_le in Hlo. lra.
Qed.

(** * Further properties of the scheduler *)

(** ** Sums of decision variables count emitted cells *)

Lemma sum_vars_count (self : ShiftScheduler) (value : valuation) (cs : list cell)
    (P : cell → Prop) `{∀ c, Decision (P c)} :
  (∀ c, support self c → 0 ≤ value (BoolVar c) ≤ 1) →
  NoDup cs →
  (∀ c, c ∈ cs ↔ c ∈ all_cells self ∧ P c) →
  sum_vars value (cs ≫= var_at (decision_variables self)) =
  Z.of_nat (length (filter P (assigned_cells self (decision_variables self) value))).
Proof.
  intros Hdom Hnd Hmem.
  rewrite (sum_vars_selected self value _ Hdom).
  f_equal. apply Permutation_length, NoDup_Permutation.
  - by apply NoDup_filter.
  - apply NoDup_filter, NoDup_filter, all_cells_NoDup.
  - intros c. unfold assigned_cells. rewrite !list_elem_of_filter, Hmem. tauto.
Qed.

Lemma omap_var_at {A : Type} (shifts_ : gmap cell var) (k : A → cell) (l : list A) :
  omap (fun x => shifts_ !! k x) l = (k <$> l) ≫= var_at shifts_.
Proof.
  induction l as [|x l IH]; [reflexivity|].
  rewrite fmap_cons, bind_cons, <- IH. unfold var_at. simpl.
  destruct (shifts_ !! k x); reflexivity.
Qed.

Lemma bind_var_at_nonempty (self : ShiftScheduler) (cs : list cell) (c : cell) :
  c ∈ cs → support self c → cs ≫= var_at (decision_variables self) ≠ [].
Proof.
  intros Hc Hs Hnil.
  assert (BoolVar c ∈ cs ≫= var_at (decision_variables self)) as Hin.
  { apply list_elem_of_bind. exists c. split; [|assumption]. unfold var_at.
    rewrite (proj2 (lookup_decision_variables_Some self c _) (conj eq_refl Hs)).
    by left. }
  rewrite Hnil in Hin. by apply elem_of_nil in Hin.
Qed.

Lemma bind_var_at_empty (self : ShiftScheduler) (cs : list cell) :
  (∀ c, c ∈ cs → ¬ support self c) → cs ≫= var_at (decision_variables self) = [].
Proof.
  intros Hno. induction cs as [|c cs IH]; [reflexivity|].
  rewrite bind_cons, IH by (intros; apply Hno; by right).
  unfold var_at.
  rewrite (proj2 (lookup_decision_variables_None self c)) by (apply Hno; by left).
  reflexivity.
Qed.

(** ** Skill compatibility of every assignment *)

Lemma has_required_skills_common (employee : Employee) (location : Location) :
  _employee_has_required_skills employee location = true ↔
  ∃ skill, skill ∈ default [] (emp_skills employee) ∧
           skill ∈ default [] (loc_required_skills location).
Proof.
  unfold _employee_has_required_skills. rewrite bool_decide_eq_true. split.
  - intros Hne. apply set_choose_L in Hne as [skill Hskill].
    apply elem_of_intersection in Hskill as [H1 H2].
    apply elem_of_list_to_set in H1, H2. eauto.
  - intros (skill & H1 & H2) Hempty.
    assert (skill ∈ (list_to_set (default [] (emp_skills employee)) : gset string)
                    ∩ list_to_set (default [] (loc_required_skills location))) as Hin.
    { apply elem_of_intersection. split; by apply elem_of_list_to_set. }
    rewrite Hempty in Hin. by apply elem_of_empty in Hin.
Qed.

Lemma cell_record_fields (self : ShiftScheduler) (c : cell) (a : Assignment) :
  cell_record self c = Some a →
  ∃ employee day location shift,
    employees self !! cell_e c = Some employee ∧
    dates self !! cell_d c = Some day ∧
    locations self !! cell_l c = Some location ∧
    shifts self !! cell_s c = Some shift ∧
    a = {| employee_id := emp_id employee; employee_name := emp_name employee;
           date := day;
           location_id := loc_id location; location_name := loc_name location;
           shift_id := sh_id shift; shift_name := sh_name shift;
           start_time := sh_start_time shift; end_time := sh_end_time shift |}.
Proof.
  destruct c as [[[e d] l] s]. unfold cell_record. simpl.
  destruct (employees self !! e) as [employee|]; [|discriminate]. simpl.
  destruct (dates self !! d) as [day|]; [|discriminate]. simpl.
  destruct (locations self !! l) as [location|]; [|discriminate]. simpl.
  destruct (shifts self !! s) as [shift|]; [|discriminate]. simpl.
  intros [= <-]. exists employee, day, location, shift. repeat split; reflexivity.
Qed.

(** X1.  Every assignment of a result binds an input employee to an input location
    with which the employee shares at least one skill. *)
Theorem result_assignments_compatible (self : ShiftScheduler) (solver : CpSolver)
    (now : string) (res : Result) :
  generate_schedule self solver now = inr res →
  Forall (fun a =>
            ∃ employee location skill,
              employee ∈ employees self ∧ location ∈ locations self ∧
              employee_id a = emp_id employee ∧ location_id a = loc_id location ∧
              skill ∈ default [] (emp_skills employee) ∧
              skill ∈ default [] (loc_required_skills location))
         (schedule res).
Proof.
  intros Hres. apply generate_schedule_inv in Hres as (st & value & _ & _ & Hrec & _).
  apply Forall_forall. intros a Ha.
  destruct (records_of_elem _ _ _ _ Hrec Ha) as (c & Hc & Hca).
  apply elem_of_assigned_cells in Hc as [[_ Hcompat] _].
  apply cell_record_fields in Hca as (employee & day & location & shift & He & _ & Hl & _ & ->).
  unfold compatible in Hcompat. rewrite He, Hl in Hcompat.
  apply has_required_skills_common in Hcompat as (skill & H1 & H2).
  exists employee, location, skill. simpl.
  repeat split; try assumption; eapply list_elem_of_lookup_2; eassumption.
Qed.

Lemma result_assignments_compatible_witness :
  ∃ res, generate_schedule kiosk kiosk_solver "2026-11-04T09:00:00" = inr res ∧
         Forall (fun a =>
                   ∃ employee location skill,
                     employee ∈ employees kiosk ∧ location ∈ locations kiosk ∧
                     employee_id a = emp_id employee ∧ location_id a = loc_id location ∧
                     skill ∈ default [] (emp_skills employee) ∧
                     skill ∈ default [] (loc_required_skills location))
                (schedule res).
Proof.
  destruct (generate_schedule_success kiosk kiosk_solver "2026-11-04T09:00:00" OPTIMAL
              kiosk_value kiosk_answers (or_introl eq_refl)) as (res & Hres & _).
  exists res. split; [exact Hres|].
  exact (result_assignments_compatible kiosk kiosk_solver _ res Hres).
Defined.

(** ** Coverage and capacity (CONSTRAINT 1 and 2) *)

Lemma compatible_in_range (self : ShiftScheduler) (e l : nat) :
  compatible self e l = true →
  (e < num_employees self ∧ l < num_locations self)%nat.
Proof.
  unfold compatible, num_employees, num_locations.
  destruct (employees self !! e) eqn:He; [|discriminate].
  destruct (locations self !! l) eqn:Hl; [|discriminate].
  intros _. split; eapply lookup_lt_Some; eassumption.
Qed.

Lemma column_cells_spec (self : ShiftScheduler) (d l s : nat) :
  (d < num_days self)%nat → (l < num_locations self)%nat →
  (s < num_shifts_per_day self)%nat →
  NoDup ((fun e => (e, d, l, s)) <$> seq 0 (num_employees self)) ∧
  ∀ c, c ∈ (fun e => (e, d, l, s)) <$> seq 0 (num_employees self) ↔
       c ∈ all_cells self ∧ (cell_d c = d ∧ cell_l c = l ∧ cell_s c = s).
Proof.
  intros Hd Hl Hs. split.
  - apply NoDup_fmap_2; [|apply NoDup_seq]. by intros e1 e2 [= ->].
  - intros [[[e' d'] l'] s']. rewrite list_elem_of_fmap, elem_of_all_cells. simpl. split.
    + intros (e & [= -> -> -> ->] & He). apply elem_of_seq in He. lia.
    + intros (Hr & -> & -> & ->). exists e'. split; [reflexivity|]. apply elem_of_seq. lia.
Qed.

Lemma employees_for_shift_sum (self : ShiftScheduler) (value : valuation) (d l s : nat) :
  (∀ c, support self c → 0 ≤ value (BoolVar c) ≤ 1) →
  (d < num_days self)%nat → (l < num_locations self)%nat →
  (s < num_shifts_per_day self)%nat →
  sum_vars value (employees_for_shift self (decision_variables self) d l s) =
  Z.of_nat (staff_count (assigned_cells self (decision_variables self) value) d l s).
Proof.
  intros Hdom Hd Hl Hs. unfold employees_for_shift, staff_count.
  rewrite (omap_var_at (decision_variables self) (fun e => (e, d, l, s))).
  destruct (column_cells_spec self d l s Hd Hl Hs) as [Hnd Hmem].
  by apply sum_vars_count.
Qed.

Lemma constraint12_posted (self : ShiftScheduler) (d l s : nat) (location : Location) :
  (d < num_days self)%nat → (s < num_shifts_per_day self)%nat →
  locations self !! l = Some location →
  employees_for_shift self (decision_variables self) d l s ≠ [] →
  SumGe (employees_for_shift self (decision_variables self) d l s)
        (min_employees_per_shift self) ∈ hard_constraints self ∧
  SumLe (employees_for_shift self (decision_variables self) d l s)
        (default 20 (loc_capacity location)) ∈ hard_constraints self.
Proof.
  intros Hd Hs Hl Hne.
  assert (l < num_locations self)%nat as Hlt by (eapply lookup_lt_Some; eassumption).
  unfold hard_constraints. split.
  - rewrite !elem_of_app. left. unfold constraint1.
    apply list_elem_of_bind. exists d. split; [|apply elem_of_seq; lia].
    apply list_elem_of_bind. exists l. split; [|apply elem_of_seq; lia].
    apply list_elem_of_bind. exists s. split; [|apply elem_of_seq; lia].
    destruct (employees_for_shift self (decision_variables self) d l s);
      [congruence|by left].
  - rewrite !elem_of_app. right. left. unfold constraint2.
    apply list_elem_of_bind. exists d. split; [|apply elem_of_seq; lia].
    apply list_elem_of_bind. exists l. split; [|apply elem_of_seq; lia].
    apply list_elem_of_bind. exists s. split; [|apply elem_of_seq; lia].
    rewrite Hl.
    destruct (employees_for_shift self (decision_variables self) d l s);
      [congruence|by left].
Qed.

(** X3.  In every successful result, a (day, location, shift) cell for whose
    location some employee is compatible is staffed by at least
    [min_employees_per_shift] and at most [capacity] employees (20 when the
    location has no capacity entry); a cell for whose location no employee is
    compatible is left unstaffed. *)
Theorem coverage_and_capacity (self : ShiftScheduler) (solver : CpSolver)
    (value : valuation) (d l s : nat) (location : Location) :
  solved self solver value →
  (d < num_days self)%nat → (s < num_shifts_per_day self)%nat →
  locations self !! l = Some location →
  let staffed := staff_count (assigned_cells self (decision_variables self) value) d l s in
  ((∃ e, compatible self e l = true) →
   min_employees_per_shift self ≤ Z.of_nat staffed ≤ default 20 (loc_capacity location)) ∧
  ((∀ e, compatible self e l = false) → staffed = 0%nat).
Proof.
  intros (st & _ & _ & Hfeas) Hd Hs Hl staffed.
  apply feasible_inv in Hfeas as [Hdom Hhard].
  assert (l < num_locations self)%nat as Hlt by (eapply lookup_lt_Some; eassumption).
  split.
  - intros [e He].
    assert (employees_for_shift self (decision_variables self) d l s ≠ []) as Hne.
    { unfold employees_for_shift.
      rewrite (omap_var_at (decision_variables self) (fun e => (e, d, l, s))).
      apply (bind_var_at_nonempty self _ (e, d, l, s)).
      - apply list_elem_of_fmap. exists e. split; [reflexivity|].
        apply elem_of_seq. apply compatible_in_range in He. lia.
      - split; [|exact He]. apply elem_of_all_cells.
        apply compatible_in_range in He. lia. }
    destruct (constraint12_posted self d l s location Hd Hs Hl Hne) as [Hge Hle].
    apply Hhard in Hge, Hle. simpl in Hge, Hle. apply Z.leb_le in Hge, Hle.
    rewrite (employees_for_shift_sum self value d l s Hdom Hd Hlt Hs) in Hge, Hle.
    split; assumption.
  - intros Hnone. unfold staffed, staff_count.
    destruct (filter _ _) as [|c rest] eqn:Hf; [reflexivity|].
    assert (c ∈ filter (fun c => cell_d c = d ∧ cell_l c = l ∧ cell_s c = s)
                       (assigned_cells self (decision_variables self) value)) as Hc
      by (rewrite Hf; by left).
    apply list_elem_of_filter in Hc as [(_ & Hcl & _) Hc].
    apply elem_of_assigned_cells in Hc as [[_ Hcompat] _].
    rewrite Hcl, Hnone in Hcompat. discriminate.
Qed.

Lemma coverage_and_capacity_witness :
  solved kiosk kiosk_solver kiosk_value ∧
  2 ≤ Z.of_nat (staff_count
                  (assigned_cells kiosk (decision_variables kiosk) kiosk_value) 3 0 0) ≤ 20.
Proof.
  split; [exact kiosk_solved|].
  apply (coverage_and_capacity kiosk kiosk_solver kiosk_value 3 0 0
           (location_ 1 "Kiosk" ["sales"%string]) kiosk_solved);
    [vm_compute; lia|vm_compute; lia|reflexivity|].
  exists 0%nat. vm_compute. reflexivity.
Defined.

(** ** No double booking (CONSTRAINT 3) *)

Lemma row_cells_spec (self : ShiftScheduler) (e d s : nat) :
  (e < num_employees self)%nat → (d < num_days self)%nat →
  (s < num_shifts_per_day self)%nat →
  NoDup ((fun l => (e, d, l, s)) <$> seq 0 (num_locations self)) ∧
  ∀ c, c ∈ (fun l => (e, d, l, s)) <$> seq 0 (num_locations self) ↔
       c ∈ all_cells self ∧ (cell_e c = e ∧ cell_d c = d ∧ cell_s c = s).
Proof.
  intros He Hd Hs. split.
  - apply NoDup_fmap_2; [|apply NoDup_seq]. by intros l1 l2 [= ->].
  - intros [[[e' d'] l'] s']. rewrite list_elem_of_fmap, elem_of_all_cells. simpl. split.
    + intros (l & [= -> -> -> ->] & Hl). apply elem_of_seq in Hl. lia.
    + intros (Hr & -> & -> & ->). exists l'. split; [reflexivity|]. apply elem_of_seq. lia.
Qed.

Lemma two_elements_length {A : Type} (l : list A) (x y : A) :
  x ∈ l → y ∈ l → x ≠ y → (2 ≤ length l)%nat.
Proof.
  intros Hx Hy Hne. destruct l as [|a [|b l]]; simpl; [|exfalso|lia].
  - by apply elem_of_nil in Hx.
  - apply list_elem_of_singleton in Hx, Hy. congruence.
Qed.

(** X4.  In every successful result an employee holds at most one assignment per
    day and shift: two emitted cells with the same employee, day and shift are
    at the same location. *)
Theorem no_double_booking (self : ShiftScheduler) (solver : CpSolver)
    (value : valuation) (e d l1 s : nat) :
  solved self solver value →
  (e, d, l1, s) ∈ assigned_cells self (decision_variables self) value →
  ∀ l2, (e, d, l2, s) ∈ assigned_cells self (decision_variables self) value → l2 = l1.
Proof.
  intros (st & _ & _ & Hfeas) H1 l2 H2.
  apply feasible_inv in Hfeas as [Hdom Hhard].
  pose proof H1 as Hs1. apply elem_of_assigned_cells in Hs1 as [Hs1 _].
  pose proof (proj1 Hs1) as Hr. apply elem_of_all_cells in Hr as (He & Hd & Hl1 & Hs).
  destruct (row_cells_spec self e d s He Hd Hs) as [Hnd Hmem].
  assert (shifts_for_time self (decision_variables self) e d s =
          ((fun l => (e, d, l, s)) <$> seq 0 (num_locations self))
            ≫= var_at (decision_variables self)) as Hsft
    by (unfold shifts_for_time; apply (omap_var_at _ (fun l => (e, d, l, s)))).
  assert (SumLe (shifts_for_time self (decision_variables self) e d s) 1
            ∈ hard_constraints self) as Hposted.
  { unfold hard_constraints. rewrite !elem_of_app. do 2 right. left. unfold constraint3.
    apply list_elem_of_bind. exists e. split; [|apply elem_of_seq; lia].
    apply list_elem_of_bind. exists d. split; [|apply elem_of_seq; lia].
    apply list_elem_of_bind. exists s. split; [|apply elem_of_seq; lia].
    assert (shifts_for_time self (decision_variables self) e d s ≠ []) as Hne.
    { rewrite Hsft. apply (bind_var_at_nonempty self _ (e, d, l1, s)); [|assumption].
      apply Hmem. split; [apply Hs1|by simpl]. }
    destruct (shifts_for_time self (decision_variables self) e d s);
      [congruence|by left]. }
  apply Hhard in Hposted. simpl in Hposted. apply Z.leb_le in Hposted.
  rewrite Hsft, (sum_vars_count self value _ _ Hdom Hnd Hmem) in Hposted.
  destruct (decide (l1 = l2)) as [->|Hne]; [reflexivity|]. exfalso.
  assert (2 ≤ length (filter (fun c => cell_e c = e ∧ cell_d c = d ∧ cell_s c = s)
                        (assigned_cells self (decision_variables self) value)))%nat.
  { apply (two_elements_length _ (e, d, l1, s) (e, d, l2, s)).
    - apply list_elem_of_filter. by split.
    - apply list_elem_of_filter. by split.
    - intros [= ?]. contradiction. }
  lia.
Qed.

Lemma two_counters_solved : solved two_counters two_counters_solver two_counters_value.
Proof.
  exists OPTIMAL. split; [split; [vm_compute; reflexivity|reflexivity]|].
  split; [by left|]. vm_compute. reflexivity.
Qed.

Lemma no_double_booking_witness :
  solved two_counters two_counters_solver two_counters_value ∧
  (0, 5, 0, 0)%nat
    ∈ assigned_cells two_counters (decision_variables two_counters) two_counters_value ∧
  support two_counters (0, 5, 1, 0)%nat ∧
  (0, 5, 1, 0)%nat
    ∉ assigned_cells two_counters (decision_variables two_counters) two_counters_value.
Proof.
  assert ((0, 5, 0, 0)%nat
            ∈ assigned_cells two_counters (decision_variables two_counters)
                two_counters_value) as Hin.
  { apply elem_of_assigned_cells. split; [|reflexivity].
    split; [apply elem_of_all_cells; vm_compute; lia|vm_compute; reflexivity]. }
  split; [exact two_counters_solved|]. split; [exact Hin|]. split.
  - split; [apply elem_of_all_cells; vm_compute; lia|vm_compute; reflexivity].
  - intros Hother.
    pose proof (no_double_booking two_counters two_counters_solver two_counters_value
                  0 5 0 0 two_counters_solved Hin 1%nat Hother) as Heq.
    discriminate.
Defined.

Lemma consecutive_shifts_excluded_when_guarded_witness :
  solved two_sites two_sites_solver two_sites_value ∧
  support two_sites (0, 3, 0, 0)%nat ∧ support two_sites (0, 3, 0, 1)%nat ∧
  ¬ ((0, 3, 0, 0)%nat
       ∈ assigned_cells two_sites (decision_variables two_sites) two_sites_value ∧
     (0, 3, 0, 1)%nat
       ∈ assigned_cells two_sites (decision_variables two_sites) two_sites_value).
Proof.
  assert (support two_sites (0, 3, 0, 0)%nat) as H0
    by (split; [apply elem_of_all_cells; vm_compute; lia|vm_compute; reflexivity]).
  assert (support two_sites (0, 3, 0, 1)%nat) as H1
    by (split; [apply elem_of_all_cells; vm_compute; lia|vm_compute; reflexivity]).
  split; [exact two_sites_solved|]. split; [exact H0|]. split; [exact H1|].
  exact (consecutive_shifts_excluded_when_guarded two_sites two_sites_solver
           two_sites_value 0 3 0 0 0 two_sites_solved (or_introl eq_refl) H0 H1).
Defined.

(** ** The fairness objective *)

Lemma employee_total_cells (self : ShiftScheduler) (shifts_ : gmap cell var) (e : nat) :
  employee_total self shifts_ e = employee_cells self e ≫= var_at shifts_.
Proof.
  unfold employee_total, employee_cells.
  rewrite bind_bind. apply bind_ext_fn. intros d.
  rewrite bind_bind. apply bind_ext_fn. intros l.
  rewrite bind_bind. apply bind_ext_fn. intros s.
  rewrite bind_singleton. reflexivity.
Qed.

Lemma elem_of_employee_cells (self : ShiftScheduler) (e : nat) (c : cell) :
  c ∈ employee_cells self e ↔
  cell_e c = e ∧
  (cell_d c < num_days self ∧ cell_l c < num_locations self ∧
   cell_s c < num_shifts_per_day self)%nat.
Proof.
  destruct c as [[[e' d] l] s]. unfold employee_cells. simpl. split.
  - intros H.
    apply list_elem_of_bind in H as (d0 & H & Hd).
    apply list_elem_of_bind in H as (l0 & H & Hl).
    apply list_elem_of_bind in H as (s0 & H & Hs).
    apply list_elem_of_singleton in H. inversion H; subst.
    rewrite !elem_of_seq in *. lia.
  - intros (-> & Hd & Hl & Hs).
    apply list_elem_of_bind. exists d. split; [|apply elem_of_seq; lia].
    apply list_elem_of_bind. exists l. split; [|apply elem_of_seq; lia].
    apply list_elem_of_bind. exists s. split; [|apply elem_of_seq; lia].
    apply list_elem_of_singleton. reflexivity.
Qed.

Lemma employee_cells_NoDup (self : ShiftScheduler) (e : nat) :
  NoDup (employee_cells self e).
Proof.
  apply (StronglySorted_NoDup cell_lt); [apply cell_lt_irrefl|].
  unfold employee_cells.
  apply StronglySorted_bind_seq.
  - intros d. apply StronglySorted_bind_seq.
    + intros l. apply StronglySorted_bind_seq.
      * intros s. repeat constructor.
      * intros s1 s2 x y Hlt Hx Hy.
        apply list_elem_of_singleton in Hx, Hy. subst. simpl. lia.
    + intros l1 l2 x y Hlt Hx Hy.
      apply list_elem_of_bind in Hx as (s1 & Hx & _).
      apply list_elem_of_bind in Hy as (s2 & Hy & _).
      apply list_elem_of_singleton in Hx, Hy. subst. simpl. lia.
  - intros d1 d2 x y Hlt Hx Hy.
    apply list_elem_of_bind in Hx as (l1 & Hx & _).
    apply list_elem_of_bind in Hx as (s1 & Hx & _).
    apply list_elem_of_bind in Hy as (l2 & Hy & _).
    apply list_elem_of_bind in Hy as (s2 & Hy & _).
    apply list_elem_of_singleton in Hx, Hy. subst. simpl. lia.
Qed.

Lemma employee_total_sum (self : ShiftScheduler) (value : valuation) (e : nat) :
  (∀ c, support self c → 0 ≤ value (BoolVar c) ≤ 1) →
  (e < num_employees self)%nat →
  sum_vars value (employee_total self (decision_variables self) e) =
  Z.of_nat (employee_load (assigned_cells self (decision_variables self) value) e).
Proof.
  intros Hdom He. rewrite employee_total_cells. unfold employee_load.
  apply sum_vars_count; [assumption|apply employee_cells_NoDup|].
  intros [[[e' d] l] s]. rewrite elem_of_employee_cells, elem_of_all_cells. simpl.
  split; [intros (-> & ?)|intros (? & ->)]; tauto.
Qed.

Lemma bind_var_at_nonempty_inv (self : ShiftScheduler) (cs : list cell) :
  cs ≫= var_at (decision_variables self) ≠ [] → ∃ c, c ∈ cs ∧ support self c.
Proof.
  induction cs as [|c cs IH]; [by intros []|].
  rewrite bind_cons. intros Hne.
  destruct (decision_variables self !! c) as [x|] eqn:Hx.
  - apply lookup_decision_variables_Some in Hx as [_ Hs]. exists c. split; [by left|assumption].
  - unfold var_at in Hne at 1. rewrite Hx in Hne. simpl in Hne.
    destruct (IH Hne) as (c' & Hc' & Hs). exists c'. split; [by right|assumption].
Qed.

Lemma employee_total_nonempty_iff (self : ShiftScheduler) (e : nat) :
  employee_total self (decision_variables self) e ≠ [] ↔
  ∃ d l s, support self (e, d, l, s).
Proof.
  rewrite employee_total_cells. split.
  - intros Hne. apply bind_var_at_nonempty_inv in Hne as ([[[e' d] l] s] & Hc & Hs).
    apply elem_of_employee_cells in Hc as [He _]. simpl in He. subst. eauto.
  - intros (d & l & s & Hs). apply (bind_var_at_nonempty self _ (e, d, l, s)); [|assumption].
    apply elem_of_employee_cells. simpl. split; [reflexivity|].
    apply proj1, elem_of_all_cells in Hs. lia.
Qed.

Lemma elem_of_employee_total_shifts (self : ShiftScheduler) (total : list var) :
  total ∈ employee_total_shifts self (decision_variables self) ↔
  ∃ e, (e < num_employees self)%nat ∧
       employee_total self (decision_variables self) e ≠ [] ∧
       total = employee_total self (decision_variables self) e.
Proof.
  unfold employee_total_shifts. rewrite list_elem_of_bind. split.
  - intros (e & Hin & He). apply elem_of_seq in He. exists e.
    destruct (employee_total self (decision_variables self) e) as [|x xs] eqn:Htot;
      [by apply elem_of_nil in Hin|].
    apply list_elem_of_singleton in Hin. split; [lia|]. split; [discriminate|assumption].
  - intros (e & He & Hne & ->). exists e. split; [|apply elem_of_seq; lia].
    destruct (employee_total self (decision_variables self) e); [congruence|by left].
Qed.

Lemma feasible_objective (self : ShiftScheduler) (value : valuation) :
  feasible value (build_model self) = true →
  employee_total_shifts self (decision_variables self) ≠ [] →
  maximize (build_model self) = Some min_shifts ∧
  0 ≤ value min_shifts
    ≤ Z.of_nat (num_days self * num_shifts_per_day self * num_locations self) ∧
  value min_shifts =
    list_min (map (sum_vars value) (employee_total_shifts self (decision_variables self))).
Proof.
  unfold feasible, build_model, build_model_from. intros H Hne.
  destruct (employee_total_shifts self (decision_variables self)) as [|t ts] eqn:Hets;
    [congruence|].
  simpl in H. split; [reflexivity|].
  apply andb_prop in H as [H Hcons]. apply andb_prop in H as [_ Hint].
  rewrite andb_true_r in Hint. apply andb_prop in Hint as [Hlo Hhi].
  apply Z.leb_le in Hlo, Hhi. split; [lia|].
  rewrite forallb_app in Hcons. apply andb_prop in Hcons as [_ Hmin].
  simpl in Hmin. rewrite andb_true_r in Hmin. by apply Z.eqb_eq in Hmin.
Qed.

(** X6.  In every successful result with at least one decision variable, the
    objective variable [min_shifts] that the model maximises equals the
    smallest number of assignments held by an employee who has decision
    variables, and lies between 0 and D * S * L. *)
Theorem objective_is_smallest_load (self : ShiftScheduler) (solver : CpSolver)
    (value : valuation) (c0 : cell) :
  solved self solver value →
  support self c0 →
  let cells := assigned_cells self (decision_variables self) value in
  maximize (build_model self) = Some min_shifts ∧
  0 ≤ value min_shifts
    ≤ Z.of_nat (num_days self * num_shifts_per_day self * num_locations self) ∧
  (∀ e, (∃ d l s, support self (e, d, l, s)) →
        value min_shifts ≤ Z.of_nat (employee_load cells e)) ∧
  (∃ e, (∃ d l s, support self (e, d, l, s)) ∧
        Z.of_nat (employee_load cells e) = value min_shifts).
Proof.
  intros (st & _ & _ & Hfeas) Hc0 cells.
  pose proof (feasible_inv self value Hfeas) as [Hdom _].
  assert (∀ e, (∃ d l s, support self (e, d, l, s)) → (e < num_employees self)%nat)
    as Hrange.
  { intros e (d & l & s & Hs). apply proj1, elem_of_all_cells in Hs. lia. }
  assert (employee_total_shifts self (decision_variables self) ≠ []) as Hne.
  { destruct c0 as [[[e d] l] s]. intros Hnil.
    assert (employee_total self (decision_variables self) e
              ∈ employee_total_shifts self (decision_variables self)) as Hin.
    { apply elem_of_employee_total_shifts. exists e.
      split; [apply Hrange; eauto|]. split; [|reflexivity].
      apply employee_total_nonempty_iff. eauto. }
    rewrite Hnil in Hin. by apply elem_of_nil in Hin. }
  destruct (feasible_objective self value Hfeas Hne) as (Hmax & Hbounds & Hmin).
  assert (map (sum_vars value) (employee_total_shifts self (decision_variables self)) ≠ [])
    as Hne' by (intros Hnil; by apply map_eq_nil in Hnil).
  destruct (list_min_spec _ Hne') as [Hin Hle]. rewrite <- Hmin in Hin, Hle.
  split; [assumption|]. split; [assumption|]. unfold cells. split.
  - intros e He.
    rewrite <- (employee_total_sum self value e Hdom (Hrange e He)).
    apply Hle. apply list_elem_of_fmap.
    exists (employee_total self (decision_variables self) e). split; [reflexivity|].
    apply elem_of_employee_total_shifts. exists e.
    split; [by apply Hrange|]. split; [by apply employee_total_nonempty_iff|reflexivity].
  - apply list_elem_of_fmap in Hin as (total & Hval & Htotal).
    apply elem_of_employee_total_shifts in Htotal as (e & He & Hnonempty & ->).
    exists e. split; [by apply employee_total_nonempty_iff|].
    rewrite <- (employee_total_sum self value e Hdom He). by symmetry.
Qed.

Lemma objective_is_smallest_load_witness :
  solved two_sites two_sites_solver two_sites_value ∧
  support two_sites (0, 0, 0, 0)%nat ∧
  two_sites_value min_shifts
    ≤ Z.of_nat (employee_load
                  (assigned_cells two_sites (decision_variables two_sites) two_sites_value)
                  4).
Proof.
  assert (support two_sites (0, 0, 0, 0)%nat) as H0
    by (split; [apply elem_of_all_cells; vm_compute; lia|vm_compute; reflexivity]).
  split; [exact two_sites_solved|]. split; [exact H0|].
  destruct (objective_is_smallest_load two_sites two_sites_solver two_sites_value
              (0, 0, 0, 0)%nat two_sites_solved H0) as (_ & _ & Hle & _).
  apply Hle. exists 0%nat, 1%nat, 0%nat.
  split; [apply elem_of_all_cells; vm_compute; lia|vm_compute; reflexivity].
Defined.

(** ** Referential integrity of the emitted records *)

Lemma lookup_dates (self : ShiftScheduler) (d : nat) (day : string) :
  dates self !! d = Some day → (d < num_days self)%nat ∧ day = date_str self d.
Proof.
  unfold dates. intros H.
  pose proof (lookup_lt_Some _ _ _ H) as Hlt. rewrite length_map, length_seq in Hlt.
  split; [assumption|].
  change (map (date_str self) (seq 0 (num_days self)))
    with (date_str self <$> seq 0 (num_days self)) in H.
  rewrite list_lookup_fmap, lookup_seq_lt in H by assumption.
  simpl in H. by injection H as <-.
Qed.

Lemma generate_schedule_echo (self : ShiftScheduler) (solver : CpSolver) (now : string)
    (res : Result) :
  generate_schedule self solver now = inr res →
  generated_at res = now ∧ res_dates res = dates self ∧
  res_employees res = employees self ∧ res_locations res = locations self ∧
  res_shifts res = shifts self.
Proof.
  unfold generate_schedule.
  destruct (accepted _); [|discriminate]. cbn [negb].
  destruct (Solve solver _) as [st value].
  destruct st; try discriminate;
    (destruct (_extract_schedule _ _ _); [|discriminate]);
    intros [= <-]; repeat split; reflexivity.
Qed.

(** X2.  Every assignment of a result is a consistent join of the inputs that the
    result echoes: its identifier and name are those of one input employee,
    its location fields those of one input location, its four shift fields
    those of one input shift, and its date is the date of a day of the
    horizon. *)
Theorem result_assignments_reference_inputs (self : ShiftScheduler) (solver : CpSolver)
    (now : string) (res : Result) :
  generate_schedule self solver now = inr res →
  Forall (fun a =>
            ∃ employee location shift d,
              employee ∈ res_employees res ∧ location ∈ res_locations res ∧
              shift ∈ res_shifts res ∧ res_dates res !! d = Some (date a) ∧
              (d < num_days self)%nat ∧ date a = date_str self d ∧
              employee_id a = emp_id employee ∧ employee_name a = emp_name employee ∧
              location_id a = loc_id location ∧ location_name a = loc_name location ∧
              shift_id a = sh_id shift ∧ shift_name a = sh_name shift ∧
              start_time a = sh_start_time shift ∧ end_time a = sh_end_time shift)
         (schedule res).
Proof.
  intros Hres.
  destruct (generate_schedule_echo _ _ _ _ Hres) as (_ & -> & -> & -> & ->).
  apply generate_schedule_inv in Hres as (st & value & _ & _ & Hrec & _).
  apply Forall_forall. intros a Ha.
  destruct (records_of_elem _ _ _ _ Hrec Ha) as (c & _ & Hca).
  apply cell_record_fields in Hca as (employee & day & location & shift & He & Hd & Hl & Hs & ->).
  destruct (lookup_dates _ _ _ Hd) as [Hlt ->].
  exists employee, location, shift, (cell_d c). simpl.
  repeat split; try assumption; try (eapply list_elem_of_lookup_2; eassumption).
Qed.

Lemma result_assignments_reference_inputs_witness :
  ∃ res, generate_schedule two_sites two_sites_solver "2026-11-04T09:00:00" = inr res ∧
         Forall (fun a =>
                   ∃ employee location shift d,
                     employee ∈ res_employees res ∧ location ∈ res_locations res ∧
                     shift ∈ res_shifts res ∧ res_dates res !! d = Some (date a) ∧
                     (d < num_days two_sites)%nat ∧ date a = date_str two_sites d ∧
                     employee_id a = emp_id employee ∧
                     employee_name a = emp_name employee ∧
                     location_id a = loc_id location ∧
                     location_name a = loc_name location ∧
                     shift_id a = sh_id shift ∧ shift_name a = sh_name shift ∧
                     start_time a = sh_start_time shift ∧ end_time a = sh_end_time shift)
                (schedule res).
Proof.
  destruct (generate_schedule_success two_sites two_sites_solver "2026-11-04T09:00:00"
              FEASIBLE two_sites_value two_sites_answers (or_intror eq_refl)) as (res & Hres & _).
  exists res. split; [exact Hres|].
  exact (result_assignments_reference_inputs two_sites two_sites_solver _ res Hres).
Defined.

(** ** The reported per-employee counts are the loads of the model *)

Lemma solved_generate_schedule (self : ShiftScheduler) (solver : CpSolver)
    (value : valuation) (now : string) (res : Result) :
  solved self solver value →
  generate_schedule self solver now = inr res →
  records_of self (assigned_cells self (decision_variables self) value) (schedule res) ∧
  statistics res = _calculate_statistics (schedule res).
Proof.
  intros (st & [_ Hsolve] & _ & _) Hres.
  apply generate_schedule_inv in Hres as (st' & value' & [_ Hsolve'] & _ & Hrec & Hstat).
  rewrite Hsolve in Hsolve'. injection Hsolve' as <- <-. by split.
Qed.

Lemma records_of_cnt (self : ShiftScheduler) (cells : list cell)
    (sched : list Assignment) (e : nat) (employee : Employee) :
  NoDup (map emp_id (employees self)) →
  employees self !! e = Some employee →
  records_of self cells sched →
  cnt sched (emp_id employee) = Z.of_nat (employee_load cells e).
Proof.
  intros Hnd He Hrec. unfold cnt, occurrences, employee_load. f_equal.
  induction Hrec as [|c a cells sched Hca _ IH]; [reflexivity|].
  rewrite !filter_cons.
  apply cell_record_fields in Hca as (employee' & ? & ? & ? & He' & _ & _ & _ & ->).
  simpl.
  assert (emp_id employee' = emp_id employee ↔ cell_e c = e) as Hiff.
  { split.
    - intros Hid.
      apply (NoDup_lookup _ _ _ (emp_id employee) Hnd).
      + change (map emp_id (employees self)) with (emp_id <$> employees self).
        by rewrite list_lookup_fmap, He', <- Hid.
      + change (map emp_id (employees self)) with (emp_id <$> employees self).
        by rewrite list_lookup_fmap, He.
    - intros Hc. rewrite Hc, He in He'. by injection He' as <-. }
  destruct (decide (emp_id employee' = emp_id employee)) as [Hid|Hid];
    destruct (decide (cell_e c = e)) as [Hc|Hc]; simpl; try tauto; by rewrite IH.
Qed.

(** X11.  With pairwise distinct employee identifiers, when the maximised objective
    has a positive value the reported [min_shifts_per_employee] is that
    value: every employee with decision variables occurs in the schedule, and
    the least-loaded of them sets the reported minimum. *)
Theorem reported_minimum_is_objective (self : ShiftScheduler) (solver : CpSolver)
    (value : valuation) (now : string) (res : Result) (c0 : cell) :
  solved self solver value →
  generate_schedule self solver now = inr res →
  NoDup (map emp_id (employees self)) →
  support self c0 →
  0 < value min_shifts →
  min_shifts_per_employee (statistics res) = value min_shifts.
Proof.
  intros Hsolved Hres Hnd Hc0 Hpos.
  destruct (solved_generate_schedule _ _ _ _ _ Hsolved Hres) as [Hrec ->].
  pose proof Hsolved as (st & _ & _ & Hfeas).
  pose proof (feasible_inv self value Hfeas) as [Hdom _].
  assert (∀ e, (∃ d l s, support self (e, d, l, s)) → (e < num_employees self)%nat)
    as Hrange.
  { intros e (d & l & s & Hs). apply proj1, elem_of_all_cells in Hs. lia. }
  assert (employee_total_shifts self (decision_variables self) ≠ []) as Hne.
  { destruct c0 as [[[e d] l] s]. intros Hnil.
    assert (employee_total self (decision_variables self) e
              ∈ employee_total_shifts self (decision_variables self)) as Hin.
    { apply elem_of_employee_total_shifts. exists e.
      split; [apply Hrange; eauto|]. split; [|reflexivity].
      apply employee_total_nonempty_iff. eauto. }
    rewrite Hnil in Hin. by apply elem_of_nil in Hin. }
  destruct (feasible_objective self value Hfeas Hne) as (_ & _ & Hmin).
  assert (map (sum_vars value) (employee_total_shifts self (decision_variables self)) ≠ [])
    as Hne' by (intros Hnil; by apply map_eq_nil in Hnil).
  destruct (list_min_spec _ Hne') as [Hin Hle]. rewrite <- Hmin in Hin, Hle.
  set (cells := assigned_cells self (decision_variables self) value) in *.
  (* the least-loaded employee with variables *)
  apply list_elem_of_fmap in Hin as (total & Hval & Htotal).
  apply elem_of_employee_total_shifts in Htotal as (e0 & He0 & _ & ->).
  rewrite (employee_total_sum self value e0 Hdom He0) in Hval. fold cells in Hval.
  destruct (lookup_lt_is_Some_2 (employees self) e0 He0) as [employee0 Hemp0].
  pose proof (records_of_cnt self cells (schedule res) e0 employee0 Hnd Hemp0 Hrec)
    as Hcnt0.
  assert (schedule res ≠ []) as Hsched.
  { intros Hnil. rewrite Hnil in Hcnt0. unfold cnt, occurrences in Hcnt0.
    simpl in Hcnt0. lia. }
  pose proof (employee_counts_nonempty _ Hsched) as Hvals.
  pose proof (employee_counts_perm (schedule res)) as Hperm.
  destruct (list_min_spec _ Hvals) as [Hmin_in Hmin_le].
  simpl. apply Z.le_antisymm.
  - rewrite Hval, <- Hcnt0. apply Hmin_le.
    apply (elem_of_Permutation_proper _ _ _ Hperm).
    apply list_elem_of_fmap. exists (emp_id employee0). split; [reflexivity|].
    unfold present. apply elem_of_remove_dups.
    apply (occurrences_pos_iff employee_id). fold (cnt (schedule res) (emp_id employee0)).
    lia.
  - apply (elem_of_Permutation_proper _ _ _ Hperm) in Hmin_in.
    apply list_elem_of_fmap in Hmin_in as (id & -> & Hid).
    unfold present in Hid. rewrite elem_of_remove_dups in Hid.
    apply list_elem_of_fmap in Hid as (a & -> & Ha).
    destruct (records_of_elem _ _ _ _ Hrec Ha) as (c & Hc & Hca).
    apply elem_of_assigned_cells in Hc as [Hsupp _].
    apply cell_record_fields in Hca as (employee & ? & ? & ? & He & _ & _ & _ & ->).
    simpl. rewrite (records_of_cnt self cells (schedule res) (cell_e c) employee Hnd He Hrec).
    assert (employee_total self (decision_variables self) (cell_e c)
              ∈ employee_total_shifts self (decision_variables self)) as Hin.
    { destruct c as [[[e d] l] s]. simpl.
      apply elem_of_employee_total_shifts. exists e.
      split; [apply Hrange; eauto|]. split; [|reflexivity].
      apply employee_total_nonempty_iff. eauto. }
    unfold cells. rewrite <- (employee_total_sum self value (cell_e c) Hdom).
    + apply Hle. apply list_elem_of_fmap. eauto.
    + by apply lookup_lt_Some in He.
Qed.

Lemma reported_minimum_is_objective_witness :
  ∃ res, generate_schedule two_sites two_sites_solver "2026-11-04T09:00:00" = inr res ∧
         solved two_sites two_sites_solver two_sites_value ∧
         NoDup (map emp_id (employees two_sites)) ∧
         support two_sites (0, 0, 0, 0)%nat ∧
         0 < two_sites_value min_shifts ∧
         min_shifts_per_employee (statistics res) = 14.
Proof.
  destruct (generate_schedule_success two_sites two_sites_solver "2026-11-04T09:00:00"
              FEASIBLE two_sites_value two_sites_answers (or_intror eq_refl)) as (res & Hres & _).
  assert (NoDup (map emp_id (employees two_sites))) as Hnd
    by (apply (bool_decide_unpack _); vm_compute; exact I).
  assert (support two_sites (0, 0, 0, 0)%nat) as H0
    by (split; [apply elem_of_all_cells; vm_compute; lia|vm_compute; reflexivity]).
  assert (0 < two_sites_value min_shifts) as Hpos by (vm_compute; reflexivity).
  exists res. split; [exact Hres|]. split; [exact two_sites_solved|].
  split; [exact Hnd|]. split; [exact H0|]. split; [exact Hpos|].
  exact (reported_minimum_is_objective two_sites two_sites_solver two_sites_value _ res
           (0, 0, 0, 0)%nat two_sites_solved Hres Hnd H0 Hpos).
Defined.

(** ** Looking up the grouping dictionaries *)

Lemma dict_get_rekey {K K' V : Type} `{EqDecision K} `{EqDecision K'} (f : K → K')
    (d : list (K * V)) (k : K) (v : V) :
  (∀ x y, x ∈ dict_keys d → y ∈ dict_keys d → f x = f y → x = y) →
  NoDup (dict_keys d) →
  dict_get d k = Some v → dict_get (dict_rekey f d) (f k) = Some v.
Proof.
  intros Hinj Hnd. rewrite dict_rekey_inj by assumption. clear Hnd.
  induction d as [|[k0 v0] d IH]; simpl; [discriminate|].
  intros Hget.
  assert (k ∈ dict_keys ((k0, v0) :: d)) as Hk.
  { destruct (decide (k ∈ dict_keys ((k0, v0) :: d))) as [|Hnin]; [assumption|].
    apply dict_get_None in Hnin. simpl in Hnin. congruence. }
  destruct (decide (k0 = k)) as [->|Hne].
  - destruct (decide (f k = f k)); congruence.
  - destruct (decide (f k0 = f k)) as [Heq|_].
    + apply Hinj in Heq; [contradiction|by left|assumption].
    + apply IH; [|assumption]. intros x y Hx Hy. apply Hinj; by right.
Qed.

(** An entry of a re-keyed counting dictionary is the count of a key that
    renders to it; when the keys render apart, every key that occurs has its
    entry. *)
Lemma rekeyed_count_lookup {K : Type} `{EqDecision K} (key : Assignment → K)
    (f : K → string) (schedule : list Assignment) :
  (∀ k' n, dict_get (dict_rekey f (count_by key schedule)) k' = Some n →
           ∃ k, k' = f k ∧ n = occurrences key schedule k ∧ 0 < n) ∧
  ((∀ x y, x ∈ map key schedule → y ∈ map key schedule → f x = f y → x = y) →
   ∀ k, 0 < occurrences key schedule k →
        dict_get (dict_rekey f (count_by key schedule)) (f k)
          = Some (occurrences key schedule k)).
Proof.
  split.
  - intros k' n Hget. apply dict_get_rekey_elem in Hget as (k & <- & Hin).
    apply dict_get_elem in Hin; [|apply count_by_NoDup].
    rewrite count_by_get in Hin. pose proof (occurrences_nonneg key schedule k).
    case_decide; [discriminate|]. injection Hin as <-.
    exists k. split; [reflexivity|]. split; [reflexivity|lia].
  - intros Hinj k Hpos. apply dict_get_rekey; [|apply count_by_NoDup|].
    + intros x y Hx Hy.
      apply (elem_of_Permutation_proper _ _ _ (count_by_keys_perm key schedule)) in Hx, Hy.
      rewrite elem_of_remove_dups in Hx, Hy. by apply Hinj.
    + rewrite count_by_get. case_decide; [lia|reflexivity].
Qed.

(** X8.  An entry of [shifts_per_employee], [shifts_per_location] or
    [shifts_per_type] is the positive number of assignments of one identifier
    that renders (with [str]) to its key; when no two different identifiers of
    the grouping render alike, every identifier that occurs has its entry.
    [shifts_per_day], keyed by the date as it is, has an entry for a date
    exactly when an assignment carries it, with the number of those
    assignments. *)
Theorem grouping_entries_are_occurrence_counts (schedule : list Assignment) :
  let stats := _calculate_statistics schedule in
  (∀ key n,
     (dict_get (shifts_per_employee stats) key = Some n →
      ∃ id, key = str id ∧ n = occurrences employee_id schedule id ∧ 0 < n) ∧
     (dict_get (shifts_per_location stats) key = Some n →
      ∃ id, key = str id ∧ n = occurrences location_id schedule id ∧ 0 < n) ∧
     (dict_get (shifts_per_type stats) key = Some n →
      ∃ id, key = str id ∧ n = occurrences shift_id schedule id ∧ 0 < n) ∧
     (dict_get (shifts_per_day stats) key = Some n ↔
      n = occurrences date schedule key ∧ 0 < n)) ∧
  (renders_apart (map employee_id schedule) →
   ∀ id, 0 < occurrences employee_id schedule id →
         dict_get (shifts_per_employee stats) (str id)
           = Some (occurrences employee_id schedule id)) ∧
  (renders_apart (map location_id schedule) →
   ∀ id, 0 < occurrences location_id schedule id →
         dict_get (shifts_per_location stats) (str id)
           = Some (occurrences location_id schedule id)) ∧
  (renders_apart (map shift_id schedule) →
   ∀ id, 0 < occurrences shift_id schedule id →
         dict_get (shifts_per_type stats) (str id)
           = Some (occurrences shift_id schedule id)).
Proof.
  simpl. unfold employee_shifts, location_shifts, day_shifts, shift_type_counts.
  destruct (rekeyed_count_lookup employee_id str schedule) as [He1 He2].
  destruct (rekeyed_count_lookup location_id str schedule) as [Hl1 Hl2].
  destruct (rekeyed_count_lookup shift_id str schedule) as [Hs1 Hs2].
  destruct (rekeyed_count_lookup date (fun day : string => day) schedule) as [Hd1 Hd2].
  split; [|split; [exact He2|split; [exact Hl2|exact Hs2]]].
  intros key n. split; [apply He1|]. split; [apply Hl1|]. split; [apply Hs1|].
  split.
  - intros Hget. apply Hd1 in Hget as (k & -> & H). exact H.
  - intros [-> Hpos]. apply Hd2; [|assumption]. by intros x y _ _.
Qed.

Lemma grouping_entries_are_occurrence_counts_witness :
  renders_apart (map shift_id four_types) ∧
  dict_get (shifts_per_type (_calculate_statistics four_types)) (str 3) = Some 1.
Proof.
  assert (renders_apart (map shift_id four_types)) as Hra
    by apply (renders_apart_int [1; 2; 3; 4]).
  split; [exact Hra|].
  apply (proj2 (proj2 (proj2 (grouping_entries_are_occurrence_counts four_types))) Hra 3).
  vm_compute. reflexivity.
Defined.

(** ** Mean between minimum and maximum *)

Lemma sumZ_between (l : list Z) (lo hi : Z) :
  (∀ x, x ∈ l → lo ≤ x ≤ hi) →
  lo * Z.of_nat (length l) ≤ sumZ l ≤ hi * Z.of_nat (length l).
Proof.
  unfold sumZ. induction l as [|x l IH]; intros H; simpl length; simpl foldr; [lia|].
  assert (lo ≤ x ≤ hi) by (apply H; by left).
  assert (lo * Z.of_nat (length l) ≤ foldr Z.add 0 l ≤ hi * Z.of_nat (length l))
    by (apply IH; intros; apply H; by right).
  lia.
Qed.

Lemma avg_of_between (l : list Z) :
  l ≠ [] → (IZR (list_min l) <= avg_of l <= IZR (list_max l))%R.
Proof.
  intros Hne. destruct (list_min_spec l Hne) as [_ Hmin].
  destruct (list_max_spec l Hne) as [_ Hmax].
  pose proof (sumZ_between l (list_min l) (list_max l)
                (fun x Hx => conj (Hmin x Hx) (Hmax x Hx))) as [Hlo Hhi].
  pose proof (length_pos_INR l Hne) as Hn.
  apply IZR_le in Hlo, Hhi. rewrite mult_IZR, <- INR_IZR_INZ in Hlo, Hhi.
  unfold avg_of. split.
  - apply (Rmult_le_reg_r (INR (length l))); [assumption|].
    unfold Rdiv. rewrite Rmult_assoc, Rinv_l by lra. lra.
  - apply (Rmult_le_reg_r (INR (length l))); [assumption|].
    unfold Rdiv. rewrite Rmult_assoc, Rinv_l by lra. lra.
Qed.

(** X9.  The reported average lies between the reported minimum and maximum, and
    multiplied by the number of employees that occur in the schedule it gives
    back [total_assignments]. *)
Theorem average_between_minimum_and_maximum (schedule : list Assignment) :
  let stats := _calculate_statistics schedule in
  (IZR (min_shifts_per_employee stats) <= avg_shifts_per_employee stats
     <= IZR (max_shifts_per_employee stats))%R ∧
  (avg_shifts_per_employee stats * INR (length (present schedule)))%R
    = IZR (total_assignments stats).
Proof.
  simpl. unfold avg_shifts.
  pose proof (employee_counts_perm schedule) as Hperm.
  pose proof (count_by_sum employee_id schedule) as Hsum.
  fold (employee_shifts schedule) in Hsum.
  destruct (dict_values (employee_shifts schedule)) as [|x xs] eqn:Hvals.
  - apply Permutation_nil_l in Hperm. symmetry in Hperm.
    apply map_eq_nil in Hperm. rewrite Hperm.
    apply present_nil in Hperm. subst schedule. simpl.
    change (Z.of_nat 0) with 0. split; lra.
  - split; [apply avg_of_between; discriminate|].
    rewrite <- Hsum, <- (length_map (cnt schedule)), <- (Permutation_length Hperm).
    unfold avg_of. unfold Rdiv. rewrite Rmult_assoc, Rinv_l, Rmult_1_r; [reflexivity|].
    apply not_0_INR. simpl. lia.
Qed.

(** ** Location diversity *)

Lemma employee_locations_snoc (schedule : list Assignment) (a : Assignment) :
  employee_locations (schedule ++ [a]) =
  dict_set (employee_locations schedule) (employee_id a)
    (default ∅ (dict_get (employee_locations schedule) (employee_id a))
       ∪ {[ location_id a ]}).
Proof. unfold employee_locations. rewrite fold_left_app. reflexivity. Qed.

(** The set stored for an employee holds the locations of that employee's
    assignments. *)
Lemma employee_locations_get (schedule : list Assignment) (id : Id) :
  dict_get (employee_locations schedule) id =
  if decide (cnt schedule id = 0) then None
  else Some (list_to_set (map location_id (assignments_of schedule id))).
Proof.
  induction schedule as [|a schedule IH] using rev_ind; [reflexivity|].
  rewrite employee_locations_snoc, cnt_snoc, assignments_of_snoc, dict_get_set.
  pose proof (occurrences_nonneg employee_id schedule id) as Hnn.
  fold (cnt schedule id) in Hnn.
  destruct (decide (employee_id a = id)) as [->|Hne].
  - rewrite IH. destruct (decide (cnt schedule id + 1 = 0)); [lia|]. f_equal.
    rewrite map_app, list_to_set_app_L. simpl. rewrite (right_id_L ∅ (∪)).
    destruct (decide (cnt schedule id = 0)) as [H0|]; [|reflexivity].
    rewrite cnt_length in H0.
    destruct (assignments_of schedule id); [reflexivity|simpl in H0; lia].
  - rewrite IH, Z.add_0_r. reflexivity.
Qed.

Lemma employee_locations_NoDup (schedule : list Assignment) :
  NoDup (dict_keys (employee_locations schedule)).
Proof.
  induction schedule as [|a schedule IH] using rev_ind; [constructor|].
  rewrite employee_locations_snoc. by apply dict_keys_NoDup_set.
Qed.

Lemma dict_get_map_values {K V W : Type} `{EqDecision K} (g : V → W) (d : list (K * V))
    (k : K) :
  dict_get (map (fun '(k, v) => (k, g v)) d) k = g <$> dict_get d k.
Proof.
  induction d as [|[k0 v0] d IH]; simpl; [reflexivity|].
  destruct (decide (k0 = k)); [reflexivity|exact IH].
Qed.

Lemma dict_keys_map_values {K V W : Type} (g : V → W) (d : list (K * V)) :
  dict_keys (map (fun '(k, v) => (k, g v)) d) = dict_keys d.
Proof.
  unfold dict_keys. rewrite map_map. apply map_ext. by intros [k v].
Qed.

Lemma size_list_to_set_remove_dups (l : list Id) :
  size (list_to_set l : gset Id) = length (remove_dups l).
Proof.
  rewrite <- (size_list_to_set (C := gset Id) (remove_dups l)) by apply NoDup_remove_dups.
  f_equal. apply set_eq. intros x.
  by rewrite !elem_of_list_to_set, elem_of_remove_dups.
Qed.

Lemma location_diversity_get (schedule : list Assignment) (id : Id) :
  dict_get (location_diversity schedule) id =
  if decide (cnt schedule id = 0) then None
  else Some (Z.of_nat (length (locations_of schedule id))).
Proof.
  unfold location_diversity.
  rewrite (dict_get_map_values (fun locs : gset Id => Z.of_nat (size locs))).
  rewrite employee_locations_get. case_decide; [reflexivity|]. simpl.
  by rewrite size_list_to_set_remove_dups.
Qed.

Lemma location_diversity_NoDup (schedule : list Assignment) :
  NoDup (dict_keys (location_diversity schedule)).
Proof.
  unfold location_diversity.
  rewrite (dict_keys_map_values (fun locs : gset Id => Z.of_nat (size locs))).
  apply employee_locations_NoDup.
Qed.

Lemma location_diversity_keys_perm (schedule : list Assignment) :
  dict_keys (location_diversity schedule) ≡ₚ present schedule.
Proof.
  apply NoDup_Permutation; [apply location_diversity_NoDup|apply NoDup_remove_dups|].
  intros id. unfold present.
  rewrite elem_of_remove_dups, <- (occurrences_pos_iff employee_id).
  fold (cnt schedule id).
  pose proof (dict_get_None (location_diversity schedule) id) as Hn.
  pose proof (location_diversity_get schedule id) as Hg.
  destruct (decide (cnt schedule id = 0)) as [H0|H0].
  - split; [intros Hin|intros; contradiction].
    exfalso. by apply (proj1 Hn Hg).
  - split; [intros _; exact H0|intros _].
    destruct (decide (id ∈ dict_keys (location_diversity schedule))) as [|Hnin];
      [assumption|].
    apply Hn in Hnin. congruence.
Qed.

Lemma location_diversity_values (schedule : list Assignment) :
  dict_values (location_diversity schedule) ≡ₚ
  map (fun id => Z.of_nat (length (locations_of schedule id))) (present schedule).
Proof.
  rewrite <- (location_diversity_keys_perm schedule).
  pose proof (location_diversity_NoDup schedule) as Hnd.
  assert (dict_values (location_diversity schedule) =
          map (fun id => Z.of_nat (length (locations_of schedule id)))
              (dict_keys (location_diversity schedule))) as ->; [|reflexivity].
  unfold dict_values, dict_keys. rewrite map_map.
  apply map_ext_in. intros [k v] Hkv. apply list_elem_of_In in Hkv.
  apply dict_get_elem in Hkv; [|assumption].
  rewrite location_diversity_get in Hkv. case_decide; [discriminate|].
  simpl. by injection Hkv as <-.
Qed.

Lemma locations_of_present (schedule : list Assignment) (id : Id) :
  id ∈ present schedule → (1 ≤ length (locations_of schedule id))%nat.
Proof.
  intros Hid. pose proof (cnt_present_pos schedule id Hid) as Hpos.
  rewrite cnt_length in Hpos. unfold locations_of.
  destruct (assignments_of schedule id) as [|a rest]; [simpl in Hpos; lia|].
  assert (location_id a ∈ remove_dups (map location_id (a :: rest))) as Hin
    by (apply elem_of_remove_dups; by left).
  destruct (remove_dups _); [by apply elem_of_nil in Hin|simpl; lia].
Qed.

Lemma length_filter_map {A B : Type} (P : B → Prop) `{∀ x, Decision (P x)}
    (g : A → B) (l : list A) :
  length (filter P (map g l)) = length (filter (fun x => P (g x)) l).
Proof.
  induction l as [|x l IH]; [reflexivity|]. simpl map. rewrite !filter_cons.
  destruct (decide (P (g x))); simpl; by rewrite IH.
Qed.

Lemma round_2_lower (x : R) (a : Z) : (IZR a <= x)%R → (IZR a <= round x 2)%R.
Proof.
  intros Hx. unfold round.
  assert ((10 ^ 2 = 100)%R) as -> by (simpl; lra).
  pose proof (round_half_even_lower (x * 100) (a * 100)) as Hr.
  rewrite mult_IZR in Hr. apply IZR_le in Hr; [|lra]. rewrite mult_IZR in Hr. lra.
Qed.

(** X10.  The location-diversity block of the statistics ranges over the
    employees that occur in the schedule.  An entry of [location_diversity] is
    the number of distinct locations (at least 1) among the assignments of one
    such employee whose identifier renders to its key; when no two different
    employee identifiers render alike, every such employee has an entry.
    [employees_multi_location] counts the employees with two or more
    locations, the reported rate lies in [0, 100], and the reported average
    number of locations per employee is at least 1 unless the schedule is
    empty. *)
Theorem location_diversity_of_present_employees (schedule : list Assignment) :
  let stats := _calculate_statistics schedule in
  let places id := Z.of_nat (length (locations_of schedule id)) in
  (∀ key n, dict_get (stat_location_diversity stats) key = Some n →
            ∃ id, key = str id ∧ id ∈ present schedule ∧ n = places id) ∧
  (renders_apart (map employee_id schedule) →
   ∀ id, id ∈ present schedule →
         dict_get (stat_location_diversity stats) (str id) = Some (places id)) ∧
  (∀ id, id ∈ present schedule → 1 ≤ places id) ∧
  stat_employees_multi_location stats =
    Z.of_nat (length (filter (fun id => 1 < places id) (present schedule))) ∧
  (0 <= stat_location_diversity_rate stats <= 100)%R ∧
  (schedule ≠ [] → (1 <= stat_avg_locations_per_employee stats)%R).
Proof.
  intros stats places.
  pose proof (location_diversity_values schedule) as Hvals. fold places in Hvals.
  assert (∀ id, id ∈ present schedule → 1 ≤ places id) as Hplaces.
  { intros id Hid. pose proof (locations_of_present schedule id Hid). unfold places. lia. }
  assert (length (location_diversity schedule) = length (present schedule)) as Hlen.
  { rewrite <- (length_map snd). fold (dict_values (location_diversity schedule)).
    by rewrite (Permutation_length Hvals), length_map. }
  split; [|split; [|split; [assumption|split; [|split]]]].
  - intros key n Hget. simpl in Hget.
    apply dict_get_rekey_elem in Hget as (id & <- & Hin).
    apply dict_get_elem in Hin; [|apply location_diversity_NoDup].
    rewrite location_diversity_get in Hin. case_decide as H0; [discriminate|].
    injection Hin as <-. exists id. split; [reflexivity|]. split; [|reflexivity].
    unfold present. apply elem_of_remove_dups.
    by apply (occurrences_pos_iff employee_id).
  - intros Hra id Hid. simpl. apply dict_get_rekey; [|apply location_diversity_NoDup|].
    + intros x y Hx Hy.
      apply (elem_of_Permutation_proper _ _ _ (location_diversity_keys_perm schedule))
        in Hx, Hy.
      unfold present in Hx, Hy. rewrite elem_of_remove_dups in Hx, Hy. by apply Hra.
    + rewrite location_diversity_get.
      pose proof (cnt_present_pos schedule id Hid). case_decide; [lia|reflexivity].
  - simpl. unfold employees_multi_location. f_equal.
    rewrite (Permutation_length (filter_Permutation _ _ _ Hvals)).
    apply (length_filter_map (fun count => 1 < count) places).
  - apply round_2_between_0_100. unfold location_diversity_rate.
    pose proof (length_filter (fun count => 1 < count)
                  (dict_values (location_diversity schedule))) as Hle.
    unfold dict_values in Hle at 2. rewrite length_map in Hle.
    unfold employees_multi_location. rewrite <- INR_IZR_INZ.
    destruct (location_diversity schedule) as [|kv ld] eqn:Hld; [lra|].
    rewrite <- Hld in *.
    assert (0 < INR (length (location_diversity schedule)))%R as Hn
      by (apply lt_0_INR; rewrite Hld; simpl; lia).
    apply le_INR in Hle.
    pose proof (pos_INR (length (filter (fun count => 1 < count)
                                   (dict_values (location_diversity schedule))))) as H0.
    split.
    + apply Rmult_le_pos; [|lra]. apply Rmult_le_pos; [assumption|].
      left. by apply Rinv_0_lt_compat.
    + apply (Rmult_le_reg_r (/ 100)); [lra|].
      rewrite Rmult_assoc, Rinv_r, Rmult_1_r by lra.
      apply (Rmult_le_reg_r (INR (length (location_diversity schedule)))); [assumption|].
      unfold Rdiv. rewrite Rmult_assoc, Rinv_l by lra. lra.
  - intros Hne. simpl. apply (round_2_lower _ 1). unfold avg_locations_per_employee.
    assert (present schedule ≠ []) as Hpres by (by rewrite present_nil).
    destruct (location_diversity schedule) as [|kv ld] eqn:Hld.
    { simpl in Hlen. symmetry in Hlen. apply length_zero_iff_nil in Hlen. contradiction. }
    rewrite <- Hld in *.
    assert (0 < INR (length (location_diversity schedule)))%R as Hn
      by (apply lt_0_INR; rewrite Hld; simpl; lia).
    assert (Z.of_nat (length (dict_values (location_diversity schedule)))
              ≤ sumZ (dict_values (location_diversity schedule))) as Hsum.
    { apply sumZ_lower. intros x Hx.
      apply (elem_of_Permutation_proper _ _ _ Hvals) in Hx.
      apply list_elem_of_fmap in Hx as (id & -> & Hid). by apply Hplaces. }
    unfold dict_values in Hsum at 1. rewrite length_map in Hsum.
    apply IZR_le in Hsum. rewrite <- INR_IZR_INZ in Hsum.
    apply (Rmult_le_reg_r (INR (length (location_diversity schedule)))); [assumption|].
    unfold Rdiv. rewrite Rmult_assoc, Rinv_l by lra. lra.
Qed.

Lemma location_diversity_of_present_employees_witness :
  renders_apart (map employee_id four_types) ∧
  dict_get (stat_location_diversity (_calculate_statistics four_types)) (str 1) = Some 1.
Proof.
  assert (renders_apart (map employee_id four_types)) as Hra
    by apply (renders_apart_int [1; 1; 1; 1]).
  split; [exact Hra|].
  apply (proj1 (proj2 (location_diversity_of_present_employees four_types)) Hra 1).
  unfold present. apply elem_of_remove_dups. simpl. by left.
Defined.

(** * Properties of the post-analysis *)

(** ** Rounding is monotone *)

Lemma Int_part_mono (x y : R) : (x <= y)%R → Int_part x ≤ Int_part y.
Proof.
  intros Hxy. destruct (base_Int_part x) as [Hx1 Hx2], (base_Int_part y) as [Hy1 Hy2].
  assert (Int_part x < Int_part y + 1); [|lia].
  apply lt_IZR. rewrite plus_IZR. lra.
Qed.

Lemma round_half_even_mono (x y : R) :
  (x <= y)%R → round_half_even x ≤ round_half_even y.
Proof.
  intros Hxy. pose proof (Int_part_mono x y Hxy) as Hf.
  destruct (base_Int_part x) as [Hx1 Hx2], (base_Int_part y) as [Hy1 Hy2].
  unfold round_half_even.
  destruct (Z.eq_dec (Int_part x) (Int_part y)) as [Heq|Hne].
  - rewrite <- Heq in *.
    repeat destruct (Rlt_dec _ _); try lia; try lra; destruct (Z.even _); lia.
  - assert (Int_part x + 1 ≤ Int_part y) by lia.
    repeat destruct (Rlt_dec _ _); repeat destruct (Z.even _); lia.
Qed.

Lemma round_2_mono (x y : R) : (x <= y)%R → (round x 2 <= round y 2)%R.
Proof.
  intros Hxy. unfold round.
  assert ((10 ^ 2 = 100)%R) as -> by (simpl; lra).
  pose proof (round_half_even_mono (x * 100) (y * 100)) as Hr.
  apply IZR_le in Hr; [|lra]. lra.
Qed.

(** ** The fairness score *)

Lemma fairness_score_positive_counts (d : list (string * Z)) :
  dict_values d ≠ [] → (∀ x, x ∈ dict_values d → 1 ≤ x) →
  _calculate_fairness_score (Some d) =
  round (Rmin 100 (load_balance_of (dict_values d)
                   + IZR (list_min (dict_values d)) / IZR (list_max (dict_values d)) * 10))
        2.
Proof.
  intros Hne Hpos. unfold _calculate_fairness_score. simpl default.
  set (l := dict_values d) in *.
  pose proof (avg_of_pos l Hne Hpos) as Havg.
  destruct (list_max_spec l Hne) as [Hmax_in _].
  pose proof (Hpos _ Hmax_in) as Hmax.
  assert ((0 <? list_max l) = true) as Hlt by (apply Z.ltb_lt; lia).
  assert (IZR (list_max l) ≠ 0%R) as Hmax0 by (apply not_0_IZR; lia).
  pose proof (coefficient_of_variation_of_eq l Hne Hpos) as Hcv.
  unfold load_balance_of. rewrite Hcv. unfold variance_of, avg_of in *.
  destruct l as [|x xs] eqn:Hl; [congruence|]. rewrite <- Hl in *.
  destruct (Req_dec_T _ 0) as [H0|_]; [rewrite H0 in Havg; lra|].
  destruct (Rlt_dec 0 _) as [_|Hn]; [|contradiction].
  rewrite Hlt. f_equal. f_equal. f_equal. rewrite minus_IZR. field. exact Hmax0.
Qed.

Lemma range_bonus_bounds (lo hi : Z) :
  0 ≤ lo ≤ hi → 0 < hi → (0 <= (1 - IZR (hi - lo) / IZR hi) * 10 <= 10)%R.
Proof.
  intros Hlo Hhi.
  assert (0 < IZR hi)%R as Hh by (apply IZR_lt; lia).
  assert ((1 - IZR (hi - lo) / IZR hi) * 10 = IZR lo / IZR hi * 10)%R as ->
    by (rewrite minus_IZR; field; lra).
  assert (0 <= IZR lo <= IZR hi)%R as [H1 H2] by (split; apply IZR_le; lia).
  assert (0 <= IZR lo / IZR hi <= 1)%R as [H3 H4]; [|lra].
  split.
  - apply Rmult_le_pos; [assumption|]. left. by apply Rinv_0_lt_compat.
  - apply (Rmult_le_reg_r (IZR hi)); [assumption|].
    unfold Rdiv. rewrite Rmult_assoc, Rinv_l by lra. lra.
Qed.

(** X14.  For every per-employee dictionary whose values are non-negative (and for
    a missing one) the fairness score lies in [0, 100]. *)
Theorem fairness_score_within_0_100 (entry : option (list (string * Z))) :
  Forall (fun v => 0 ≤ v) (dict_values (default [] entry)) →
  (0 <= _calculate_fairness_score entry <= 100)%R.
Proof.
  intros Hnn. unfold _calculate_fairness_score.
  set (l := dict_values (default [] entry)) in *.
  assert (l = [] ∨ l ≠ []) as [Hnil|Hne] by (destruct l; [by left|by right]).
  { rewrite Hnil. lra. }
  destruct (list_min_spec l Hne) as [Hmin_in Hmin_le].
  destruct (list_max_spec l Hne) as [Hmax_in Hmax_le].
  assert (0 ≤ list_min l ≤ list_max l) as Hrange.
  { rewrite Forall_forall in Hnn. split; [by apply Hnn|by apply Hmax_le]. }
  destruct l as [|x xs] eqn:Hl; [congruence|]. rewrite <- Hl in *.
  destruct (Req_dec_T _ 0) as [_|_]; [lra|].
  apply round_2_between_0_100.
  match goal with
  | |- (0 <= (if _ then Rmin 100 (?pre + _) else _) <= 100)%R =>
      assert (0 <= pre <= 100)%R as Hpre
        by (unfold Rmax, Rmin; repeat destruct (Rle_dec _ _); lra)
  end.
  destruct (0 <? list_max l) eqn:Hlt; [|exact Hpre].
  apply Z.ltb_lt in Hlt.
  pose proof (range_bonus_bounds (list_min l) (list_max l) Hrange Hlt) as Hbonus.
  cbv zeta.
  match goal with
  | |- (0 <= Rmin 100 (?pre + ?bonus) <= 100)%R =>
      generalize dependent bonus; generalize dependent pre
  end.
  intros pre Hpre bonus Hbonus. unfold Rmin. destruct (Rle_dec _ _); lra.
Qed.

Lemma fairness_score_within_0_100_witness :
  (0 <= _calculate_fairness_score
          (Some [("1"%string, 3%Z); ("2"%string, 5%Z); ("3"%string, 0%Z)]) <= 100)%R.
Proof.
  apply fairness_score_within_0_100. simpl. repeat constructor; lia.
Defined.

(** ** The scheduler's statistics under the analyser *)

Lemma renders_apart_subset (ids1 ids2 : list Id) :
  (∀ x, x ∈ ids1 → x ∈ ids2) → renders_apart ids2 → renders_apart ids1.
Proof. intros Hsub Hra x y Hx Hy. apply Hra; by apply Hsub. Qed.

(** When the employee identifiers render apart, the analyser reads the counts
    that the scheduler took its own figures from. *)
Lemma scheduler_counts (schedule : list Assignment) :
  renders_apart (map employee_id schedule) →
  dict_values (shifts_per_employee (_calculate_statistics schedule))
    = dict_values (employee_shifts schedule).
Proof.
  intros Hra. simpl. apply dict_rekey_values; [|apply count_by_NoDup].
  by apply (renders_apart_keys employee_id).
Qed.

Lemma employee_counts_positive (schedule : list Assignment) (x : Z) :
  x ∈ dict_values (employee_shifts schedule) → 1 ≤ x.
Proof.
  intros Hx.
  apply (elem_of_Permutation_proper _ _ _ (employee_counts_perm schedule)) in Hx.
  apply list_elem_of_fmap in Hx as (id & -> & Hid). by apply cnt_present_pos.
Qed.

Lemma fairness_score_of_statistics (schedule : list Assignment) :
  renders_apart (map employee_id schedule) →
  schedule ≠ [] →
  _calculate_fairness_score (Some (shifts_per_employee (_calculate_statistics schedule))) =
  round (Rmin 100 (load_balance_score schedule
                   + IZR (min_shifts_per_employee (_calculate_statistics schedule))
                     / IZR (max_shifts_per_employee (_calculate_statistics schedule)) * 10))
        2.
Proof.
  intros Hra Hne. pose proof (scheduler_counts schedule Hra) as Hvals.
  pose proof (employee_counts_positive schedule) as Hpos.
  pose proof (employee_counts_nonempty schedule Hne) as Hcounts.
  rewrite fairness_score_positive_counts; rewrite Hvals; [|assumption..].
  simpl. unfold load_balance_score.
  destruct (dict_values (employee_shifts schedule)); [congruence|reflexivity].
Qed.

Lemma fairness_score_between_load_balance_and_100 (schedule : list Assignment) :
  renders_apart (map employee_id schedule) →
  let stats := _calculate_statistics schedule in
  (stat_load_balance_score stats
     <= _calculate_fairness_score (Some (shifts_per_employee stats)) <= 100)%R.
Proof.
  intros Hra stats.
  change (stat_load_balance_score stats) with (round (load_balance_score schedule) 2).
  assert (schedule = [] ∨ schedule ≠ []) as [->|Hne]
    by (destruct schedule; [by left|by right]).
  - change (_calculate_fairness_score _) with 0%R.
    change (load_balance_score []) with 0%R.
    unfold round. rewrite Rmult_0_l. change 0%R with (IZR 0).
    rewrite round_half_even_IZR. simpl. lra.
  - pose proof (fairness_score_of_statistics schedule Hra Hne) as Hscore.
    fold stats in Hscore. rewrite Hscore.
    pose proof (load_balance_score_bounds schedule) as Hlb.
    pose proof (employee_counts_positive schedule) as Hpos.
    pose proof (employee_counts_nonempty schedule Hne) as Hcounts.
    destruct (list_min_spec _ Hcounts) as [Hmin_in Hmin_le].
    destruct (list_max_spec _ Hcounts) as [Hmax_in _].
    pose proof (Hpos _ Hmin_in) as Hmin1. pose proof (Hmin_le _ Hmax_in) as Hmm.
    assert (0 <= IZR (min_shifts_per_employee stats)
                 / IZR (max_shifts_per_employee stats) * 10)%R as Hbonus.
    { simpl.
      assert (0 < IZR (list_min (dict_values (employee_shifts schedule))))%R
        by (apply IZR_lt; lia).
      assert (0 < IZR (list_max (dict_values (employee_shifts schedule))))%R
        by (apply IZR_lt; lia).
      apply Rmult_le_pos; [|lra]. apply Rmult_le_pos; [lra|].
      left. by apply Rinv_0_lt_compat. }
    assert (load_balance_score schedule
            <= Rmin 100 (load_balance_score schedule
                         + IZR (min_shifts_per_employee stats)
                           / IZR (max_shifts_per_employee stats) * 10) <= 100)%R
      as [Hlo Hhi] by (unfold Rmin; destruct (Rle_dec _ _); lra).
    split; [by apply round_2_mono|].
    pose proof (round_2_mono _ _ Hhi) as Hcap. by rewrite round_2_100 in Hcap.
Qed.



(** ** Optimisation suggestions *)

Lemma load_balance_100_when_equal (schedule : list Assignment) :
  schedule ≠ [] →
  (∀ x y, x ∈ dict_values (employee_shifts schedule) →
          y ∈ dict_values (employee_shifts schedule) → x = y) →
  stat_load_balance_score (_calculate_statistics schedule) = 100%R.
Proof.
  intros Hne Hall. pose proof (employee_counts_positive schedule) as Hpos.
  pose proof (employee_counts_nonempty schedule Hne) as Hcounts.
  pose proof (proj2 (load_balance_of_100_iff _ Hcounts Hpos) Hall) as H100.
  simpl. unfold load_balance_score.
  destruct (dict_values (employee_shifts schedule)); [congruence|].
  rewrite H100. apply round_2_100.
Qed.

Lemma result_employee_ids (self : ShiftScheduler) (solver : CpSolver) (now : string)
    (res : Result) (id : Id) :
  generate_schedule self solver now = inr res →
  id ∈ map employee_id (schedule res) → id ∈ map emp_id (employees self).
Proof.
  intros Hres Hid.
  apply generate_schedule_inv in Hres as (st & value & _ & _ & Hrec & _).
  apply list_elem_of_fmap in Hid as (a & -> & Ha).
  destruct (records_of_elem _ _ _ _ Hrec Ha) as (c & _ & Hca).
  apply cell_record_fields in Hca as (employee & ? & ? & ? & He & _ & _ & _ & ->).
  simpl. apply list_elem_of_fmap. exists employee. split; [reflexivity|].
  eapply list_elem_of_lookup_2; eassumption.
Qed.

(** X16.  When the identifiers of the input employees render apart, a result
    whose reported [load_balance_score] is at least 85 never gets an
    [optimization_suggestions] entry, in either entry point and whatever the
    texts of the analysis are: the fairness score that step 3 compares with 85
    is at least the load-balance score. *)
Theorem balanced_result_gets_no_suggestions (self : ShiftScheduler) (solver : CpSolver)
    (now : string) (res : Result) (results : list (string * string)) :
  generate_schedule self solver now = inr res →
  renders_apart (map emp_id (employees self)) →
  (85 <= stat_load_balance_score (statistics res))%R →
  main_optimization_suggestions (Some (analyze_schedule results res)) = None ∧
  api_optimization_suggestions (Some (analyze_schedule results res)) = None.
Proof.
  intros Hres Hinputs Hlb.
  assert (renders_apart (map employee_id (schedule res))) as Hra.
  { apply (renders_apart_subset _ (map emp_id (employees self))); [|assumption].
    intros id. by apply (result_employee_ids self solver now res). }
  apply generate_schedule_inv in Hres as (_ & _ & _ & _ & _ & Hstat).
  assert (85 <= fairness_score (analyze_schedule results res))%R as Hscore.
  { cbn [analyze_schedule fairness_score]. rewrite Hstat in *.
    pose proof (fairness_score_between_load_balance_and_100 (schedule res) Hra) as H.
    cbv zeta in H. lra. }
  unfold main_optimization_suggestions, api_optimization_suggestions, api_ai_analysis.
  split.
  - unfold optimization_step. destruct (Rlt_dec _ 85); [lra|reflexivity].
  - destruct (_ && _); [reflexivity|].
    unfold optimization_step. destruct (Rlt_dec _ 85); [lra|reflexivity].
Qed.

Lemma balanced_result_gets_no_suggestions_witness :
  ∃ res, generate_schedule kiosk kiosk_solver "2026-11-04T09:00:00" = inr res ∧
         renders_apart (map emp_id (employees kiosk)) ∧
         (85 <= stat_load_balance_score (statistics res))%R ∧
         main_optimization_suggestions (Some (analyze_schedule [] res)) = None ∧
         api_optimization_suggestions (Some (analyze_schedule [] res)) = None.
Proof.
  destruct (generate_schedule_success kiosk kiosk_solver "2026-11-04T09:00:00" OPTIMAL
              kiosk_value kiosk_answers (or_introl eq_refl)) as (res & Hres & Hsched & _ & Hstat).
  assert (schedule res =
          default [] (_extract_schedule kiosk (decision_variables kiosk) kiosk_value))
    as Heq by (rewrite Hsched; reflexivity).
  assert (dict_values (employee_shifts (schedule res)) = [14; 14]) as Hcounts
    by (rewrite Heq; vm_compute; reflexivity).
  assert (85 <= stat_load_balance_score (statistics res))%R as Hlb.
  { rewrite Hstat, load_balance_100_when_equal; [lra| |].
    - intros Hnil. rewrite Hnil in Hcounts. discriminate.
    - rewrite Hcounts. intros x y Hx Hy.
      rewrite !elem_of_cons, elem_of_nil in Hx, Hy. lia. }
  assert (renders_apart (map emp_id (employees kiosk))) as Hra
    by apply (renders_apart_int [1; 2; 3]).
  exists res. split; [exact Hres|]. split; [exact Hra|]. split; [exact Hlb|].
  exact (balanced_result_gets_no_suggestions kiosk kiosk_solver _ res [] Hres Hra Hlb).
Defined.

(** * Weekly volume in the reported statistics *)

Lemma weekly_total_bounds (self : ShiftScheduler) (value : valuation) (e d l s week : nat) :
  feasible value (build_model self) = true →
  support self (e, d, l, s) → (week < 2)%nat → (7 * week ≤ d < 7 * week + 7)%nat →
  min_shifts_per_employee_per_week self
    ≤ Z.of_nat (weekly_total (assigned_cells self (decision_variables self) value) e week)
    ≤ max_shifts_per_employee_per_week self.
Proof.
  intros Hfeas Hsupp Hweek Hd.
  apply feasible_inv in Hfeas as [Hdom Hhard].
  pose proof (proj1 Hsupp) as Hrange. apply elem_of_all_cells in Hrange.
  assert (total_shifts self (decision_variables self) e week ≠ []) as Hne.
  { rewrite total_shifts_week_cells.
    apply (bind_var_at_nonempty self _ (e, d, l, s)); [|assumption].
    apply elem_of_week_cells. simpl. lia. }
  destruct (constraint5_posted self e week) as [Hge Hle]; [lia|assumption..|].
  apply Hhard in Hge, Hle. simpl in Hge, Hle. apply Z.leb_le in Hge, Hle.
  rewrite (total_shifts_weekly_total self value e week Hdom) in Hge, Hle by lia.
  by split.
Qed.

Lemma employee_load_fortnight (cells : list cell) (e : nat) :
  (∀ c, c ∈ cells → (cell_d c < 14)%nat) →
  employee_load cells e = (weekly_total cells e 0 + weekly_total cells e 1)%nat.
Proof.
  unfold employee_load, weekly_total.
  induction cells as [|c cells IH]; intros Hd; [reflexivity|].
  assert (cell_d c < 14)%nat as Hc by (apply Hd; by left).
  assert (∀ c', c' ∈ cells → (cell_d c' < 14)%nat) as Hrest by (intros; apply Hd; by right).
  specialize (IH Hrest). rewrite !filter_cons.
  repeat case_decide; cbn [length]; rewrite IH; lia.
Qed.

(** X12.  With the fortnight horizon of the constructor and pairwise distinct
    employee identifiers, every entry of [shifts_per_employee] in a successful
    result lies between twice the weekly minimum and twice the weekly maximum
    (10 and 20 with the defaults); so do the reported minimum and maximum
    when the schedule is not empty. *)
Theorem reported_counts_within_fortnight_bounds (self : ShiftScheduler)
    (solver : CpSolver) (value : valuation) (now : string) (res : Result) :
  solved self solver value →
  generate_schedule self solver now = inr res →
  NoDup (map emp_id (employees self)) →
  num_days self = 14%nat →
  let lo := 2 * min_shifts_per_employee_per_week self in
  let hi := 2 * max_shifts_per_employee_per_week self in
  (∀ key n, dict_get (shifts_per_employee (statistics res)) key = Some n → lo ≤ n ≤ hi) ∧
  (schedule res ≠ [] →
   lo ≤ min_shifts_per_employee (statistics res) ∧
   max_shifts_per_employee (statistics res) ≤ hi).
Proof.
  intros Hsolved Hres Hnd Hdays lo hi.
  destruct (solved_generate_schedule _ _ _ _ _ Hsolved Hres) as [Hrec Hstat].
  destruct Hsolved as (st & _ & _ & Hfeas).
  set (cells := assigned_cells self (decision_variables self) value) in *.
  assert (∀ id, 0 < cnt (schedule res) id → lo ≤ cnt (schedule res) id ≤ hi) as Hcnt.
  { intros id Hpos.
    assert (id ∈ map employee_id (schedule res)) as Hin.
    { apply (occurrences_pos_iff employee_id). fold (cnt (schedule res) id). lia. }
    apply list_elem_of_fmap in Hin as (a & -> & Ha).
    destruct (records_of_elem _ _ _ _ Hrec Ha) as (c & Hc & Hca).
    apply elem_of_assigned_cells in Hc as [Hsupp _].
    apply cell_record_fields in Hca as (employee & ? & ? & ? & He & _ & _ & _ & ->).
    simpl. rewrite (records_of_cnt self cells (schedule res) (cell_e c) employee Hnd He Hrec).
    destruct c as [[[e d] l] s]. simpl.
    destruct Hsupp as [Hcell Hcompat]. apply elem_of_all_cells in Hcell. simpl in Hcompat.
    assert (support self (e, 0, l, s)%nat) as H0
      by (split; [apply elem_of_all_cells; lia|exact Hcompat]).
    assert (support self (e, 7, l, s)%nat) as H7
      by (split; [apply elem_of_all_cells; lia|exact Hcompat]).
    pose proof (weekly_total_bounds self value e 0 l s 0 Hfeas H0) as Hw0.
    pose proof (weekly_total_bounds self value e 7 l s 1 Hfeas H7) as Hw1.
    fold cells in Hw0, Hw1.
    rewrite (employee_load_fortnight cells e).
    - unfold lo, hi. lia.
    - intros [[[e' d'] l'] s'] Hc'. apply elem_of_assigned_cells in Hc' as [[Hc' _] _].
      apply elem_of_all_cells in Hc'. simpl. lia. }
  split.
  - intros key n Hget. rewrite Hstat in Hget. simpl in Hget.
    apply (proj1 (rekeyed_count_lookup employee_id str (schedule res))) in Hget
      as (id & _ & -> & Hpos).
    by apply Hcnt.
  - intros Hne. rewrite Hstat. simpl.
    pose proof (employee_counts_nonempty _ Hne) as Hvals.
    pose proof (employee_counts_perm (schedule res)) as Hperm.
    destruct (list_min_spec _ Hvals) as [Hmin_in _].
    destruct (list_max_spec _ Hvals) as [Hmax_in _].
    apply (elem_of_Permutation_proper _ _ _ Hperm) in Hmin_in, Hmax_in.
    apply list_elem_of_fmap in Hmin_in as (id1 & -> & Hid1).
    apply list_elem_of_fmap in Hmax_in as (id2 & -> & Hid2).
    pose proof (cnt_present_pos _ _ Hid1). pose proof (cnt_present_pos _ _ Hid2).
    split; apply Hcnt; lia.
Qed.

Lemma reported_counts_within_fortnight_bounds_witness :
  ∃ res, generate_schedule two_sites two_sites_solver "2026-11-04T09:00:00" = inr res ∧
         solved two_sites two_sites_solver two_sites_value ∧
         NoDup (map emp_id (employees two_sites)) ∧
         num_days two_sites = 14%nat ∧
         (∀ key n, dict_get (shifts_per_employee (statistics res)) key = Some n →
                   10 ≤ n ≤ 20).
Proof.
  destruct (generate_schedule_success two_sites two_sites_solver "2026-11-04T09:00:00"
              FEASIBLE two_sites_value two_sites_answers (or_intror eq_refl)) as (res & Hres & _).
  assert (NoDup (map emp_id (employees two_sites))) as Hnd
    by (apply (bool_decide_unpack _); vm_compute; exact I).
  exists res. split; [exact Hres|]. split; [exact two_sites_solved|].
  split; [exact Hnd|]. split; [reflexivity|].
  exact (proj1 (reported_counts_within_fortnight_bounds two_sites two_sites_solver
                  two_sites_value _ res two_sites_solved Hres Hnd eq_refl)).
Defined.

(** * Models that cannot be solved *)

Lemma employees_for_shift_length (self : ShiftScheduler) (d l s : nat) :
  (d < num_days self)%nat → (s < num_shifts_per_day self)%nat →
  length (employees_for_shift self (decision_variables self) d l s)
    = length (qualified self l).
Proof.
  intros Hd Hs. unfold employees_for_shift, qualified.
  induction (seq 0 (num_employees self)) as [|e es IH]; [reflexivity|].
  rewrite filter_cons. simpl omap.
  destruct (decision_variables self !! (e, d, l, s)) as [x|] eqn:Hx.
  - apply lookup_decision_variables_Some in Hx as [_ [_ Hcompat]]. simpl in Hcompat.
    destruct (decide (compatible self e l = true)); [|contradiction].
    simpl. f_equal. exact IH.
  - apply lookup_decision_variables_None in Hx.
    destruct (decide (compatible self e l = true)) as [Hcompat|]; [|exact IH].
    exfalso. apply Hx. split; [|exact Hcompat].
    apply elem_of_all_cells. apply compatible_in_range in Hcompat. lia.
Qed.

Lemma sum_vars_le_length (value : valuation) (vars : list var) :
  (∀ x, x ∈ vars → value x ≤ 1) → sum_vars value vars ≤ Z.of_nat (length vars).
Proof.
  unfold sum_vars. induction vars as [|x vars IH]; intros Hle; simpl; [lia|].
  assert (value x ≤ 1) by (apply Hle; by left).
  assert (foldr Z.add 0 (map value vars) ≤ Z.of_nat (length vars))
    by (apply IH; intros; apply Hle; by right).
  lia.
Qed.

Lemma employees_for_shift_sum_le (self : ShiftScheduler) (value : valuation) (d l s : nat) :
  (∀ c, support self c → 0 ≤ value (BoolVar c) ≤ 1) →
  (d < num_days self)%nat → (s < num_shifts_per_day self)%nat →
  sum_vars value (employees_for_shift self (decision_variables self) d l s)
    ≤ Z.of_nat (length (qualified self l)).
Proof.
  intros Hdom Hd Hs. rewrite <- (employees_for_shift_length self d l s Hd Hs).
  apply sum_vars_le_length. intros x Hx. unfold employees_for_shift in Hx.
  apply list_elem_of_omap in Hx as (e & _ & Hx).
  apply lookup_decision_variables_Some in Hx as [-> Hsupp]. by apply Hdom.
Qed.

(** X7.  A location that has a qualified employee, but fewer of them than
    [min_employees_per_shift], or a capacity below that minimum, makes the
    model unsatisfiable; with a solver that keeps its contract the generate
    operation then returns no result: it raises the solver-failure exception,
    unless a bound was rejected before the solver was reached. *)
Theorem understaffed_location_unsolvable (self : ShiftScheduler) (solver : CpSolver)
    (now : string) (l : nat) (location : Location) :
  locations self !! l = Some location →
  (0 < num_days self)%nat → (0 < num_shifts_per_day self)%nat →
  qualified self l ≠ [] →
  Z.of_nat (length (qualified self l)) < min_employees_per_shift self ∨
  default 20 (loc_capacity location) < min_employees_per_shift self →
  (∀ value, feasible value (build_model self) = false) ∧
  (sound self solver →
   (accepted (build_model self) = false ∧
    generate_schedule self solver now = inl RejectedBound) ∨
   (accepted (build_model self) = true ∧
    ∃ st, st ≠ OPTIMAL ∧ st ≠ FEASIBLE ∧
          generate_schedule self solver now =
            inl (Exception ("Solver failed with status: " +:+ status_str solver st)))).
Proof.
  intros Hl Hd Hs Hq Hshort.
  assert (∀ value, feasible value (build_model self) = false) as Hinfeasible.
  { intros value. destruct (feasible value (build_model self)) eqn:Hfeas; [|reflexivity].
    exfalso. apply feasible_inv in Hfeas as [Hdom Hhard].
    destruct (qualified self l) as [|e es] eqn:Hqual; [congruence|]. rewrite <- Hqual in *.
    assert (e ∈ qualified self l) as He by (rewrite Hqual; by left).
    apply list_elem_of_filter in He as [Hcompat He]. apply elem_of_seq in He.
    assert (employees_for_shift self (decision_variables self) 0 l 0 ≠ []) as Hne.
    { unfold employees_for_shift.
      rewrite (omap_var_at (decision_variables self) (fun e => (e, 0%nat, l, 0%nat))).
      apply (bind_var_at_nonempty self _ (e, 0, l, 0)%nat).
      - apply list_elem_of_fmap. exists e. split; [reflexivity|]. apply elem_of_seq. lia.
      - split; [|exact Hcompat]. apply elem_of_all_cells.
        apply compatible_in_range in Hcompat. lia. }
    destruct (constraint12_posted self 0 l 0 location Hd Hs Hl Hne) as [Hge Hle].
    apply Hhard in Hge, Hle. simpl in Hge, Hle. apply Z.leb_le in Hge, Hle.
    pose proof (employees_for_shift_sum_le self value 0 l 0 Hdom Hd Hs). lia. }
  split; [exact Hinfeasible|].
  intros Hsound. destruct (accepted (build_model self)) eqn:Hacc.
  2: { left. split; [reflexivity|]. by apply generate_schedule_rejected. }
  right. split; [reflexivity|].
  destruct (solver (build_model self)) as [st value] eqn:Hsolve.
  assert (st ≠ OPTIMAL ∧ st ≠ FEASIBLE) as [H1 H2].
  { split; intros ->.
    - specialize (Hsound _ _ Hsolve (or_introl eq_refl)).
      rewrite Hinfeasible in Hsound. discriminate.
    - specialize (Hsound _ _ Hsolve (or_intror eq_refl)).
      rewrite Hinfeasible in Hsound. discriminate. }
  exists st. split; [assumption|]. split; [assumption|].
  by apply (generate_schedule_failure self solver now st value).
Qed.

Lemma understaffed_location_unsolvable_witness :
  qualified solo_kiosk 0 = [0%nat] ∧
  sound solo_kiosk infeasible_solver ∧
  generate_schedule solo_kiosk infeasible_solver "2026-11-04T09:00:00" =
    inl (Exception "Solver failed with status: INFEASIBLE").
Proof.
  assert (sound solo_kiosk infeasible_solver) as Hsound.
  { intros st value [= <- <-] [H|H]; discriminate. }
  split; [vm_compute; reflexivity|]. split; [exact Hsound|].
  destruct (understaffed_location_unsolvable solo_kiosk infeasible_solver
              "2026-11-04T09:00:00" 0 (location_ 1 "Kiosk" ["sales"%string]))
    as [_ Hraise].
  - reflexivity.
  - vm_compute. lia.
  - vm_compute. lia.
  - vm_compute. discriminate.
  - left. vm_compute. reflexivity.
  - destruct (Hraise Hsound) as [[Hacc _]|[_ (st & _ & _ & Hgen)]].
    + vm_compute in Hacc. discriminate.
    + vm_compute. reflexivity.
Defined.

(** * Coverage in the reported statistics *)

Lemma sum_list_with_ext_in {A : Type} (f g : A → nat) (l : list A) :
  (∀ x, x ∈ l → f x = g x) → sum_list_with f l = sum_list_with g l.
Proof.
  induction l as [|x l IH]; intros H; [reflexivity|]. simpl.
  rewrite (H x) by (by left). rewrite IH; [reflexivity|]. intros; apply H; by right.
Qed.

Lemma sum_list_with_bump {K : Type} `{EqDecision K} (f g : K → nat) (keys : list K) (k0 : K) :
  NoDup keys → k0 ∈ keys →
  (∀ k, g k = if decide (k0 = k) then S (f k) else f k) →
  sum_list_with g keys = S (sum_list_with f keys).
Proof.
  intros Hnd Hin Hg. induction keys as [|k keys IH]; [by apply elem_of_nil in Hin|].
  apply NoDup_cons in Hnd as [Hk Hnd]. simpl. rewrite (Hg k).
  destruct (decide (k0 = k)) as [->|Hne].
  - rewrite (sum_list_with_ext_in g f keys); [lia|].
    intros k' Hk'. rewrite Hg. destruct (decide (k = k')); [congruence|reflexivity].
  - apply elem_of_cons in Hin as [|Hin]; [contradiction|]. rewrite IH by assumption. lia.
Qed.

(** A list splits by key into the classes of a duplicate-free list of keys. *)
Lemma length_by_key {A K : Type} `{EqDecision K} (key : A → K) (keys : list K)
    (l : list A) :
  NoDup keys → (∀ x, x ∈ l → key x ∈ keys) →
  length l = sum_list_with (fun k => length (filter (fun x => key x = k) l)) keys.
Proof.
  intros Hnd. induction l as [|x l IH]; intros Hkeys.
  - clear Hnd Hkeys. induction keys as [|k keys IHk]; [reflexivity|]. exact IHk.
  - simpl length. rewrite IH by (intros; apply Hkeys; by right).
    symmetry. apply (sum_list_with_bump _ _ keys (key x)); [assumption| |].
    + apply Hkeys. by left.
    + intros k. rewrite filter_cons. by destruct (decide (key x = k)).
Qed.

Lemma sum_list_with_between {A : Type} (f : A → nat) (l : list A) (lo hi : Z) :
  (∀ x, x ∈ l → lo ≤ Z.of_nat (f x) ≤ hi) →
  lo * Z.of_nat (length l) ≤ Z.of_nat (sum_list_with f l) ≤ hi * Z.of_nat (length l).
Proof.
  induction l as [|x l IH]; intros H; simpl length; simpl sum_list_with; [lia|].
  assert (lo ≤ Z.of_nat (f x) ≤ hi) by (apply H; by left).
  assert (lo * Z.of_nat (length l) ≤ Z.of_nat (sum_list_with f l) ≤ hi * Z.of_nat (length l))
    by (apply IH; intros; apply H; by right).
  lia.
Qed.

Lemma elem_of_slots (self : ShiftScheduler) (d s : nat) :
  (d, s) ∈ slots self ↔ (d < num_days self ∧ s < num_shifts_per_day self)%nat.
Proof.
  unfold slots. split.
  - intros H. apply list_elem_of_bind in H as (d0 & H & Hd).
    apply list_elem_of_bind in H as (s0 & H & Hs).
    apply list_elem_of_singleton in H. inversion H; subst.
    rewrite !elem_of_seq in *. lia.
  - intros [Hd Hs].
    apply list_elem_of_bind. exists d. split; [|apply elem_of_seq; lia].
    apply list_elem_of_bind. exists s. split; [|apply elem_of_seq; lia].
    apply list_elem_of_singleton. reflexivity.
Qed.

Lemma slots_NoDup (self : ShiftScheduler) : NoDup (slots self).
Proof.
  unfold slots. apply NoDup_bind.
  - intros d1 d2 x _ _ H1 H2.
    apply list_elem_of_bind in H1 as (s1 & H1 & _).
    apply list_elem_of_bind in H2 as (s2 & H2 & _).
    apply list_elem_of_singleton in H1, H2. congruence.
  - intros d _. apply NoDup_bind.
    + intros s1 s2 x _ _ H1 H2. apply list_elem_of_singleton in H1, H2. congruence.
    + intros s _. apply NoDup_singleton.
    + apply NoDup_seq.
  - apply NoDup_seq.
Qed.

Lemma length_bind_const {A B : Type} (f : A → list B) (l : list A) (n : nat) :
  (∀ x, length (f x) = n) → length (l ≫= f) = (length l * n)%nat.
Proof.
  intros Hf. induction l as [|x l IH]; [reflexivity|].
  rewrite bind_cons, length_app, Hf, IH. simpl. lia.
Qed.

Lemma slots_length (self : ShiftScheduler) :
  length (slots self) = (num_days self * num_shifts_per_day self)%nat.
Proof.
  unfold slots. rewrite (length_bind_const _ _ (num_shifts_per_day self)).
  - by rewrite length_seq.
  - intros d. rewrite (length_bind_const _ _ 1%nat) by reflexivity.
    rewrite length_seq. lia.
Qed.

Lemma location_load_slots (self : ShiftScheduler) (cells : list cell) (l : nat) :
  (∀ c, c ∈ cells → c ∈ all_cells self) →
  location_load cells l =
  sum_list_with (fun '(d, s) => staff_count cells d l s) (slots self).
Proof.
  intros Hrange. unfold location_load.
  rewrite (length_by_key (fun c => (cell_d c, cell_s c)) (slots self));
    [|apply slots_NoDup|].
  - apply sum_list_with_ext_in. intros [d s] _. unfold staff_count.
    rewrite list_filter_filter. f_equal. apply list_filter_iff.
    intros c. split; [intros [[= <- <-] <-]|intros (<- & <- & <-)]; tauto.
  - intros [[[e d] l'] s] Hc. apply list_elem_of_filter in Hc as [_ Hc].
    apply Hrange, elem_of_all_cells in Hc. apply elem_of_slots. simpl. lia.
Qed.

Lemma records_of_location (self : ShiftScheduler) (cells : list cell)
    (sched : list Assignment) (l : nat) (location : Location) :
  NoDup (map loc_id (locations self)) →
  locations self !! l = Some location →
  records_of self cells sched →
  occurrences location_id sched (loc_id location) = Z.of_nat (location_load cells l).
Proof.
  intros Hnd Hl Hrec. unfold occurrences, location_load. f_equal.
  induction Hrec as [|c a cells sched Hca _ IH]; [reflexivity|].
  rewrite !filter_cons.
  apply cell_record_fields in Hca as (? & ? & location' & ? & _ & _ & Hl' & _ & ->).
  simpl.
  assert (loc_id location' = loc_id location ↔ cell_l c = l) as Hiff.
  { split.
    - intros Hid.
      apply (NoDup_lookup _ _ _ (loc_id location) Hnd).
      + change (map loc_id (locations self)) with (loc_id <$> locations self).
        by rewrite list_lookup_fmap, Hl', <- Hid.
      + change (map loc_id (locations self)) with (loc_id <$> locations self).
        by rewrite list_lookup_fmap, Hl.
    - intros Hc. rewrite Hc, Hl in Hl'. by injection Hl' as <-. }
  destruct (decide (loc_id location' = loc_id location)) as [Hid|Hid];
    destruct (decide (cell_l c = l)) as [Hc|Hc]; simpl; try tauto; by rewrite IH.
Qed.

(** X13.  With pairwise distinct location identifiers, the number of
    assignments that a successful result holds for a location with at least
    one qualified employee lies between [min_employees_per_shift] and the
    location's capacity, each multiplied by the number of (day, shift) slots of
    the horizon; when the location identifiers also render apart and the
    number is positive, it is the location's entry in [shifts_per_location]. *)
Theorem reported_location_totals_within_coverage (self : ShiftScheduler)
    (solver : CpSolver) (value : valuation) (now : string) (res : Result)
    (l : nat) (location : Location) :
  solved self solver value →
  generate_schedule self solver now = inr res →
  NoDup (map loc_id (locations self)) →
  locations self !! l = Some location →
  qualified self l ≠ [] →
  let n := occurrences location_id (schedule res) (loc_id location) in
  let slots_ := Z.of_nat (num_days self * num_shifts_per_day self) in
  min_employees_per_shift self * slots_ ≤ n ≤ default 20 (loc_capacity location) * slots_ ∧
  (renders_apart (map loc_id (locations self)) → 0 < n →
   dict_get (shifts_per_location (statistics res)) (str (loc_id location)) = Some n).
Proof.
  intros Hsolved Hres Hnd Hl Hq n slots_.
  destruct (solved_generate_schedule _ _ _ _ _ Hsolved Hres) as [Hrec Hstat].
  destruct Hsolved as (st & _ & _ & Hfeas).
  apply feasible_inv in Hfeas as [Hdom Hhard].
  set (cells := assigned_cells self (decision_variables self) value) in *.
  assert (l < num_locations self)%nat as Hlt by (eapply lookup_lt_Some; eassumption).
  split.
  - unfold n. rewrite (records_of_location self cells (schedule res) l location Hnd Hl Hrec).
    rewrite (location_load_slots self).
    + unfold slots_. rewrite <- slots_length. apply sum_list_with_between.
      intros [d s] Hds. apply elem_of_slots in Hds as [Hd Hs].
      destruct (qualified self l) as [|e es] eqn:Hqual; [congruence|].
      assert (e ∈ qualified self l) as He by (rewrite Hqual; by left).
      apply list_elem_of_filter in He as [Hcompat He]. apply elem_of_seq in He.
      assert (employees_for_shift self (decision_variables self) d l s ≠ []) as Hne.
      { unfold employees_for_shift.
        rewrite (omap_var_at (decision_variables self) (fun e => (e, d, l, s))).
        apply (bind_var_at_nonempty self _ (e, d, l, s)).
        - apply list_elem_of_fmap. exists e. split; [reflexivity|]. apply elem_of_seq. lia.
        - split; [|exact Hcompat]. apply elem_of_all_cells. lia. }
      destruct (constraint12_posted self d l s location Hd Hs Hl Hne) as [Hge Hle].
      apply Hhard in Hge, Hle. simpl in Hge, Hle. apply Z.leb_le in Hge, Hle.
      rewrite (employees_for_shift_sum self value d l s Hdom Hd Hlt Hs) in Hge, Hle.
      fold cells in Hge, Hle. by split.
    + intros c Hc. apply elem_of_assigned_cells in Hc as [[Hc _] _]. exact Hc.
  - intros Hra Hpos. rewrite Hstat. simpl.
    apply (proj2 (rekeyed_count_lookup location_id str (schedule res))); [|exact Hpos].
    apply (renders_apart_subset _ (map loc_id (locations self))); [|exact Hra].
    intros id Hid. apply list_elem_of_fmap in Hid as (a & -> & Ha).
    destruct (records_of_elem _ _ _ _ Hrec Ha) as (c & _ & Hca).
    apply cell_record_fields in Hca as (? & ? & location' & ? & _ & _ & Hl' & _ & ->).
    simpl. apply list_elem_of_fmap. exists location'. split; [reflexivity|].
    eapply list_elem_of_lookup_2; eassumption.
Qed.

Lemma reported_location_totals_within_coverage_witness :
  ∃ res, generate_schedule two_sites two_sites_solver "2026-11-04T09:00:00" = inr res ∧
         solved two_sites two_sites_solver two_sites_value ∧
         NoDup (map loc_id (locations two_sites)) ∧
         qualified two_sites 1 ≠ [] ∧
         renders_apart (map loc_id (locations two_sites)) ∧
         2 * 28 ≤ occurrences location_id (schedule res) 2 ≤ 20 * 28 ∧
         (0 < occurrences location_id (schedule res) 2 →
          dict_get (shifts_per_location (statistics res)) (str 2)
            = Some (occurrences location_id (schedule res) 2)).
Proof.
  destruct (generate_schedule_success two_sites two_sites_solver "2026-11-04T09:00:00"
              FEASIBLE two_sites_value two_sites_answers (or_intror eq_refl))
    as (res & Hres & _).
  assert (NoDup (map loc_id (locations two_sites))) as Hnd
    by (apply (bool_decide_unpack _); vm_compute; exact I).
  assert (qualified two_sites 1 ≠ []) as Hq by (vm_compute; discriminate).
  assert (renders_apart (map loc_id (locations two_sites))) as Hra
    by apply (renders_apart_int [1; 2]).
  exists res. split; [exact Hres|]. split; [exact two_sites_solved|].
  split; [exact Hnd|]. split; [exact Hq|]. split; [exact Hra|].
  destruct (reported_location_totals_within_coverage two_sites two_sites_solver
              two_sites_value _ res 1 (location_ 2 "Warehouse" ["stock"%string])
              two_sites_solved Hres Hnd eq_refl Hq) as [Hbounds Hentry].
  split; [exact Hbounds|]. intros Hpos. exact (Hentry Hra Hpos).
Defined.

(** * Outcomes of the generate operation *)






(** * The extracted schedule, record by record *)

(** C9.  [_extract_schedule] always returns.  The cells for which it emits a
    record are exactly the support tuples whose decision variable is valued
    1, each once, in strictly increasing lexicographic order on
    [(e, d, l, s)]; the schedule holds one record per such cell, in that same
    order, and the record of the cell [(e, d, l, s)] carries the identifier
    and name of employee [e], the date of day [d], the identifier and name
    of location [l], and the identifier, name, start and end time of shift
    [s]. *)
Theorem extract_schedule_support_lex_order (self : ShiftScheduler) (value : valuation) :
  let cells := assigned_cells self (decision_variables self) value in
  (∀ c, c ∈ cells ↔ is_Some (decision_variables self !! c) ∧ value (BoolVar c) = 1) ∧
  NoDup cells ∧
  StronglySorted cell_lt cells ∧
  ∃ sched, _extract_schedule self (decision_variables self) value = Some sched ∧
           records_of self cells sched ∧
           Forall2 (fun c a =>
                      ∃ employee location shift,
                        employees self !! cell_e c = Some employee ∧
                        locations self !! cell_l c = Some location ∧
                        shifts self !! cell_s c = Some shift ∧
                        a = {| employee_id := emp_id employee;
                               employee_name := emp_name employee;
                               date := date_str self (cell_d c);
                               location_id := loc_id location;
                               location_name := loc_name location;
                               shift_id := sh_id shift;
                               shift_name := sh_name shift;
                               start_time := sh_start_time shift;
                               end_time := sh_end_time shift |})
                   cells sched.
Proof.
  intros cells. split; [|split; [|split]].
  - intros c. unfold cells. rewrite elem_of_assigned_cells. split.
    + intros [Hs Hv]. split; [|assumption].
      exists (BoolVar c). by apply lookup_decision_variables_Some.
    + intros [[x Hx] Hv]. apply lookup_decision_variables_Some in Hx as [_ Hs]. tauto.
  - apply NoDup_filter, all_cells_NoDup.
  - apply StronglySorted_filter_list, all_cells_sorted.
  - destruct (extract_schedule_total self (decision_variables self) value) as [sched Hs].
    assert (records_of self cells sched) as Hrec by (by apply mapM_Some_1).
    exists sched. split; [assumption|]. split; [assumption|].
    apply (Forall2_impl _ _ _ _ Hrec). intros c a Hca.
    apply cell_record_fields in Hca
      as (employee & day & location & shift & He & Hd & Hl & Hsh & ->).
    destruct (lookup_dates _ _ _ Hd) as [_ ->].
    exists employee, location, shift. by repeat split.
Qed.
